(** * zustand-persist-plus: storage layers, migration and conflict resolution

    A shallow embedding of
    - [src/encryption/aes-gcm.ts]      ([encrypt], [decrypt]),
    - [src/compression/lz-string.ts]   ([compress], [decompress], [shouldCompress]),
    - [src/middleware/persist-plus.ts] (the three storage adapters and
      [createPersistPlus]),
    - the conflict resolution module   ([lastWriteWins], [mergeStates],
      [createConflictResolver]),
    and of further functions of these modules ([isEncryptedData], the
    helpers of the compression module, [migrateState], [statesEqual],
    [getStateDiff], [createTrackedStorage]), followed by the properties
    proved about them.

    JavaScript values are modelled by the inductive type [value]; the host
    functions [JSON.stringify] and [JSON.parse] are written out over it;
    the two libraries the code calls (CryptoJS and LZString) are records of
    functions the definitions are parameterised by. *)

From Stdlib Require Import ZArith List String Ascii Bool Lia Sorting.Sorted.
From Stdlib Require Import DecimalString DecimalN DecimalPos DecimalFacts.
From stdpp Require Import base option gmap strings.
Import ListNotations.

Set Warnings "-register-all".

Local Open Scope Z_scope.
Local Open Scope list_scope.

(* ================================================================== *)
(** ** Outcomes of a JavaScript computation *)

(** What a [throw] carries.  [JsError msg] is [new Error(msg)];
    [TypeError] and [SyntaxError] are raised by the host. *)
Inductive exn : Type :=
| JsError (msg : string)
| TypeError
| SyntaxError.

(** [Ok a]: normal completion.  [Throw e]: an exception propagates.
    [Outside]: the input leaves the fragment of JavaScript this model
    covers (numbers that are not integers, implicit coercions of strings
    to numbers, ...); the model then makes no statement, and a
    [try]/[catch] does not turn [Outside] into anything else. *)
Inductive result (A : Type) : Type :=
| Ok (a : A)
| Throw (e : exn)
| Outside.
Arguments Ok {A} a.
Arguments Throw {A} e.
Arguments Outside {A}.

Definition bind {A B : Type} (m : result A) (k : A -> result B) : result B :=
  match m with
  | Ok a => k a
  | Throw e => Throw e
  | Outside => Outside
  end.

(** [try { body } catch { handler }] with a handler that ignores the
    exception object, as every [catch] of the sources does. *)
Definition try_catch {A : Type} (body handler : result A) : result A :=
  match body with
  | Throw _ => handler
  | other => other
  end.

Declare Scope js_scope.
Delimit Scope js_scope with js.
Notation "'do' x <- m ; k" := (bind m (fun x => k))
  (at level 10, x pattern, m at level 100, k at level 200) : js_scope.
Local Open Scope js_scope.

(* ================================================================== *)
(** ** JavaScript values *)

(** Numbers are restricted to integers (taken to be ones a double holds
    exactly).  A string is a string of bytes.  An object is the list of
    its own enumerable properties in enumeration order; property names
    that are canonical array indices (which JavaScript enumerates first)
    are not modelled.  Values are finite trees: no object contains
    itself. *)
Inductive value : Type :=
| VUndefined
| VNull
| VBool (b : bool)
| VNum (n : Z)
| VStr (s : string)
| VArr (elems : list value)
| VObj (props : list (string * value)).

Definition obj : Type := list (string * value).

(** [o[k]] for an object [o]: [undefined] when [k] is not a property. *)
Fixpoint get (o : obj) (k : string) : value :=
  match o with
  | [] => VUndefined
  | (k', v) :: o' => if String.eqb k k' then v else get o' k
  end.

(** [o[k] = v]: an existing property keeps its place, a new one is added
    last. *)
Fixpoint put (o : obj) (k : string) (v : value) : obj :=
  match o with
  | [] => [(k, v)]
  | (k', v') :: o' =>
      if String.eqb k k' then (k, v) :: o' else (k', v') :: put o' k v
  end.

(** [Object.keys(o)]. *)
Definition keys (o : obj) : list string := map fst o.

(** [v.k] for an arbitrary value and a name [k] that is no built-in
    property (the sources read [_version], [salt], [iv], [ciphertext] and
    [algorithm]): reading from [null] or [undefined] throws; a primitive
    or an array has no such property. *)
Definition getProp (v : value) (k : string) : result value :=
  match v with
  | VUndefined | VNull => Throw TypeError
  | VObj o => Ok (get o k)
  | _ => Ok VUndefined
  end.

(** [v.k = x] in strict mode (the sources are ES modules), for a value
    that is only serialised afterwards: on an array the new property is
    not an element, so [JSON.stringify] does not see it; on a primitive,
    [null] or [undefined] the assignment throws. *)
Definition setProp (v : value) (k : string) (x : value) : result value :=
  match v with
  | VObj o => Ok (VObj (put o k x))
  | VArr l => Ok (VArr l)
  | _ => Throw TypeError
  end.

(** JavaScript's truthiness. *)
Definition truthy (v : value) : bool :=
  match v with
  | VUndefined | VNull => false
  | VBool b => b
  | VNum n => negb (n =? 0)
  | VStr s => negb (String.eqb s EmptyString)
  | VArr _ | VObj _ => true
  end.

Definition isUndefined (v : value) : bool :=
  match v with
  | VUndefined => true
  | _ => false
  end.

(* ================================================================== *)
(** ** JSON text *)

Definition dquote : ascii := "034"%char.
Definition backslash : ascii := "092"%char.

Definition chars (s : string) : list ascii := list_ascii_of_string s.
Definition text (l : list ascii) : string := string_of_list_ascii l.

Definition is_digit (c : ascii) : bool :=
  ((48 <=? nat_of_ascii c) && (nat_of_ascii c <=? 57))%nat.

(** A control character, [U+0000] to [U+001F]. *)
Definition is_control (c : ascii) : bool :=
  (nat_of_ascii c <? 32)%nat.

Definition hex_digit (n : nat) : ascii :=
  nth n (chars "0123456789abcdef") "0"%char.

Definition hex_value (c : ascii) : option nat :=
  let n := nat_of_ascii c in
  if ((48 <=? n) && (n <=? 57))%nat then Some (n - 48)%nat
  else if ((97 <=? n) && (n <=? 102))%nat then Some (n - 87)%nat
  else if ((65 <=? n) && (n <=? 70))%nat then Some (n - 55)%nat
  else None.

(** *** [JSON.stringify] *)

(** One character of a string literal as [JSON.stringify] quotes it. *)
Definition ser_char (c : ascii) : list ascii :=
  if Ascii.eqb c dquote then [backslash; dquote]
  else if Ascii.eqb c backslash then [backslash; backslash]
  else if Ascii.eqb c "008"%char then [backslash; "b"%char]
  else if Ascii.eqb c "009"%char then [backslash; "t"%char]
  else if Ascii.eqb c "010"%char then [backslash; "n"%char]
  else if Ascii.eqb c "012"%char then [backslash; "f"%char]
  else if Ascii.eqb c "013"%char then [backslash; "r"%char]
  else if is_control c then
    [backslash; "u"%char; "0"%char; "0"%char;
     hex_digit (nat_of_ascii c / 16); hex_digit (nat_of_ascii c mod 16)]
  else [c].

Definition ser_string (s : string) : list ascii :=
  dquote :: flat_map ser_char (chars s) ++ [dquote].

Definition ser_nat (n : N) : list ascii :=
  chars (NilZero.string_of_uint (N.to_uint n)).

Definition ser_Z (n : Z) : list ascii :=
  if n <? 0 then "-"%char :: ser_nat (Z.abs_N n) else ser_nat (Z.to_N n).

Fixpoint join (parts : list (list ascii)) : list ascii :=
  match parts with
  | [] => []
  | [p] => p
  | p :: rest => p ++ ","%char :: join rest
  end.

(** The members [JSON.stringify] prints: a property whose value is
    [undefined] is left out. *)
Fixpoint somes {A : Type} (l : list (option A)) : list A :=
  match l with
  | [] => []
  | Some a :: l' => a :: somes l'
  | None :: l' => somes l'
  end.

(** The text of a value inside a document; [undefined] as an array
    element prints as [null]. *)
Fixpoint ser (v : value) : list ascii :=
  match v with
  | VUndefined | VNull => chars "null"
  | VBool true => chars "true"
  | VBool false => chars "false"
  | VNum n => ser_Z n
  | VStr s => ser_string s
  | VArr l => "["%char :: join (map ser l) ++ ["]"%char]
  | VObj m =>
      "{"%char ::
      join (somes (map (fun kv : string * value =>
                          let (k, x) := kv in
                          if isUndefined x then None
                          else Some (ser_string k ++ ":"%char :: ser x)) m))
      ++ ["}"%char]
  end.

(** [JSON.stringify(v)] for a value that is not [undefined] (the sources
    only serialise objects and the results of [JSON.parse]). *)
Definition JSON_stringify (v : value) : string := text (ser v).

(** *** [JSON.parse] *)

Definition is_ws (c : ascii) : bool :=
  Ascii.eqb c " "%char || Ascii.eqb c "009"%char
  || Ascii.eqb c "010"%char || Ascii.eqb c "013"%char.

Fixpoint skip_ws (s : list ascii) : list ascii :=
  match s with
  | c :: r => if is_ws c then skip_ws r else s
  | [] => []
  end.

Fixpoint strip_prefix (p s : list ascii) : option (list ascii) :=
  match p, s with
  | [], _ => Some s
  | a :: p', b :: s' => if Ascii.eqb a b then strip_prefix p' s' else None
  | _ :: _, [] => None
  end.

Definition keyword (w : string) (v : value) (s : list ascii)
  : result (value * list ascii) :=
  match strip_prefix (chars w) s with
  | Some r => Ok (v, r)
  | None => Throw SyntaxError
  end.

Fixpoint span_digits (s : list ascii) : list ascii * list ascii :=
  match s with
  | c :: r =>
      if is_digit c
      then let (ds, r') := span_digits r in (c :: ds, r')
      else ([], s)
  | [] => ([], [])
  end.

Definition digits_value (ds : list ascii) : Z :=
  fold_left (fun acc c => 10 * acc + Z.of_nat (nat_of_ascii c - 48)) ds 0.

(** A number token.  A fraction or an exponent is valid JSON that the
    integer model cannot hold: [Outside]. *)
Definition parse_number (s : list ascii) : result (value * list ascii) :=
  let (negative, s1) :=
    match s with
    | c :: r => if Ascii.eqb c "-"%char then (true, r) else (false, s)
    | [] => (false, s)
    end in
  let (ds, rest) := span_digits s1 in
  match ds with
  | [] => Throw SyntaxError
  | d :: more =>
      if Ascii.eqb d "0"%char && negb (Nat.eqb (length more) 0)
      then Throw SyntaxError
      else
        let n := digits_value ds in
        let v := VNum (if negative then - n else n) in
        match rest with
        | c :: _ =>
            if Ascii.eqb c "."%char || Ascii.eqb c "e"%char
               || Ascii.eqb c "E"%char
            then Outside else Ok (v, rest)
        | [] => Ok (v, rest)
        end
  end.

(** The characters of a string literal after its opening quote, up to
    and including the closing quote.  A [\u] escape above [U+007F] is
    outside the byte strings of the model. *)
Fixpoint parse_chars (s : list ascii) : result (list ascii * list ascii) :=
  match s with
  | [] => Throw SyntaxError
  | c :: r =>
      if Ascii.eqb c dquote then Ok ([], r)
      else if Ascii.eqb c backslash then
        match r with
        | [] => Throw SyntaxError
        | e :: r1 =>
            let continue_with (x : ascii) (r' : list ascii) :=
              match parse_chars r' with
              | Ok (cs, r'') => Ok (x :: cs, r'')
              | Throw ex => Throw ex
              | Outside => Outside
              end in
            if Ascii.eqb e dquote then continue_with dquote r1
            else if Ascii.eqb e backslash then continue_with backslash r1
            else if Ascii.eqb e "/"%char then continue_with "/"%char r1
            else if Ascii.eqb e "b"%char then continue_with "008"%char r1
            else if Ascii.eqb e "t"%char then continue_with "009"%char r1
            else if Ascii.eqb e "n"%char then continue_with "010"%char r1
            else if Ascii.eqb e "f"%char then continue_with "012"%char r1
            else if Ascii.eqb e "r"%char then continue_with "013"%char r1
            else if Ascii.eqb e "u"%char then
              match r1 with
              | h1 :: h2 :: h3 :: h4 :: r2 =>
                  match hex_value h1, hex_value h2, hex_value h3, hex_value h4 with
                  | Some a, Some b, Some c', Some d =>
                      let code := (((a * 16 + b) * 16 + c') * 16 + d)%nat in
                      if (code <? 128)%nat
                      then continue_with (ascii_of_nat code) r2
                      else Outside
                  | _, _, _, _ => Throw SyntaxError
                  end
              | _ => Throw SyntaxError
              end
            else Throw SyntaxError
        end
      else if is_control c then Throw SyntaxError
      else
        match parse_chars r with
        | Ok (cs, r') => Ok (c :: cs, r')
        | Throw ex => Throw ex
        | Outside => Outside
        end
  end.

(** A property name made of digits only may be an array index. *)
Definition is_index_key (k : list ascii) : bool :=
  negb (Nat.eqb (length k) 0) && forallb is_digit k.

(** Recursive descent; [fuel] bounds the depth of the calls.  A value
    inside an array or an object costs two units ([parse_elements] or
    [parse_members], then [parse_value]) and at least one character, so
    [JSON_parse] gives twice the length of the text; running out is
    reported as [Outside]. *)
Fixpoint parse_value (fuel : nat) (s : list ascii) {struct fuel}
  : result (value * list ascii) :=
  match fuel with
  | O => Outside
  | S fuel' =>
      match skip_ws s with
      | [] => Throw SyntaxError
      | c :: r =>
          if Ascii.eqb c "n"%char then keyword "ull" VNull r
          else if Ascii.eqb c "t"%char then keyword "rue" (VBool true) r
          else if Ascii.eqb c "f"%char then keyword "alse" (VBool false) r
          else if Ascii.eqb c dquote then
            do (cs, r') <- parse_chars r ; Ok (VStr (text cs), r')
          else if Ascii.eqb c "["%char then
            match skip_ws r with
            | c' :: r' =>
                if Ascii.eqb c' "]"%char then Ok (VArr [], r')
                else parse_elements fuel' r []
            | [] => Throw SyntaxError
            end
          else if Ascii.eqb c "{"%char then
            match skip_ws r with
            | c' :: r' =>
                if Ascii.eqb c' "}"%char then Ok (VObj [], r')
                else parse_members fuel' r []
            | [] => Throw SyntaxError
            end
          else if Ascii.eqb c "-"%char || is_digit c then parse_number (c :: r)
          else Throw SyntaxError
      end
  end
with parse_elements (fuel : nat) (s : list ascii) (acc : list value)
  {struct fuel} : result (value * list ascii) :=
  match fuel with
  | O => Outside
  | S fuel' =>
      do (v, r) <- parse_value fuel' s ;
      match skip_ws r with
      | c :: r' =>
          if Ascii.eqb c ","%char then parse_elements fuel' r' (acc ++ [v])
          else if Ascii.eqb c "]"%char then Ok (VArr (acc ++ [v]), r')
          else Throw SyntaxError
      | [] => Throw SyntaxError
      end
  end
with parse_members (fuel : nat) (s : list ascii) (acc : obj)
  {struct fuel} : result (value * list ascii) :=
  match fuel with
  | O => Outside
  | S fuel' =>
      match skip_ws s with
      | q :: r0 =>
          if Ascii.eqb q dquote then
            do (k, r1) <- parse_chars r0 ;
            if is_index_key k then Outside
            else
              match skip_ws r1 with
              | colon :: r2 =>
                  if Ascii.eqb colon ":"%char then
                    do (v, r3) <- parse_value fuel' r2 ;
                    match skip_ws r3 with
                    | c :: r4 =>
                        if Ascii.eqb c ","%char
                        then parse_members fuel' r4 (put acc (text k) v)
                        else if Ascii.eqb c "}"%char
                        then Ok (VObj (put acc (text k) v), r4)
                        else Throw SyntaxError
                    | [] => Throw SyntaxError
                    end
                  else Throw SyntaxError
              | [] => Throw SyntaxError
              end
          else Throw SyntaxError
      | [] => Throw SyntaxError
      end
  end.

(** [JSON.parse(s)]: one value, then only white space. *)
Definition JSON_parse (s : string) : result value :=
  do (v, r) <- parse_value (S (2 * String.length s)) (chars s) ;
  match skip_ws r with
  | [] => Ok v
  | _ :: _ => Throw SyntaxError
  end.


(** *** The values JSON holds

    [is_json v]: no [undefined] anywhere, and in every object distinct
    property names none of which is made of digits.  These are the values
    [JSON.parse] returns, and the ones that survive [JSON.stringify]
    followed by [JSON.parse] unchanged. *)

Fixpoint distinct (l : list string) : bool :=
  match l with
  | [] => true
  | x :: r => negb (existsb (String.eqb x) r) && distinct r
  end.

Fixpoint is_json (v : value) : bool :=
  match v with
  | VUndefined => false
  | VArr l => forallb is_json l
  | VObj m =>
      distinct (map fst m)
      && forallb (fun kv : string * value =>
                    negb (is_index_key (chars (fst kv))) && is_json (snd kv)) m
  | _ => true
  end.

(** One round of [digits_value]. *)
Definition digit_step (acc : Z) (c : ascii) : Z :=
  10 * acc + Z.of_nat (nat_of_ascii c - 48).

(** What may follow a number token for it to end there as an integer. *)
Definition number_end (rest : list ascii) : bool :=
  match rest with
  | [] => true
  | c :: _ =>
      negb (is_digit c) && negb (Ascii.eqb c "."%char)
      && negb (Ascii.eqb c "e"%char) && negb (Ascii.eqb c "E"%char)
  end.

(** A character a value can start with where an element is expected. *)
Definition value_start (c : ascii) : bool :=
  negb (is_ws c) && negb (Ascii.eqb c "]"%char).

(** The text of one member of an object. *)
Definition ser_member (kv : string * value) : list ascii :=
  ser_string (fst kv) ++ ":"%char :: ser (snd kv).

(** [v] is read back from its text, whatever follows it. *)
Definition parses_back (v : value) : Prop :=
  forall (fuel : nat) (rest : list ascii),
    is_json v = true -> (length (ser v) <= fuel)%nat ->
    number_end rest = true ->
    parse_value fuel (ser v ++ rest) = Ok (v, rest).

(* ================================================================== *)
(** ** The libraries the sources call *)

(** CryptoJS, as far as [aes-gcm.ts] uses it, over a world [W] that holds
    the state of the random generator.
    - [PBKDF2 passphrase salt keySize iterations];
    - [AES_encrypt data key iv]: [CryptoJS.AES.encrypt] with the
      initialisation vector [Hex.parse(iv)], mode and padding as the
      source gives them, its [ciphertext] printed in Base64;
    - [AES_decrypt ciphertext key iv]: [CryptoJS.AES.decrypt] with the same
      configuration, printed with [toString(Utf8)], which can throw;
    - [random_hex n]: [WordArray.random(n).toString()].
    Key derivation and encryption are taken to return on strings. *)
Record CryptoJS (W : Type) : Type := {
  Key : Type;
  PBKDF2 : string -> string -> Z -> Z -> Key;
  AES_encrypt : string -> Key -> string -> string;
  AES_decrypt : string -> Key -> string -> result string;
  random_hex : Z -> W -> string * W
}.
Arguments Key {W} _.
Arguments PBKDF2 {W} _ _ _ _ _.
Arguments AES_encrypt {W} _ _ _ _.
Arguments AES_decrypt {W} _ _ _ _.
Arguments random_hex {W} _ _ _.

(** Decrypting what was encrypted under the same key and vector gives the
    data back: the one property of the cipher the round trip rests on. *)
Definition cipher_inverts {W : Type} (lib : CryptoJS W) : Prop :=
  forall (data : string) (key : Key lib) (iv : string),
    AES_decrypt lib (AES_encrypt lib data key iv) key iv = Ok data.

(** LZString, as far as [lz-string.ts] uses it; [None] is [null]. *)
Record LZString : Type := {
  compressToUTF16 : string -> string;
  decompressFromUTF16 : string -> option string
}.

(* ================================================================== *)
(** ** [src/encryption/aes-gcm.ts] *)

Inductive Algorithm : Type := AES_GCM | XSalsa20.

Definition algorithm_name (a : Algorithm) : string :=
  match a with
  | AES_GCM => "AES-GCM"
  | XSalsa20 => "XSalsa20"
  end.

(** [EncryptionOptions]; [None] is an absent property. *)
Record EncryptionOptions : Type := {
  algorithm : option Algorithm;
  secret : string;
  iterations : option Z;
  keyLength : option Z;
  salt : option string;
  iv : option string
}.

(** The argument [{}] that [encrypt] defaults to (its [secret] is
    overwritten by the parameter in any case). *)
Definition no_options : EncryptionOptions :=
  {| algorithm := None; secret := ""; iterations := None;
     keyLength := None; salt := None; iv := None |}.

Definition DEFAULT_iterations : Z := 10000.
Definition DEFAULT_keyLength : Z := 256.

(** [a || b] on numbers. *)
Definition or_number (a b : Z) : Z :=
  if a =? 0 then b else a.

Section AesGcm.
Context {W : Type} (lib : CryptoJS W).

(** [keySize: keyLength / 32] is a number of 32-bit words; a key length
    that is no multiple of 32 gives a fraction. *)
Definition deriveKey (passphrase salt' : string) (iterations' keyLength' : Z)
  : result (Key lib) :=
  if keyLength' mod 32 =? 0
  then Ok (PBKDF2 lib passphrase salt' (keyLength' / 32) iterations')
  else Outside.

Definition generateSalt (w : W) : string * W := random_hex lib 16 w.
Definition generateIV (w : W) : string * W := random_hex lib 16 w.

(** [encrypt(data, secret, options)].  The salt and the vector are drawn
    only when the configuration has none, the salt first. *)
Definition encrypt (data secret' : string) (options : EncryptionOptions) (w : W)
  : result (string * W) :=
  if String.eqb secret' "" then Throw (JsError "Encryption secret is required")
  else
    let config_algorithm := default AES_GCM (algorithm options) in
    let config_salt := default "" (salt options) in
    let config_iv := default "" (iv options) in
    let config_iterations := default DEFAULT_iterations (iterations options) in
    let config_keyLength := default DEFAULT_keyLength (keyLength options) in
    let (salt', w1) :=
      if String.eqb config_salt "" then generateSalt w else (config_salt, w) in
    let (iv', w2) :=
      if String.eqb config_iv "" then generateIV w1 else (config_iv, w1) in
    do key <- deriveKey secret' salt' (or_number config_iterations 10000)
                        (or_number config_keyLength 256) ;
    let ciphertext := AES_encrypt lib data key iv' in
    Ok (JSON_stringify
          (VObj [("salt", VStr salt'); ("iv", VStr iv');
                 ("ciphertext", VStr ciphertext);
                 ("algorithm", VStr (algorithm_name config_algorithm))]),
        w2).

Definition is_AES_GCM (v : value) : bool :=
  match v with
  | VStr a => String.eqb a "AES-GCM"
  | _ => false
  end.

(** The body of [decrypt]'s [try].  The library is typed for strings: an
    envelope whose [salt], [iv] or [ciphertext] is something else is
    outside the model. *)
Definition decrypt_body (encryptedData secret' : string) : result string :=
  do parsed <- JSON_parse encryptedData ;
  do salt' <- getProp parsed "salt" ;
  do iv' <- getProp parsed "iv" ;
  do ciphertext <- getProp parsed "ciphertext" ;
  do algorithm' <- getProp parsed "algorithm" ;
  if negb (is_AES_GCM algorithm')
  then Throw (JsError "Unsupported encryption algorithm")
  else
    match salt', iv', ciphertext with
    | VStr s, VStr i, VStr c =>
        do key <- deriveKey secret' s DEFAULT_iterations DEFAULT_keyLength ;
        do result <- AES_decrypt lib c key i ;
        if String.eqb result ""
        then Throw (JsError "Failed to decrypt data. Check your secret key.")
        else Ok result
    | _, _, _ => Outside
    end.

(** [decrypt(encryptedData, secret)]. *)
Definition decrypt (encryptedData secret' : string) : result string :=
  if String.eqb secret' "" then Throw (JsError "Encryption secret is required")
  else
    try_catch (decrypt_body encryptedData secret')
              (Throw (JsError "Failed to decrypt data. Check your secret key.")).

End AesGcm.

(* ================================================================== *)
(** ** [src/compression/lz-string.ts] *)

Record CompressionOptions : Type := {
  minSize : option Z
}.

Section LzString.
Context (lz : LZString).

Definition compress (data : string) : string := compressToUTF16 lz data.

Definition decompress (compressedData : string) : result string :=
  match decompressFromUTF16 lz compressedData with
  | None => Throw (JsError "Failed to decompress data")
  | Some decompressed => Ok decompressed
  end.

End LzString.

(** [shouldCompress(data, minSize = 1024)]; the length counts the
    characters of the byte string. *)
Definition shouldCompress (data : string) (minSize' : option Z) : bool :=
  default 1024 minSize' <=? Z.of_nat (String.length data).

(* ================================================================== *)
(** ** [src/middleware/persist-plus.ts] *)

(** What [getItem] of a [StateStorage] returns: [null] (or [undefined]),
    a string, or a promise. *)
Inductive item : Type :=
| INull
| IString (s : string)
| IPromise.

(** zustand's [StateStorage] over a world [W] that its operations read
    and change.  An operation that throws leaves no world behind. *)
Record StateStorage (W : Type) : Type := {
  getItem : string -> W -> result item;
  setItem : string -> string -> W -> result W;
  removeItem : string -> W -> result W
}.
Arguments getItem {W} _ _ _.
Arguments setItem {W} _ _ _ _.
Arguments removeItem {W} _ _ _.

(** The global [localStorage] inside the world: [None] when [typeof
    localStorage === 'undefined']. *)
Record Host (W : Type) : Type := {
  localStorage : W -> option (gmap string string);
  set_localStorage : gmap string string -> W -> W
}.
Arguments localStorage {W} _ _.
Arguments set_localStorage {W} _ _ _.

Definition migration : Type := value -> result value.

Record MigrationOptions : Type := {
  version : Z;
  migrations : gmap Z migration
}.

(** [for (let v = from; ...; v++) if (migrations[v]) state =
    migrations[v](state)], for [count] rounds. *)
Fixpoint migrate_loop (ms : gmap Z migration) (v : Z) (count : nat)
  (state : value) : result value :=
  match count with
  | O => Ok state
  | S count' =>
      do state' <- match ms !! v with
                   | Some f => f state
                   | None => Ok state
                   end ;
      migrate_loop ms (v + 1) count' state'
  end.

(** [parsed._version || 0], as the number the comparison and the loop
    need.  A truthy [_version] that is no number would be coerced by [<]
    and [+]: outside the model. *)
Definition storedVersionOf (parsed : value) : result Z :=
  do pv <- getProp parsed "_version" ;
  if truthy pv
  then match pv with
       | VNum n => Ok n
       | _ => Outside
       end
  else Ok 0.

(** The body of the [try] in the migrating [getItem]. *)
Definition migrate_on_read (options : MigrationOptions) (stored : string)
  : result string :=
  do parsed <- JSON_parse stored ;
  do storedVersion <- storedVersionOf parsed ;
  if storedVersion <? version options then
    do migratedState <-
      migrate_loop (migrations options) (storedVersion + 1)
                   (Z.to_nat (version options - storedVersion)) parsed ;
    do stamped <- setProp migratedState "_version" (VNum (version options)) ;
    Ok (JSON_stringify stamped)
  else Ok stored.

(** The version a stored blob carries, as the migrating layer reads it. *)
Definition blobVersion (blob : string) : result Z :=
  do parsed <- JSON_parse blob ;
  storedVersionOf parsed.

(** The migration engine in the words of its description: the versions
    above [v] up to [target], in increasing order; the migrations
    registered for them, a version without one being left out; their
    application one after the other. *)
Definition versions_after (v : Z) (count : nat) : list Z :=
  map (fun i : nat => v + 1 + Z.of_nat i) (seq 0 count).

Definition registered (ms : gmap Z migration) (n : Z) : option (Z * migration) :=
  f ← ms !! n; Some (n, f).

Definition pending (ms : gmap Z migration) (v target : Z)
  : list (Z * migration) :=
  omap (registered ms) (versions_after v (Z.to_nat (target - v))).

Fixpoint apply_all (fs : list migration) (state' : value) : result value :=
  match fs with
  | [] => Ok state'
  | f :: rest => do next <- f state' ; apply_all rest next
  end.

(** A migration that turns an object into an object. *)
Definition keeps_objects (f : migration) : Prop :=
  forall o : obj, exists o' : obj, f (VObj o) = Ok (VObj o').

Section PersistPlus.
Context {W : Type} (lib : CryptoJS W) (lz : LZString) (host : Host W).

Definition createEncryptedStorage (storage : StateStorage W) (secret' : string)
  (encryptionOptions : option (bool + EncryptionOptions)) : StateStorage W :=
  let options :=
    match encryptionOptions with
    | Some (inr o) => o
    | Some (inl _) | None =>
        {| algorithm := Some AES_GCM; secret := ""; iterations := None;
           keyLength := None; salt := None; iv := None |}
    end in
  {| getItem := fun name w =>
       do stored <- getItem storage name w ;
       match stored with
       | INull => Ok INull
       | IPromise => Ok INull
       | IString s =>
           try_catch (do decrypted <- decrypt lib s secret' ;
                      Ok (IString decrypted))
                     (Ok (IString s))
       end;
     setItem := fun name value w =>
       do (encrypted, w') <- encrypt lib value secret' options w ;
       setItem storage name encrypted w';
     removeItem := fun name w => removeItem storage name w |}.

Definition createCompressedStorage (storage : StateStorage W)
  (compressionOptions : option (bool + CompressionOptions)) : StateStorage W :=
  let options :=
    match compressionOptions with
    | Some (inr o) => Some o
    | Some (inl _) | None => None
    end in
  {| getItem := fun name w =>
       do stored <- getItem storage name w ;
       match stored with
       | INull => Ok INull
       | IPromise => Ok INull
       | IString s =>
           try_catch (do decompressed <- decompress lz s ;
                      Ok (IString decompressed))
                     (Ok (IString s))
       end;
     setItem := fun name value w =>
       if shouldCompress value (o ← options; minSize o)
       then setItem storage name (compress lz value) w
       else setItem storage name value w;
     removeItem := fun name w => removeItem storage name w |}.

Definition createMigratingStorage (storage : StateStorage W)
  (migrationOptions : MigrationOptions) : StateStorage W :=
  {| getItem := fun name w =>
       do stored <- getItem storage name w ;
       match stored with
       | INull => Ok INull
       | IPromise => Ok INull
       | IString s =>
           try_catch (do migrated <- migrate_on_read migrationOptions s ;
                      Ok (IString migrated))
                     (Ok (IString s))
       end;
     setItem := fun name value w =>
       try_catch
         (do parsed <- JSON_parse value ;
          do stamped <- setProp parsed "_version"
                                (VNum (version migrationOptions)) ;
          setItem storage name (JSON_stringify stamped) w)
         (setItem storage name value w);
     removeItem := fun name w => removeItem storage name w |}.

(** The adapter [createPersistPlus] builds around the global
    [localStorage] when [storage] is a string. *)
Definition localStorageAdapter : StateStorage W :=
  {| getItem := fun name w =>
       match localStorage host w with
       | None => Ok INull
       | Some ls =>
           Ok (match ls !! name with
               | Some s => IString s
               | None => INull
               end)
       end;
     setItem := fun name value w =>
       match localStorage host w with
       | None => Ok w
       | Some ls => Ok (set_localStorage host (<[name := value]> ls) w)
       end;
     removeItem := fun name w =>
       match localStorage host w with
       | None => Ok w
       | Some ls => Ok (set_localStorage host (delete name ls) w)
       end |}.

(** [PersistPlusOptions], the fields [createPersistPlus] reads.  [storage]
    is a name ([inl]) or an adapter ([inr]); absent, it is
    ['localStorage']. *)
Record PersistPlusOptions : Type := {
  name : string;
  storage : option (string + StateStorage W);
  encrypt_option : option (bool + EncryptionOptions);
  compress_option : option (bool + CompressionOptions);
  migrate_option : option MigrationOptions
}.

Definition createPersistPlus (options : PersistPlusOptions) : StateStorage W :=
  let enhancedStorage0 :=
    match storage options with
    | Some (inr adapter) => adapter
    | Some (inl _) | None => localStorageAdapter
    end in
  let enhancedStorage1 :=
    match migrate_option options with
    | Some migrationOptions =>
        createMigratingStorage enhancedStorage0 migrationOptions
    | None => enhancedStorage0
    end in
  let enhancedStorage2 :=
    match compress_option options with
    | Some (inl false) | None => enhancedStorage1
    | Some compressOptions =>
        createCompressedStorage enhancedStorage1 (Some compressOptions)
    end in
  match encrypt_option options with
  | Some (inl false) | None => enhancedStorage2
  | Some (inl true) =>
      createEncryptedStorage enhancedStorage2 "" (Some (inl true))
  | Some (inr encryptOptions) =>
      createEncryptedStorage enhancedStorage2 (secret encryptOptions)
                             (Some (inr encryptOptions))
  end.

End PersistPlus.

Arguments PersistPlusOptions : clear implicits.

(* ================================================================== *)
(** ** Conflict resolution *)

Inductive SyncStrategy : Type :=
| LastWriteWins
| ServerWins
| ClientWins
| Merge
| Custom.

(** The first-order fields of [SyncConflictOptions]; [None] is an absent
    property. *)
Record MergeOptions : Type := {
  strategy : SyncStrategy;
  ignoreKeys : option (list string);
  forceLWWKeys : option (list string);
  timestampKey : option string
}.

Section Timestamps.
(** The host's [Date.parse] on a non-empty string; [None] is [NaN]. *)
Context (Date_parse : string -> option Z).

(** [new Date(t).getTime()] behind the guard [t ? ... : 0]; [None] is
    [NaN].  A time value is an integer of magnitude at most 8.64e15.  A
    timestamp that is an array or an object goes through its conversion
    to a string first: outside the model. *)
Definition timeOf (timestamp' : value) : result (option Z) :=
  if truthy timestamp' then
    match timestamp' with
    | VNum n => Ok (if Z.abs n <=? 8640000000000000 then Some n else None)
    | VBool _ => Ok (Some 1)
    | VStr s => Ok (Date_parse s)
    | _ => Outside
    end
  else Ok (Some 0).

(** [a > b] on two time values: false as soon as one is [NaN]. *)
Definition time_gt (a b : option Z) : bool :=
  match a, b with
  | Some x, Some y => y <? x
  | _, _ => false
  end.

Definition lastWriteWins (localState remoteState : obj)
  (timestampKey' : option string) : result obj :=
  let key := default "_updatedAt" timestampKey' in
  let localTimestamp := get localState key in
  let remoteTimestamp := get remoteState key in
  do localTime <- timeOf localTimestamp ;
  do remoteTime <- timeOf remoteTimestamp ;
  Ok (if time_gt remoteTime localTime then remoteState else localState).

(** The timestamp of a state under [key]: no such field, read as 0; a
    number that is a time value; or a string that the host reads as a
    date. *)
Inductive timestamp_is (o : obj) (key : string) : Z -> Prop :=
| timestamp_missing :
    get o key = VUndefined -> timestamp_is o key 0
| timestamp_number (n : Z) :
    get o key = VNum n -> Z.abs n <= 8640000000000000 ->
    timestamp_is o key n
| timestamp_string (s : string) (t : Z) :
    get o key = VStr s -> s <> ""%string -> Date_parse s = Some t ->
    timestamp_is o key t.

End Timestamps.

Definition serverWins (_localState remoteState : obj) : obj := remoteState.

Definition clientWins (localState _remoteState : obj) : obj := localState.

(** [list.includes(key)]. *)
Definition includes (l : list string) (key : string) : bool :=
  existsb (String.eqb key) l.

(** The elements of [new Set(l)] in iteration order: first occurrences. *)
Fixpoint uniq (seen l : list string) : list string :=
  match l with
  | [] => []
  | x :: r => if includes seen x then uniq seen r else x :: uniq (x :: seen) r
  end.

(** The names [Object.prototype] defines.  Under such a name an object
    without a property of its own gives the inherited member on a read,
    and an assignment to [__proto__] sets the prototype instead of a
    property. *)
Definition Object_prototype_names : list string :=
  ["constructor"; "__defineGetter__"; "__defineSetter__"; "hasOwnProperty";
   "__lookupGetter__"; "__lookupSetter__"; "isPrototypeOf";
   "propertyIsEnumerable"; "toString"; "valueOf"; "__proto__";
   "toLocaleString"]%string.

(** A property name under which [o[k]] and [o[k] = v] read and write a
    property of the object itself, and which is enumerated where it was
    added: no name of [Object.prototype] and no array index. *)
Definition plain_key (k : string) : bool :=
  negb (is_index_key (chars k)) && negb (includes Object_prototype_names k).

(** A state whose objects, at every depth a merge reaches, have plain
    keys only. *)
Fixpoint plain (v : value) : bool :=
  match v with
  | VObj m =>
      forallb (fun kv : string * value => plain_key (fst kv) && plain (snd kv)) m
  | _ => true
  end.

(** One round of the loop of [mergeStates] over [allKeys]; [recurse] is
    the nested call [mergeStates(localVal, remoteVal)].  The test for
    the nested call, [x !== null && typeof x === 'object' &&
    !Array.isArray(x)] on both values, holds of the values [VObj _].
    The reads [localState[key]] and [remoteState[key]] are [get], the
    assignment [result[key] = ...] is [put]: that is what the code does
    on states that are [plain], the ones the properties of the merge are
    stated for.  (Under a name of [Object.prototype] the code reads the
    inherited member of a state that has no such property; a new array
    index is enumerated before the other keys.) *)
Definition merge_key (recurse : obj -> obj -> result obj)
  (localState remoteState : obj) (ignoreKeys' forceLWWKeys' : list string)
  (result' : obj) (key : string) : result obj :=
  if includes ignoreKeys' key then Ok result'
  else if includes forceLWWKeys' key
  then Ok (put result' key (get remoteState key))
  else
    let localVal := get localState key in
    let remoteVal := get remoteState key in
    match localVal, remoteVal with
    | VObj l, VObj r =>
        do merged <- recurse l r ;
        Ok (put result' key (VObj merged))
    | _, _ =>
        if negb (isUndefined remoteVal)
        then Ok (put result' key remoteVal)
        else Ok result'
    end.

(** [const { ignoreKeys = [], forceLWWKeys = [] } = options || {}]: one
    of the two lists. *)
Definition option_keys (options : option MergeOptions)
  (field : MergeOptions -> option (list string)) : list string :=
  default [] (o ← options; field o).

Fixpoint for_each {A : Type} (step : A -> string -> result A)
  (l : list string) (a : A) : result A :=
  match l with
  | [] => Ok a
  | key :: rest => do a' <- step a key ; for_each step rest a'
  end.

(** [mergeStates] with a bound on the depth of its recursion; running
    out of [fuel] is reported as [Outside]. *)
Fixpoint mergeStates_rec (fuel : nat) (localState remoteState : obj)
  (options : option MergeOptions) : result obj :=
  match fuel with
  | O => Outside
  | S fuel' =>
      let ignoreKeys' := option_keys options ignoreKeys in
      let forceLWWKeys' := option_keys options forceLWWKeys in
      let allKeys := uniq [] (keys localState ++ keys remoteState) in
      for_each
        (merge_key (fun l r => mergeStates_rec fuel' l r None)
                   localState remoteState ignoreKeys' forceLWWKeys')
        allKeys localState
  end.

(** The nesting depth of objects in a value. *)
Fixpoint depth (v : value) : nat :=
  match v with
  | VObj m => S (list_max (map (fun kv : string * value => depth (snd kv)) m))
  | _ => O
  end.

(** [mergeStates(localState, remoteState, options)]: the recursion goes
    one level into [localState] each time, so its depth is fuel enough. *)
Definition mergeStates (localState remoteState : obj)
  (options : option MergeOptions) : result obj :=
  mergeStates_rec (depth (VObj localState)) localState remoteState options.

(** What the merge leaves under [key], in the words of its description:
    an ignored key keeps the local value; a forced key takes the remote
    one; two objects are merged, without options; otherwise the remote
    value when there is one, else the local one. *)
Definition merged_value (localState remoteState : obj)
  (ignoreKeys' forceLWWKeys' : list string) (key : string) (v : value) : Prop :=
  if includes ignoreKeys' key then v = get localState key
  else if includes forceLWWKeys' key then v = get remoteState key
  else
    match get localState key, get remoteState key with
    | VObj l, VObj r => exists m, mergeStates l r None = Ok m /\ v = VObj m
    | localVal, remoteVal =>
        v = if isUndefined remoteVal then localVal else remoteVal
    end.

Section ConflictResolver.
Context {W : Type}.
(** [new Date()], read from the world, and the host's [Date.parse]. *)
Context (now : W -> Z) (Date_parse : string -> option Z).

(** A [SyncConflictHandler] or [MergeStrategy]: caller's code, which may
    read and change the world, or throw.  Of the options object it is
    passed, the model hands over the first-order fields. *)
Definition Handler : Type := obj -> obj -> MergeOptions -> W -> result (obj * W).

Record SyncConflictOptions : Type := {
  fields : MergeOptions;
  onConflict : option Handler;
  mergeStrategy : option Handler
}.

(** [SyncResult]; [strategy_used] is its field [strategy]. *)
Record SyncResult : Type := {
  state : obj;
  hadConflict : bool;
  strategy_used : SyncStrategy;
  timestamp : Z
}.

(** The variables [createConflictResolver] closes over; [setStrategy]
    and [setCustomHandler] assign two of them. *)
Record Resolver : Type := {
  options_of : SyncConflictOptions;
  currentStrategy : SyncStrategy;
  customHandler : option Handler;
  mergeFn : Handler
}.

Definition createConflictResolver (options : SyncConflictOptions) : Resolver :=
  {| options_of := options;
     currentStrategy := strategy (fields options);
     customHandler := onConflict options;
     mergeFn := default (fun l r o w =>
                           do m <- mergeStates l r (Some o) ; Ok (m, w))
                        (mergeStrategy options) |}.

Definition setStrategy (r : Resolver) (s : SyncStrategy) : Resolver :=
  {| options_of := options_of r; currentStrategy := s;
     customHandler := customHandler r; mergeFn := mergeFn r |}.

Definition setCustomHandler (r : Resolver) (h : Handler) : Resolver :=
  {| options_of := options_of r; currentStrategy := currentStrategy r;
     customHandler := Some h; mergeFn := mergeFn r |}.

(** The [default:] branch of the [switch] is left out: [currentStrategy]
    is one of the five strategies. *)
Definition resolveWithResult (r : Resolver) (localState remoteState : obj)
  (w : W) : result (SyncResult * W) :=
  let localStr := JSON_stringify (VObj localState) in
  let remoteStr := JSON_stringify (VObj remoteState) in
  if String.eqb localStr remoteStr then
    Ok ({| state := localState; hadConflict := false;
           strategy_used := LastWriteWins; timestamp := now w |}, w)
  else
    let options := fields (options_of r) in
    do (resolved, w') <-
      match currentStrategy r with
      | LastWriteWins =>
          do s <- lastWriteWins Date_parse localState remoteState
                                (timestampKey options) ;
          Ok (s, w)
      | ServerWins => Ok (serverWins localState remoteState, w)
      | ClientWins => Ok (clientWins localState remoteState, w)
      | Merge => mergeFn r localState remoteState options w
      | Custom =>
          match customHandler r with
          | Some handler => handler localState remoteState options w
          | None =>
              do s <- lastWriteWins Date_parse localState remoteState
                                    (timestampKey options) ;
              Ok (s, w)
          end
      end ;
    Ok ({| state := resolved; hadConflict := true;
           strategy_used := currentStrategy r; timestamp := now w' |}, w').

Definition resolve (r : Resolver) (localState remoteState : obj) (w : W)
  : result (obj * W) :=
  do (res, w') <- resolveWithResult r localState remoteState w ;
  Ok (state res, w').

End ConflictResolver.

Arguments Handler : clear implicits.
Arguments SyncConflictOptions : clear implicits.
Arguments Resolver : clear implicits.

(* ================================================================== *)
(** ** Further functions of the same modules *)

(** *** [src/encryption/aes-gcm.ts] *)

(** ['k' in o] for an object [o] and a name [k] that no prototype
    defines. *)
Definition has_key (o : obj) (k : string) : bool := includes (keys o) k.

(** [isEncryptedData(data)].  For an array, [typeof] is ['object'] and
    none of the three names is a property. *)
Definition isEncryptedData (data : string) : result bool :=
  try_catch
    (do parsed <- JSON_parse data ;
     Ok (match parsed with
         | VObj o =>
             has_key o "salt" && has_key o "iv" && has_key o "ciphertext"
         | _ => false
         end))
    (Ok false).

(** The options under which [decrypt] derives the key [encrypt] used:
    [decrypt] reads neither [iterations] nor [keyLength] and accepts the
    algorithm ['AES-GCM'] only. *)
Definition default_key_options (options : EncryptionOptions) : bool :=
  match algorithm options with
  | Some XSalsa20 => false
  | _ => true
  end
  && (or_number (default DEFAULT_iterations (iterations options)) 10000
      =? DEFAULT_iterations)
  && (or_number (default DEFAULT_keyLength (keyLength options)) 256
      =? DEFAULT_keyLength).

(** *** [src/compression/lz-string.ts] *)

(** Decompression undoes compression: the one property of LZString the
    round trips rest on. *)
Definition lz_inverts (lz : LZString) : Prop :=
  forall data : string,
    decompressFromUTF16 lz (compressToUTF16 lz data) = Some data.

(** [data.includes(pattern)]: [pattern] starts [data] or occurs further
    on. *)
Fixpoint str_includes (data pattern : string) : bool :=
  String.prefix pattern data
  || match data with
     | String _ rest => str_includes rest pattern
     | EmptyString => false
     end.

(** ['\x1f\x8b']. *)
Definition gzip_magic : string :=
  String "031"%char (String "139"%char EmptyString).

(** [/[\x00-\x1f]/.test(data)]. *)
Definition has_control (data : string) : bool :=
  existsb is_control (chars data).

(** The test [isCompressed] of [smartDecompress]. *)
Definition isCompressed (data : string) : bool :=
  (str_includes data gzip_magic
   || ((20 <? String.length data)%nat && has_control data))
  || (String.length data <? 100)%nat.

Section LzStringHelpers.
Context (lz : LZString).

(** [compressObject(obj)]; [JSON.stringify(undefined)] is no string, and
    what the library does with it is outside the model. *)
Definition compressObject (obj' : value) : result string :=
  if isUndefined obj' then Outside
  else Ok (compress lz (JSON_stringify obj')).

Definition decompressObject (compressedData : string) : result value :=
  do jsonString <- decompress lz compressedData ;
  JSON_parse jsonString.

(** [smartCompress(data, options)]; [config.minSize] is the option, or
    1024. *)
Definition smartCompress (data : string) (options : CompressionOptions)
  : string :=
  if negb (shouldCompress data (minSize options)) then data
  else
    let compressed := compress lz data in
    if (String.length compressed <? String.length data)%nat
    then compressed
    else data.

Definition smartDecompress (data : string) : result string :=
  if negb (isCompressed data) then Ok data
  else try_catch (decompress lz data) (Ok data).

End LzStringHelpers.

(** *** [src/middleware/persist-plus.ts] *)

(** What the promise of [migrateState] resolves to: [null] (or
    [undefined]), a state, or the stored string. *)
Inductive migrated : Type :=
| MNull
| MState (v : value)
| MStored (s : string).

(** [migrateState(storage, name, toVersion, migrations)].  The promise of
    an asynchronous storage is awaited; what it resolves to is outside
    the model. *)
Definition migrateState {W : Type} (storage : StateStorage W) (name : string)
  (toVersion : Z) (migrations' : gmap Z migration) (w : W) : result migrated :=
  do stored <- getItem storage name w ;
  match stored with
  | INull => Ok MNull
  | IPromise => Outside
  | IString s =>
      try_catch
        (do parsed <- JSON_parse s ;
         do fromVersion <- storedVersionOf parsed ;
         if fromVersion <? toVersion then
           do migrated' <-
             migrate_loop migrations' (fromVersion + 1)
                          (Z.to_nat (toVersion - fromVersion)) parsed ;
           Ok (MState migrated')
         else Ok (MState parsed))
        (Ok (MStored s))
  end.

(** The storage [createPersistPlus] starts from. *)
Definition base_of {W : Type} (host : Host W) (options : PersistPlusOptions W)
  : StateStorage W :=
  match storage options with
  | Some (inr adapter) => adapter
  | _ => localStorageAdapter host
  end.

(** A storage that returns what was last written under a name. *)
Definition keeps_writes {W : Type} (storage : StateStorage W) : Prop :=
  forall (name value' : string) (w : W),
    exists w' : W,
      setItem storage name value' w = Ok w'
      /\ getItem storage name w' = Ok (IString value').

(** *** Conflict resolution *)

(** The remote-only keys the merge adds: those that are not ignored and
    are forced or hold a value. *)
Definition added_key (remoteState : obj) (ig fo : list string) (k : string)
  : bool :=
  negb (includes ig k)
  && (includes fo k || negb (isUndefined (get remoteState k))).

Definition statesEqual (state1 state2 : obj) : bool :=
  String.eqb (JSON_stringify (VObj state1)) (JSON_stringify (VObj state2)).

(** [JSON.stringify(v)] for any value: [undefined] for [undefined],
    which is [None]. *)
Definition stringify_any (v : value) : option string :=
  if isUndefined v then None else Some (JSON_stringify v).

(** [a !== b] on two results of [JSON.stringify]. *)
Definition text_differs (a b : option string) : bool :=
  match a, b with
  | Some x, Some y => negb (String.eqb x y)
  | None, None => false
  | _, _ => true
  end.

(** [getStateDiff(from, to)].  The reads [from[key]] and [to[key]] and
    the assignment [diff[key] = toVal] are those of a property of the
    object itself when the key is plain.  A key that is a name of
    [Object.prototype] (under which a state that lacks the key gives the
    inherited member) or an array index (which [diff] enumerates first)
    is outside the model. *)
Definition getStateDiff (from to : obj) : result obj :=
  let allKeys := uniq [] (keys from ++ keys to) in
  for_each
    (fun diff key =>
       if negb (plain_key key) then Outside
       else
         let fromVal := get from key in
         let toVal := get to key in
         if text_differs (stringify_any fromVal) (stringify_any toVal)
         then Ok (put diff key toVal)
         else Ok diff)
    allKeys [].

(** [createTrackedStorage(storage)]: the two maps it closes over, with
    the times as numbers. *)
Record Tracker : Type := {
  changes : gmap string (value * value);
  lastModifiedMap : gmap string Z
}.

Definition new_tracker : Tracker :=
  {| changes := ∅; lastModifiedMap := ∅ |}.

(** How an operation of the tracked storage ends.  [Settled t w]: it
    returns, with the maps [t], the inner storage being in the world
    [w].  [Rejected e t w]: it throws [e], with the maps [t], after the
    inner storage has been brought to the world [w].  [Broken e]: a
    write or a removal of the inner storage threw [e], and leaves no
    world behind.  [Unmodelled]: outside the model. *)
Inductive tracked (W : Type) : Type :=
| Settled (t : Tracker) (w : W)
| Rejected (e : exn) (t : Tracker) (w : W)
| Broken (e : exn)
| Unmodelled.
Arguments Settled {W} t w.
Arguments Rejected {W} e t w.
Arguments Broken {W} e.
Arguments Unmodelled {W}.

Section TrackedStorage.
Context {W : Type} (now : W -> Z) (storage : StateStorage W).

(** [oldValue ? JSON.parse(oldValue) : null] on what the awaited
    [getItem] gave. *)
Definition parse_old (oldValue : item) : result value :=
  match oldValue with
  | INull => Ok VNull
  | IPromise => Outside
  | IString s => if String.eqb s "" then Ok VNull else JSON_parse s
  end.

(** [await storage.getItem(name)]; what a promise resolves to is outside
    the model. *)
Definition tracked_getItem (name : string) (w : W) : result item :=
  do stored <- getItem storage name w ;
  match stored with
  | IPromise => Outside
  | other => Ok other
  end.

(** [setItem]: the old value is read and the new one written before
    either is parsed; the two maps are assigned last, so a throw leaves
    them as they were. *)
Definition tracked_setItem (name value' : string) (t : Tracker) (w : W)
  : tracked W :=
  match tracked_getItem name w with
  | Throw e => Rejected e t w
  | Outside => Unmodelled
  | Ok oldValue =>
      match setItem storage name value' w with
      | Throw e => Broken e
      | Outside => Unmodelled
      | Ok w' =>
          match (do old <- parse_old oldValue ;
                 do new <- JSON_parse value' ;
                 Ok (old, new)) with
          | Throw e => Rejected e t w'
          | Outside => Unmodelled
          | Ok (old, new) =>
              Settled
                {| changes := <[name := (old, new)]> (changes t);
                   lastModifiedMap := <[name := now w']> (lastModifiedMap t) |}
                w'
          end
      end
  end.

Definition tracked_removeItem (name : string) (t : Tracker) (w : W)
  : tracked W :=
  match tracked_getItem name w with
  | Throw e => Rejected e t w
  | Outside => Unmodelled
  | Ok oldValue =>
      match removeItem storage name w with
      | Throw e => Broken e
      | Outside => Unmodelled
      | Ok w' =>
          match parse_old oldValue with
          | Throw e => Rejected e t w'
          | Outside => Unmodelled
          | Ok old =>
              Settled
                {| changes := <[name := (old, VNull)]> (changes t);
                   lastModifiedMap := lastModifiedMap t |}
                w'
          end
      end
  end.

End TrackedStorage.

Definition getChanges (t : Tracker) : gmap string (value * value) := changes t.

Definition clearChanges (t : Tracker) : Tracker :=
  {| changes := ∅; lastModifiedMap := lastModifiedMap t |}.

(** [lastModifiedMap.get(key) || null]. *)
Definition lastModified (t : Tracker) (key : string) : option Z :=
  lastModifiedMap t !! key.

(* ================================================================== *)
(** ** A small world and two stand-in libraries

    Used to run the definitions on concrete inputs: a world with a
    [localStorage], a list of strings the random generator hands out and
    a clock; a cipher whose ciphertext is the data behind the key and the
    vector (so that it inverts, and a wrong key gives the empty string);
    a compressor that puts one letter in front. *)

Record SmallWorld : Type := {
  sw_localStorage : option (gmap string string);
  sw_random : list string;
  sw_clock : Z
}.

Definition small_host : Host SmallWorld :=
  {| localStorage := sw_localStorage;
     set_localStorage := fun ls w =>
       {| sw_localStorage := Some ls; sw_random := sw_random w;
          sw_clock := sw_clock w |} |}.

Definition tag_cipher : CryptoJS SmallWorld :=
  {| Key := string;
     PBKDF2 := fun passphrase salt' _ _ => text (chars passphrase ++ chars salt');
     AES_encrypt := fun data key iv' =>
       text (chars key ++ chars iv' ++ chars data);
     AES_decrypt := fun ciphertext key iv' =>
       match strip_prefix (chars key ++ chars iv') (chars ciphertext) with
       | Some data => Ok (text data)
       | None => Ok ""%string
       end;
     random_hex := fun _ w =>
       (hd "00"%string (sw_random w),
        {| sw_localStorage := sw_localStorage w; sw_random := tl (sw_random w);
           sw_clock := sw_clock w |}) |}.

Definition tag_lz : LZString :=
  {| compressToUTF16 := fun s => String "z"%char s;
     decompressFromUTF16 := fun s =>
       match s with
       | String c r => if Ascii.eqb c "z"%char then Some r else None
       | EmptyString => None
       end |}.

Definition small_world (ls : list (string * string)) : SmallWorld :=
  {| sw_localStorage := Some (list_to_map ls);
     sw_random := ["a1b2"; "c3d4"; "e5f6"; "0718"]%string;
     sw_clock := 1700000000000 |}.

(** Migrations that accept object states and throw a [TypeError] on
    anything else.  On an object [s], [add_field k x] returns
    [{...s, [k]: x}]; the two of the migration scenario: version 1 adds
    [createdAt], version 2 renames [count] to [total], returning
    [{total: s.count, ...rest}] for the other properties [rest] of [s]. *)
Definition add_field (k : string) (x : value) : migration := fun state' =>
  match state' with
  | VObj o => Ok (VObj (put o k x))
  | _ => Throw TypeError
  end.

Definition add_createdAt : migration :=
  add_field "createdAt" (VNum 1700000000000).

Definition rename_count_to_total : migration := fun state' =>
  match state' with
  | VObj o =>
      let rest := filter (fun kv : string * value =>
                            negb (String.eqb (fst kv) "count")) o in
      Ok (VObj (fold_left (fun acc kv => put acc (fst kv) (snd kv)) rest
                          [("total"%string, get o "count")]))
  | _ => Throw TypeError
  end.

Definition scenario_migrations : MigrationOptions :=
  {| version := 2;
     migrations := {[ 1 := add_createdAt; 2 := rename_count_to_total ]} |}.

(** Migrations for the versions 1 and 3, none for version 2. *)
Definition gap_migrations : MigrationOptions :=
  {| version := 3;
     migrations := {[ 1 := add_createdAt;
                      3 := add_field "migrated" (VBool true) ]} |}.

(** A host on which no string is a date. *)
Definition no_dates : string -> option Z := fun _ => None.

(** A handler that throws, to see whether the resolver calls it. *)
Definition throwing_handler : Handler SmallWorld :=
  fun _ _ _ _ => Throw (JsError "handler called").

(** A storage adapter over the same world that keeps its items in a map
    of its own making: an absent map is an empty one. *)
Definition memory_storage : StateStorage SmallWorld :=
  {| getItem := fun name w =>
       Ok (match default ∅ (sw_localStorage w) !! name with
           | Some s => IString s
           | None => INull
           end);
     setItem := fun name value' w =>
       Ok {| sw_localStorage :=
               Some (<[name := value']> (default ∅ (sw_localStorage w)));
             sw_random := sw_random w; sw_clock := sw_clock w |};
     removeItem := fun name w =>
       Ok {| sw_localStorage :=
               Some (delete name (default ∅ (sw_localStorage w)));
             sw_random := sw_random w; sw_clock := sw_clock w |} |}.

(** A compressor with one word in its dictionary: it writes [short]
    behind the mark [w] for [word], and every other text behind the
    mark [_]. *)
Definition word_lz (word short : string) : LZString :=
  {| compressToUTF16 := fun s =>
       if String.eqb s word then String "w"%char short
       else String "_"%char s;
     decompressFromUTF16 := fun s =>
       match s with
       | String c r =>
           if Ascii.eqb c "w"%char then Some word
           else if Ascii.eqb c "_"%char then Some r
           else None
       | EmptyString => None
       end |}.

(** [n] times the character [c]. *)
Fixpoint replicate_char (n : nat) (c : ascii) : string :=
  match n with
  | O => EmptyString
  | S n' => String c (replicate_char n' c)
  end.

(** A compressor like [tag_lz] whose decompressor returns a text of its
    own, never [null], on what the compressor has not written. *)
Definition garbling_lz : LZString :=
  {| compressToUTF16 := fun s => String "z"%char s;
     decompressFromUTF16 := fun s =>
       match s with
       | String c r =>
           if Ascii.eqb c "z"%char then Some r else Some "@@@"%string
       | EmptyString => Some ""%string
       end |}.

(* ================================================================== *)
(** ** Facts about JSON text *)

Lemma chars_text (l : list ascii) : chars (text l) = l.
Proof. apply list_ascii_of_string_of_list_ascii. Qed.

Lemma text_chars (s : string) : text (chars s) = s.
Proof. apply string_of_list_ascii_of_string. Qed.

Lemma length_chars (s : string) : length (chars s) = String.length s.
Proof. induction s as [|c s IH]; simpl; [reflexivity | now rewrite IH]. Qed.

(** *** String literals *)

Lemma parse_chars_ser_char (c : ascii) (s : list ascii) :
  parse_chars (ser_char c ++ s) =
  match parse_chars s with
  | Ok (cs, r) => Ok (c :: cs, r)
  | Throw e => Throw e
  | Outside => Outside
  end.
Proof.
  destruct c as [[] [] [] [] [] [] [] []]; reflexivity.
Qed.

Lemma parse_chars_literal (l rest : list ascii) :
  parse_chars (flat_map ser_char l ++ dquote :: rest) = Ok (l, rest).
Proof.
  induction l as [|c l IH]; simpl.
  - reflexivity.
  - rewrite <- app_assoc, parse_chars_ser_char, IH. reflexivity.
Qed.

Lemma ser_string_app (s : string) (rest : list ascii) :
  ser_string s ++ rest = dquote :: flat_map ser_char (chars s) ++ dquote :: rest.
Proof. unfold ser_string. simpl. now rewrite <- app_assoc. Qed.

(** *** Numbers *)


Lemma digits_of_uint_acc (d : Decimal.uint) (p : positive) :
  fold_left digit_step (chars (NilEmpty.string_of_uint d)) (Z.pos p)
  = Z.pos (Pos.of_uint_acc d p).
Proof.
  revert p. induction d; intro p; simpl; try reflexivity;
    match goal with
    | |- fold_left _ _ ?a = _ =>
        let k := fresh in
        evar (k : positive);
        replace a with (Z.pos k); subst k; [apply IHd |]
    end; unfold digit_step; simpl; lia.
Qed.

Lemma digits_of_uint (d : Decimal.uint) :
  fold_left digit_step (chars (NilEmpty.string_of_uint d)) 0
  = Z.of_N (Pos.of_uint d).
Proof.
  induction d; simpl; try reflexivity; try apply IHd;
    match goal with
    | |- fold_left _ _ ?a = _ =>
        let k := fresh in
        evar (k : positive);
        replace a with (Z.pos k); subst k; [apply digits_of_uint_acc |]
    end; unfold digit_step; simpl; reflexivity.
Qed.

Lemma digits_all_digit (d : Decimal.uint) :
  forallb is_digit (chars (NilEmpty.string_of_uint d)) = true.
Proof. induction d; simpl; auto. Qed.

Lemma unorm_D0 (x y : Decimal.uint) :
  Decimal.unorm x = Decimal.D0 y -> y = Decimal.Nil.
Proof.
  induction x; simpl; intro H; try discriminate; auto.
  now inversion H.
Qed.

Lemma to_uint_normal (n : N) : Decimal.unorm (N.to_uint n) = N.to_uint n.
Proof.
  rewrite <- (DecimalN.Unsigned.to_of (N.to_uint n)).
  now rewrite DecimalN.Unsigned.of_to.
Qed.

Lemma to_uint_nonnil (n : N) : N.to_uint n <> Decimal.Nil.
Proof.
  destruct n; simpl; [discriminate | apply Unsigned.to_uint_nonnil].
Qed.

(** The digits [ser_nat] prints: at least one, all decimal, no leading
    zero before another digit, and their value is the number. *)
Lemma ser_nat_spec (n : N) :
  exists d more,
    ser_nat n = d :: more
    /\ forallb is_digit (d :: more) = true
    /\ (Ascii.eqb d "0"%char && negb (Nat.eqb (length more) 0) = false)
    /\ digits_value (d :: more) = Z.of_N n.
Proof.
  unfold ser_nat, digits_value.
  pose proof (to_uint_normal n) as Hn.
  pose proof (to_uint_nonnil n) as Hnil.
  pose proof (DecimalN.Unsigned.of_to n) as Hof.
  pose proof (digits_of_uint (N.to_uint n)) as Hval.
  pose proof (digits_all_digit (N.to_uint n)) as Hall.
  unfold N.of_uint in Hof. rewrite Hof in Hval. clear Hof.
  destruct (N.to_uint n) as [|u|u|u|u|u|u|u|u|u|u] eqn:E;
    try congruence; simpl in *;
    eexists _, _; (split; [reflexivity|]); (split; [exact Hall|]);
    (split; [|exact Hval]); try reflexivity.
  apply unorm_D0 in Hn. subst u. reflexivity.
Qed.


Lemma span_digits_app (ds rest : list ascii) :
  forallb is_digit ds = true -> number_end rest = true ->
  span_digits (ds ++ rest) = (ds, rest).
Proof.
  intros Hds Hrest. induction ds as [|c ds IH]; simpl in *.
  - destruct rest as [|c r]; [reflexivity|]. simpl in *.
    destruct (is_digit c); [discriminate | reflexivity].
  - apply andb_true_iff in Hds as [Hc Hds]. rewrite Hc, (IH Hds). reflexivity.
Qed.

Lemma parse_number_digits (negative : bool) (n : N) (rest : list ascii) :
  number_end rest = true ->
  parse_number ((if negative then ["-"%char] else []) ++ ser_nat n ++ rest)
  = Ok (VNum (if negative then - Z.of_N n else Z.of_N n), rest).
Proof.
  intro Hrest.
  destruct (ser_nat_spec n) as (d & more & E & Hall & Hlead & Hval).
  rewrite E. unfold parse_number.
  assert (Hd : is_digit d = true) by (simpl in Hall; now apply andb_true_iff in Hall).
  assert (Hminus : Ascii.eqb d "-"%char = false).
  { destruct (Ascii.eqb_spec d "-"%char); [subst d; discriminate | reflexivity]. }
  assert (Hspan : span_digits ((d :: more) ++ rest) = (d :: more, rest))
    by now apply span_digits_app.
  assert (Hend : match rest with
                 | [] => Ok (VNum (if negative then - Z.of_N n else Z.of_N n), rest)
                 | c :: _ =>
                     if Ascii.eqb c "."%char || Ascii.eqb c "e"%char
                        || Ascii.eqb c "E"%char
                     then Outside
                     else Ok (VNum (if negative then - Z.of_N n else Z.of_N n), rest)
                 end = Ok (VNum (if negative then - Z.of_N n else Z.of_N n), rest)).
  { destruct rest as [|c r]; [reflexivity|]. simpl in Hrest.
    destruct (Ascii.eqb c "."), (Ascii.eqb c "e"), (Ascii.eqb c "E");
      rewrite ?andb_false_r in Hrest; try discriminate; reflexivity. }
  destruct negative.
  - change (["-"%char] ++ (d :: more) ++ rest)
      with ("-"%char :: (d :: more) ++ rest).
    cbv beta iota. change (Ascii.eqb "-" "-") with true. cbv beta iota.
    rewrite Hspan, Hlead, Hval. exact Hend.
  - change ([] ++ (d :: more) ++ rest) with (d :: (more ++ rest)).
    cbv beta iota. rewrite Hminus.
    change (d :: more ++ rest) with ((d :: more) ++ rest).
    rewrite Hspan, Hlead, Hval. exact Hend.
Qed.

Lemma ser_Z_cases (n : Z) :
  exists (negative : bool) (m : N),
    ser_Z n = (if negative then ["-"%char] else []) ++ ser_nat m
    /\ n = (if negative then - Z.of_N m else Z.of_N m).
Proof.
  unfold ser_Z. destruct (Z.ltb_spec n 0).
  - exists true, (Z.abs_N n). split; [reflexivity | lia].
  - exists false, (Z.to_N n). split; [reflexivity | lia].
Qed.

Lemma parse_number_ser_Z (n : Z) (rest : list ascii) :
  number_end rest = true ->
  parse_number (ser_Z n ++ rest) = Ok (VNum n, rest).
Proof.
  intro Hrest. destruct (ser_Z_cases n) as (negative & m & E & Hn).
  rewrite E, <- app_assoc, parse_number_digits by assumption. now rewrite Hn.
Qed.

(** The first character of a number decides the branch of [parse_value]. *)
Lemma parse_value_number (fuel : nat) (c : ascii) (r : list ascii) :
  Ascii.eqb c "-"%char || is_digit c = true ->
  parse_value (S fuel) (c :: r) = parse_number (c :: r).
Proof.
  destruct c as [[] [] [] [] [] [] [] []]; intro H;
    try discriminate H; reflexivity.
Qed.

Lemma ser_Z_head (n : Z) :
  exists c tl, ser_Z n = c :: tl /\ Ascii.eqb c "-"%char || is_digit c = true.
Proof.
  destruct (ser_Z_cases n) as (negative & m & E & _).
  destruct (ser_nat_spec m) as (d & more & E' & Hall & _).
  rewrite E, E'. destruct negative; simpl app.
  - eexists _, _. split; reflexivity.
  - eexists _, _. split; [reflexivity|]. simpl in Hall.
    apply andb_true_iff in Hall as [-> _]. apply orb_true_r.
Qed.


(** *** Induction on values, through arrays and objects *)

Section value_induction.
Variable P : value -> Prop.
Hypothesis P_undefined : P VUndefined.
Hypothesis P_null : P VNull.
Hypothesis P_bool : forall b, P (VBool b).
Hypothesis P_num : forall n, P (VNum n).
Hypothesis P_str : forall s, P (VStr s).
Hypothesis P_arr : forall l, Forall P l -> P (VArr l).
Hypothesis P_obj :
  forall m, Forall (fun kv : string * value => P (snd kv)) m -> P (VObj m).

Fixpoint value_nested_ind (v : value) : P v :=
  match v with
  | VUndefined => P_undefined
  | VNull => P_null
  | VBool b => P_bool b
  | VNum n => P_num n
  | VStr s => P_str s
  | VArr l =>
      P_arr l ((fix all (l : list value) : Forall P l :=
                  match l with
                  | [] => @List.Forall_nil _ P
                  | x :: r => @List.Forall_cons _ P x r (value_nested_ind x) (all r)
                  end) l)
  | VObj m =>
      P_obj m ((fix all (m : obj) : Forall (fun kv => P (snd kv)) m :=
                  match m with
                  | [] => @List.Forall_nil _ _
                  | kv :: r =>
                      @List.Forall_cons _ _ kv r (value_nested_ind (snd kv)) (all r)
                  end) m)
  end.
End value_induction.

(** *** [JSON.parse] after [JSON.stringify] *)


Lemma number_start (c : ascii) :
  Ascii.eqb c "-"%char || is_digit c = true -> value_start c = true.
Proof.
  destruct c as [[] [] [] [] [] [] [] []]; intro H;
    try discriminate H; reflexivity.
Qed.

Lemma ser_head (v : value) :
  exists c tl, ser v = c :: tl /\ value_start c = true.
Proof.
  destruct v as [| |[]|n|s|l|m]; try (eexists _, _; split; reflexivity).
  destruct (ser_Z_head n) as (c & tl & E & H).
  exists c, tl. split; [exact E | now apply number_start].
Qed.

Lemma skip_ws_start (c : ascii) (r : list ascii) :
  value_start c = true -> skip_ws (c :: r) = c :: r.
Proof.
  unfold value_start. intro H. simpl.
  destruct (is_ws c); [discriminate | reflexivity].
Qed.


Lemma parse_elements_back (l : list value) :
  Forall parses_back l -> l <> [] -> forallb is_json l = true ->
  forall (fuel : nat) (acc : list value) (rest : list ascii),
    (length (join (map ser l)) + 1 <= fuel)%nat ->
    parse_elements fuel (join (map ser l) ++ "]"%char :: rest) acc
    = Ok (VArr (acc ++ l), rest).
Proof.
  induction 1 as [|x l Hx Hl IH]; [congruence|].
  intros _ Hjson fuel acc rest Hfuel.
  simpl in Hjson. apply andb_true_iff in Hjson as [Hjx Hjl].
  destruct fuel as [|fuel]; [lia|].
  destruct l as [|y l].
  - simpl in *. rewrite Hx by (auto; lia). reflexivity.
  - change (join (map ser (x :: y :: l)))
      with (ser x ++ ","%char :: join (map ser (y :: l))) in *.
    rewrite length_app in Hfuel. simpl length in Hfuel.
    rewrite <- app_assoc. simpl.
    rewrite Hx by (auto; lia). simpl.
    rewrite IH by (try discriminate; auto; simpl in *; lia).
    now rewrite <- app_assoc.
Qed.


Lemma ser_object_members (m : obj) :
  forallb (fun kv : string * value =>
             negb (is_index_key (chars (fst kv))) && is_json (snd kv)) m = true ->
  somes (map (fun kv : string * value =>
                let (k, x) := kv in
                if isUndefined x then None
                else Some (ser_string k ++ ":"%char :: ser x)) m)
  = map ser_member m.
Proof.
  induction m as [|[k x] m IH]; intro H; [reflexivity|].
  simpl in H.
  apply andb_true_iff in H as [Hkx Hm]. apply andb_true_iff in Hkx as [_ Hx].
  cbn [map]. rewrite <- IH by assumption.
  destruct x; try discriminate; reflexivity.
Qed.

Lemma includes_true (l : list string) (k : string) :
  includes l k = true <-> In k l.
Proof.
  unfold includes. rewrite existsb_exists. split.
  - intros (x & Hin & Heq). apply String.eqb_eq in Heq. now subst.
  - intro Hin. exists k. split; [assumption | apply String.eqb_refl].
Qed.

Lemma includes_false (l : list string) (k : string) :
  includes l k = false <-> ~ In k l.
Proof.
  rewrite <- includes_true. destruct (includes l k); split; congruence.
Qed.

Lemma put_fresh (o : obj) (k : string) (v : value) :
  ~ In k (keys o) -> put o k v = o ++ [(k, v)].
Proof.
  induction o as [|[k' v'] o IH]; simpl; intro H; [reflexivity|].
  destruct (String.eqb_spec k k') as [->|Hne].
  - exfalso. apply H. now left.
  - rewrite IH; [reflexivity|]. intro Hin. apply H. now right.
Qed.

Lemma parse_members_step (fuel : nat) (k : string) (s : list ascii) (acc : obj) :
  is_index_key (chars k) = false ->
  parse_members (S fuel) (ser_string k ++ ":"%char :: s) acc
  = (do (v, r3) <- parse_value fuel s ;
     match skip_ws r3 with
     | c :: r4 =>
         if Ascii.eqb c ","%char then parse_members fuel r4 (put acc k v)
         else if Ascii.eqb c "}"%char then Ok (VObj (put acc k v), r4)
         else Throw SyntaxError
     | [] => Throw SyntaxError
     end).
Proof.
  intro Hk. rewrite ser_string_app.
  pose proof (parse_chars_literal (chars k) (":"%char :: s)) as Hlit.
  remember (flat_map ser_char (chars k) ++ dquote :: ":"%char :: s) as body.
  cbn -[parse_chars parse_value is_index_key text put].
  rewrite Hlit.
  cbn -[parse_chars parse_value is_index_key text put].
  rewrite Hk, text_chars. reflexivity.
Qed.

Lemma parse_members_back (m : obj) :
  Forall (fun kv : string * value => parses_back (snd kv)) m -> m <> [] ->
  forallb (fun kv : string * value =>
             negb (is_index_key (chars (fst kv))) && is_json (snd kv)) m = true ->
  distinct (map fst m) = true ->
  forall (fuel : nat) (acc : obj) (rest : list ascii),
    (forall k, In k (keys m) -> ~ In k (keys acc)) ->
    (length (join (map ser_member m)) + 1 <= fuel)%nat ->
    parse_members fuel (join (map ser_member m) ++ "}"%char :: rest) acc
    = Ok (VObj (acc ++ m), rest).
Proof.
  induction 1 as [|[k x] m Hx Hm IH]; [congruence|].
  intros _ Hjson Hdist fuel acc rest Hacc Hfuel.
  simpl in Hjson, Hdist, Hx.
  apply andb_true_iff in Hjson as [Hkx Hjm].
  apply andb_true_iff in Hkx as [Hk Hjx]. apply negb_true_iff in Hk.
  apply andb_true_iff in Hdist as [Hfresh Hdist].
  apply negb_true_iff, includes_false in Hfresh.
  assert (Hput : put acc k x = acc ++ [(k, x)]).
  { apply put_fresh, Hacc. now left. }
  destruct fuel as [|fuel]; [lia|].
  assert (Hlen : (length (ser_member (k, x)) = length (ser_string k) + 1 + length (ser x))%nat).
  { unfold ser_member. simpl fst. simpl snd. rewrite length_app. simpl. lia. }
  destruct m as [|kv m].
  - simpl join in *. unfold ser_member at 1. simpl fst; simpl snd.
    rewrite <- app_assoc, <- app_comm_cons, parse_members_step by assumption.
    rewrite Hx by (auto; lia).
    cbn -[put]. rewrite Hput. reflexivity.
  - change (join (map ser_member ((k, x) :: kv :: m)))
      with (ser_member (k, x) ++ ","%char :: join (map ser_member (kv :: m))) in *.
    rewrite length_app in Hfuel.
    change (length (","%char :: ?l)) with (S (length l)) in Hfuel.
    unfold ser_member at 1. simpl fst; simpl snd.
    rewrite <- !app_assoc, <- !app_comm_cons, parse_members_step by assumption.
    rewrite Hx by (auto; lia).
    cbn -[parse_members put join map]. rewrite Hput.
    rewrite IH; try discriminate; auto; try lia.
    + now rewrite <- app_assoc.
    + intros k' Hin Hin'. unfold keys in Hin'. rewrite map_app in Hin'.
      apply in_app_or in Hin' as [Hin'|Hin'].
      * apply (Hacc k'); [now right | exact Hin'].
      * simpl in Hin'. destruct Hin' as [<-|[]]. now apply Hfresh.
Qed.

Lemma ser_parses_back (v : value) : parses_back v.
Proof.
  induction v as [| |b|n|s|l IH|m IH] using value_nested_ind;
    intros fuel rest Hjson Hfuel Hrest.
  - discriminate.
  - destruct fuel as [|fuel]; [simpl in Hfuel; lia | reflexivity].
  - destruct fuel as [|fuel]; [destruct b; simpl in Hfuel; lia |].
    destruct b; reflexivity.
  - destruct (ser_Z_head n) as (c & tl & E & Hc).
    destruct fuel as [|fuel]; [simpl in Hfuel; rewrite E in Hfuel; simpl in Hfuel; lia |].
    change (ser (VNum n)) with (ser_Z n).
    pose proof (parse_number_ser_Z n rest Hrest) as Hnum.
    rewrite E in *. rewrite <- app_comm_cons in *.
    now rewrite parse_value_number.
  - destruct fuel as [|fuel]; [simpl in Hfuel; lia |].
    change (ser (VStr s)) with (ser_string s). rewrite ser_string_app.
    pose proof (parse_chars_literal (chars s) rest) as Hlit.
    remember (flat_map ser_char (chars s) ++ dquote :: rest) as body.
    cbn -[parse_chars text]. rewrite Hlit. cbn -[text].
    now rewrite text_chars.
  - destruct fuel as [|fuel]; [simpl in Hfuel; lia |].
    change (ser (VArr l)) with ("["%char :: join (map ser l) ++ ["]"%char]) in *.
    rewrite <- app_comm_cons, <- app_assoc. simpl in Hjson.
    simpl length in Hfuel. rewrite length_app in Hfuel. simpl length in Hfuel.
    destruct l as [|x l]; [reflexivity|].
    pose proof (parse_elements_back (x :: l) IH ltac:(discriminate) Hjson
                  fuel [] rest ltac:(lia)) as Helems.
    destruct (ser_head x) as (c & tl & E & Hc).
    assert (Hjoin : exists tl', join (map ser (x :: l)) = c :: tl').
    { destruct l; simpl; rewrite E; eexists; reflexivity. }
    destruct Hjoin as (tl' & Hjoin). rewrite Hjoin in *.
    change (["]"%char] ++ rest) with ("]"%char :: rest).
    rewrite <- app_comm_cons in *.
    cbn -[parse_elements skip_ws].
    rewrite (skip_ws_start "["%char) by reflexivity.
    cbn -[parse_elements skip_ws]. rewrite skip_ws_start by assumption.
    unfold value_start in Hc. apply andb_true_iff in Hc as [_ Hc].
    apply negb_true_iff in Hc. rewrite Hc. exact Helems.
  - destruct fuel as [|fuel]; [simpl in Hfuel; lia |].
    simpl in Hjson. apply andb_true_iff in Hjson as [Hdist Hjson].
    change (ser (VObj m))
      with ("{"%char ::
            join (somes (map (fun kv : string * value =>
                                let (k, x) := kv in
                                if isUndefined x then None
                                else Some (ser_string k ++ ":"%char :: ser x)) m))
            ++ ["}"%char]) in *.
    rewrite ser_object_members in * by assumption.
    rewrite <- app_comm_cons, <- app_assoc.
    simpl length in Hfuel. rewrite length_app in Hfuel. simpl length in Hfuel.
    destruct m as [|[k x] m]; [reflexivity|].
    pose proof (parse_members_back ((k, x) :: m) IH ltac:(discriminate) Hjson
                  Hdist fuel [] rest ltac:(intros ? ? []) ltac:(lia)) as Hmembers.
    assert (Hjoin : exists tl', join (map ser_member ((k, x) :: m)) = dquote :: tl').
    { destruct m; simpl; eexists; reflexivity. }
    destruct Hjoin as (tl' & Hjoin). rewrite Hjoin in *.
    change (["}"%char] ++ rest) with ("}"%char :: rest).
    rewrite <- app_comm_cons in *.
    exact Hmembers.
Qed.

(** [JSON.parse(JSON.stringify(v))] is [v], for the values JSON holds. *)
Lemma JSON_parse_stringify (v : value) :
  is_json v = true -> JSON_parse (JSON_stringify v) = Ok v.
Proof.
  intro Hjson. unfold JSON_parse, JSON_stringify.
  rewrite chars_text, <- length_chars, chars_text.
  rewrite <- (app_nil_r (ser v)) at 2.
  rewrite ser_parses_back by (auto; lia). reflexivity.
Qed.

(** *** What [JSON.parse] returns is JSON *)

Lemma keys_put (o : obj) (k : string) (v : value) (x : string) :
  In x (keys (put o k v)) <-> In x (keys o) \/ x = k.
Proof.
  induction o as [|[k' v'] o IH]; simpl.
  - intuition.
  - destruct (String.eqb_spec k k') as [->|Hne]; simpl; [|rewrite IH]; intuition.
Qed.

Lemma distinct_put (o : obj) (k : string) (v : value) :
  distinct (keys o) = true -> distinct (keys (put o k v)) = true.
Proof.
  induction o as [|[k' v'] o IH]; simpl; [reflexivity|]. intro H.
  apply andb_true_iff in H as [Hk' Ho].
  destruct (String.eqb_spec k k') as [->|Hne]; simpl.
  - now rewrite Hk', Ho.
  - rewrite (IH Ho), andb_true_r. apply negb_true_iff, includes_false.
    apply negb_true_iff, includes_false in Hk'.
    change (map fst (put o k v)) with (keys (put o k v)).
    rewrite keys_put. intros [Hin|Heq]; [now apply Hk' | congruence].
Qed.

Lemma is_json_put (o : obj) (k : string) (v : value) :
  is_json (VObj o) = true -> is_index_key (chars k) = false ->
  is_json v = true -> is_json (VObj (put o k v)) = true.
Proof.
  simpl. intros Ho Hk Hv. apply andb_true_iff in Ho as [Hd Hall].
  apply andb_true_iff. split; [now apply distinct_put|].
  clear Hd. induction o as [|[k' v'] o IH]; simpl in *.
  - now rewrite Hk, Hv.
  - apply andb_true_iff in Hall as [Hkv Hall].
    destruct (String.eqb_spec k k') as [->|Hne]; simpl.
    + now rewrite Hk, Hv, Hall.
    + now rewrite Hkv, IH.
Qed.

Lemma forallb_snoc {A : Type} (f : A -> bool) (l : list A) (x : A) :
  forallb f l = true -> f x = true -> forallb f (l ++ [x]) = true.
Proof.
  intros Hl Hx. rewrite forallb_app, Hl. simpl. now rewrite Hx.
Qed.

Lemma parse_number_is_json (s : list ascii) (v : value) (r : list ascii) :
  parse_number s = Ok (v, r) -> is_json v = true.
Proof.
  unfold parse_number.
  destruct (match s with
            | [] => (false, s)
            | c :: r0 => if Ascii.eqb c "-" then (true, r0) else (false, s)
            end) as [negative s1].
  destruct (span_digits s1) as [[|d more] rest]; [discriminate|].
  destruct (_ && _); [discriminate|].
  destruct rest as [|c rest]; [intros [= <- _]; reflexivity|].
  destruct (_ || _); [discriminate | intros [= <- _]; reflexivity].
Qed.

Lemma keyword_is_json (w : string) (lit v : value) (s r : list ascii) :
  is_json lit = true -> keyword w lit s = Ok (v, r) -> is_json v = true.
Proof.
  unfold keyword. destruct (strip_prefix _ _); [|discriminate].
  now intros H [= <- _].
Qed.

Lemma parse_elements_S (fuel : nat) (s : list ascii) (acc : list value) :
  parse_elements (S fuel) s acc
  = (do (v, r) <- parse_value fuel s ;
     match skip_ws r with
     | c :: r' =>
         if Ascii.eqb c ","%char then parse_elements fuel r' (acc ++ [v])
         else if Ascii.eqb c "]"%char then Ok (VArr (acc ++ [v]), r')
         else Throw SyntaxError
     | [] => Throw SyntaxError
     end).
Proof. reflexivity. Qed.

Lemma parse_members_S (fuel : nat) (s : list ascii) (acc : obj) :
  parse_members (S fuel) s acc
  = match skip_ws s with
    | q :: r0 =>
        if Ascii.eqb q dquote then
          do (k, r1) <- parse_chars r0 ;
          if is_index_key k then Outside
          else
            match skip_ws r1 with
            | colon :: r2 =>
                if Ascii.eqb colon ":"%char then
                  do (v, r3) <- parse_value fuel r2 ;
                  match skip_ws r3 with
                  | c :: r4 =>
                      if Ascii.eqb c ","%char
                      then parse_members fuel r4 (put acc (text k) v)
                      else if Ascii.eqb c "}"%char
                      then Ok (VObj (put acc (text k) v), r4)
                      else Throw SyntaxError
                  | [] => Throw SyntaxError
                  end
                else Throw SyntaxError
            | [] => Throw SyntaxError
            end
        else Throw SyntaxError
    | [] => Throw SyntaxError
    end.
Proof. reflexivity. Qed.

Ltac split_if H :=
  match type of H with
  | context [if ?b then _ else _] => destruct b eqn:?
  end.

Lemma parse_is_json (fuel : nat) :
  (forall s v r, parse_value fuel s = Ok (v, r) -> is_json v = true)
  /\ (forall s acc v r,
        forallb is_json acc = true ->
        parse_elements fuel s acc = Ok (v, r) -> is_json v = true)
  /\ (forall s acc v r,
        is_json (VObj acc) = true ->
        parse_members fuel s acc = Ok (v, r) -> is_json v = true).
Proof.
  induction fuel as [|fuel (IHv & IHe & IHm)];
    [repeat split; intros; discriminate|].
  split; [|split].
  - intros s v r H.
    cbn -[keyword parse_number parse_chars parse_elements parse_members
          is_digit] in H.
    destruct (skip_ws s) as [|c s']; [discriminate|].
    repeat (split_if H;
            [try solve [eapply keyword_is_json; [|exact H]; reflexivity]|]).
    + destruct (parse_chars s') as [[cs r']| |]; try discriminate.
      simpl in H. now injection H as <- _.
    + destruct (skip_ws s') as [|c' r']; [discriminate|].
      split_if H; [now injection H as <- _ | eapply IHe; [|exact H]; reflexivity].
    + destruct (skip_ws s') as [|c' r']; [discriminate|].
      split_if H; [now injection H as <- _ | eapply IHm; [|exact H]; reflexivity].
    + eapply parse_number_is_json; exact H.
    + discriminate.
  - intros s acc v r Hacc H. rewrite parse_elements_S in H.
    destruct (parse_value fuel s) as [[x r1]| |] eqn:E; try discriminate.
    apply IHv in E. cbn [bind] in H. cbv beta iota in H.
    destruct (skip_ws r1) as [|c r2]; [discriminate|].
    split_if H; [eapply IHe; [|exact H]; now apply forallb_snoc|].
    split_if H; [|discriminate].
    injection H as <- _. simpl. now apply forallb_snoc.
  - intros s acc v r Hacc H. rewrite parse_members_S in H.
    destruct (skip_ws s) as [|q r0]; [discriminate|].
    split_if H; [|discriminate].
    destruct (parse_chars r0) as [[k r1]| |]; try discriminate.
    cbn [bind] in H. cbv beta iota in H.
    destruct (is_index_key k) eqn:Hk; [discriminate|].
    destruct (skip_ws r1) as [|colon r2]; [discriminate|].
    split_if H; [|discriminate].
    destruct (parse_value fuel r2) as [[x r3]| |] eqn:E; try discriminate.
    apply IHv in E. cbn [bind] in H. cbv beta iota in H.
    destruct (skip_ws r3) as [|c r4]; [discriminate|].
    assert (Hput : is_json (VObj (put acc (text k) x)) = true).
    { apply is_json_put; auto. now rewrite chars_text. }
    split_if H; [eapply IHm; [|exact H]; exact Hput|].
    split_if H; [|discriminate].
    now injection H as <- _.
Qed.

Lemma JSON_parse_is_json (s : string) (v : value) :
  JSON_parse s = Ok v -> is_json v = true.
Proof.
  unfold JSON_parse.
  destruct (parse_value _ _) as [[x r]| |] eqn:E; try discriminate.
  simpl. destruct (skip_ws r); [|discriminate].
  intros [= <-]. exact (proj1 (parse_is_json _) _ _ _ E).
Qed.

(* ================================================================== *)
(** ** Facts about objects *)

Lemma get_put_same (o : obj) (k : string) (v : value) :
  get (put o k v) k = v.
Proof.
  induction o as [|[k' v'] o IH]; simpl.
  - now rewrite String.eqb_refl.
  - destruct (String.eqb_spec k k') as [->|Hne]; simpl.
    + now rewrite String.eqb_refl.
    + destruct (String.eqb_spec k k'); [contradiction | exact IH].
Qed.

Lemma get_put_other (o : obj) (k k' : string) (v : value) :
  k <> k' -> get (put o k v) k' = get o k'.
Proof.
  intro Hne. induction o as [|[k0 v0] o IH]; simpl.
  - destruct (String.eqb_spec k' k); [congruence | reflexivity].
  - destruct (String.eqb_spec k k0) as [->|Hne0]; simpl.
    + destruct (String.eqb_spec k' k0); [congruence | reflexivity].
    + destruct (String.eqb_spec k' k0); [reflexivity | exact IH].
Qed.

Lemma get_absent (o : obj) (k : string) :
  ~ In k (keys o) -> get o k = VUndefined.
Proof.
  induction o as [|[k' v'] o IH]; simpl; intro H; [reflexivity|].
  destruct (String.eqb_spec k k') as [->|Hne].
  - exfalso. apply H. now left.
  - apply IH. intro Hin. apply H. now right.
Qed.

Lemma uniq_In (l seen : list string) (x : string) :
  In x (uniq seen l) <-> In x l /\ ~ In x seen.
Proof.
  revert seen. induction l as [|y l IH]; intro seen; simpl; [tauto|].
  destruct (includes seen y) eqn:E.
  - apply includes_true in E. rewrite IH. split.
    + intros [H1 H2]. tauto.
    + intros [[->|H1] H2]; [contradiction | tauto].
  - apply includes_false in E. simpl. rewrite IH. simpl. split.
    + intros [->|[H1 H2]]; [tauto|]. split; [tauto|]. intro; apply H2; now right.
    + intros [[->|H1] H2]; [now left|].
      destruct (string_dec y x) as [->|Hne]; [now left|].
      right. split; [assumption|]. intros [Heq|Hin]; congruence.
Qed.

Lemma uniq_NoDup (l seen : list string) : List.NoDup (uniq seen l).
Proof.
  revert seen. induction l as [|y l IH]; intro seen; simpl; [constructor|].
  destruct (includes seen y); [apply IH|].
  constructor; [|apply IH]. rewrite uniq_In. intros [_ H]. apply H. now left.
Qed.

Lemma depth_get (o a : obj) (k : string) :
  get o k = VObj a -> (depth (VObj a) < depth (VObj o))%nat.
Proof.
  intro H. change (depth (VObj o))
    with (S (list_max (map (fun kv : string * value => depth (snd kv)) o))).
  apply Nat.lt_succ_r.
  induction o as [|[k' v'] o IH]; simpl in H; [discriminate|].
  change (map (fun kv : string * value => depth kv.2) ((k', v') :: o))
    with (depth v' :: map (fun kv : string * value => depth kv.2) o).
  change (list_max (?x :: ?l)) with (Nat.max x (list_max l)).
  destruct (String.eqb k k').
  - subst v'. lia.
  - specialize (IH H). lia.
Qed.

(* ================================================================== *)
(** ** Facts about [mergeStates] *)


(** The nested call only matters on the objects found under a key. *)
Lemma merge_key_ext (f g : obj -> obj -> result obj)
  (localState remoteState : obj) (ig fo : list string)
  (acc : obj) (key : string) :
  (forall l r, get localState key = VObj l -> f l r = g l r) ->
  merge_key f localState remoteState ig fo acc key
  = merge_key g localState remoteState ig fo acc key.
Proof.
  intro H. unfold merge_key.
  destruct (includes ig key); [reflexivity|].
  destruct (includes fo key); [reflexivity|].
  destruct (get localState key) as [| | | | | |l]; try reflexivity.
  destruct (get remoteState key) as [| | | | | |r]; try reflexivity.
  now rewrite (H l r).
Qed.

Lemma for_each_ext {A : Type} (f g : A -> string -> result A)
  (l : list string) (a : A) :
  (forall x key, In key l -> f x key = g x key) ->
  for_each f l a = for_each g l a.
Proof.
  revert a. induction l as [|key l IH]; intros a H; simpl; [reflexivity|].
  rewrite (H a key) by now left.
  destruct (g a key); simpl; try reflexivity.
  apply IH. intros x k Hin. apply H. now right.
Qed.

(** Any fuel that covers the depth of the local state gives the same
    result. *)
Lemma mergeStates_rec_fuel (f1 : nat) :
  forall (f2 : nat) (l r : obj) (options : option MergeOptions),
    (depth (VObj l) <= f1)%nat -> (depth (VObj l) <= f2)%nat ->
    mergeStates_rec f1 l r options = mergeStates_rec f2 l r options.
Proof.
  induction f1 as [|f1 IH]; intros f2 l r options H1 H2.
  - simpl in H1. lia.
  - destruct f2 as [|f2]; [simpl in H2; lia|].
    cbn [mergeStates_rec]. apply for_each_ext. intros acc key _.
    apply merge_key_ext. intros a b Ha.
    apply depth_get in Ha. apply IH; lia.
Qed.

(** [mergeStates] unfolds to its loop, the nested calls being
    [mergeStates] without options. *)
Lemma mergeStates_unfold (l r : obj) (options : option MergeOptions) :
  mergeStates l r options
  = for_each
      (merge_key (fun a b => mergeStates a b None) l r
                 (option_keys options ignoreKeys)
                 (option_keys options forceLWWKeys))
      (uniq [] (keys l ++ keys r)) l.
Proof.
  unfold mergeStates at 1.
  change (depth (VObj l))
    with (S (list_max (map (fun kv : string * value => depth (snd kv)) l))).
  cbn [mergeStates_rec]. apply for_each_ext. intros acc key _.
  apply merge_key_ext. intros a b Ha. unfold mergeStates.
  apply depth_get in Ha.
  change (depth (VObj l))
    with (S (list_max (map (fun kv : string * value => depth (snd kv)) l))) in Ha.
  apply mergeStates_rec_fuel; lia.
Qed.

(** One round of the loop, given that the nested merges return. *)
Lemma merge_key_spec (l r : obj) (ig fo : list string) (acc : obj) (key : string) :
  (forall a b, get l key = VObj a -> exists m, mergeStates a b None = Ok m) ->
  get acc key = get l key ->
  exists acc',
    merge_key (fun a b => mergeStates a b None) l r ig fo acc key = Ok acc'
    /\ merged_value l r ig fo key (get acc' key)
    /\ forall k, k <> key -> get acc' k = get acc k.
Proof.
  intros Hrec Hacc. unfold merge_key, merged_value.
  destruct (includes ig key); [exists acc; auto|].
  destruct (includes fo key).
  { eexists. split; [reflexivity|]. split; [apply get_put_same|].
    intros k Hk. apply get_put_other. congruence. }
  assert (Hput : forall v, exists acc',
             Ok (put acc key v) = Ok acc' /\ get acc' key = v
             /\ forall k, k <> key -> get acc' k = get acc k).
  { intro v. eexists. split; [reflexivity|]. split; [apply get_put_same|].
    intros k Hk. apply get_put_other. congruence. }
  destruct (get l key) as [| | | | | |a] eqn:El;
    try (destruct (isUndefined (get r key)) eqn:Eu; cbn [negb];
         [exists acc; auto | apply Hput]).
  destruct (get r key) as [| | | | | |b] eqn:Er;
    try (cbn [isUndefined negb]; first [exists acc; now auto | apply Hput]).
  destruct (Hrec a b eq_refl) as (m & Hm). rewrite Hm. cbn [bind].
  destruct (Hput (VObj m)) as (acc' & E & Hget & Hother).
  exists acc'. split; [exact E|]. split; [|exact Hother].
  exists m. split; [reflexivity | exact Hget].
Qed.

Lemma for_each_merge_spec (l r : obj) (ig fo : list string) (ks : list string) :
  (forall key a b, get l key = VObj a -> exists m, mergeStates a b None = Ok m) ->
  List.NoDup ks ->
  forall acc,
    (forall key, In key ks -> get acc key = get l key) ->
    exists m,
      for_each (merge_key (fun a b => mergeStates a b None) l r ig fo) ks acc = Ok m
      /\ (forall key, In key ks -> merged_value l r ig fo key (get m key))
      /\ (forall key, ~ In key ks -> get m key = get acc key).
Proof.
  intros Hrec Hnd. induction Hnd as [|k ks Hk Hnd IH]; intros acc Hacc.
  - exists acc. simpl. repeat split; auto. intros key [].
  - destruct (merge_key_spec l r ig fo acc k (Hrec k) (Hacc k (or_introl eq_refl)))
      as (acc' & E & Hval & Hother).
    destruct (IH acc') as (m & Em & Hin & Hout).
    { intros key Hkey. rewrite Hother; [apply Hacc; now right|].
      intros ->. contradiction. }
    exists m. simpl. rewrite E. cbn [bind]. split; [exact Em|]. split.
    + intros key [<-|Hkey]; [|now apply Hin]. now rewrite (Hout k Hk).
    + intros key Hkey. rewrite Hout by (intro; apply Hkey; now right).
      apply Hother. intros ->. apply Hkey. now left.
Qed.

(** [mergeStates] returns, and every key of the result is as described. *)
Lemma mergeStates_spec (n : nat) :
  forall (l r : obj) (options : option MergeOptions),
    (depth (VObj l) <= n)%nat ->
    exists m,
      mergeStates l r options = Ok m
      /\ forall key,
           merged_value l r (option_keys options ignoreKeys)
                        (option_keys options forceLWWKeys) key (get m key).
Proof.
  induction n as [|n IH]; intros l r options Hn; [simpl in Hn; lia|].
  rewrite mergeStates_unfold.
  destruct (for_each_merge_spec l r (option_keys options ignoreKeys)
              (option_keys options forceLWWKeys) (uniq [] (keys l ++ keys r)))
    with (acc := l) as (m & E & Hin & Hout).
  - intros key a b Ha. apply depth_get in Ha.
    destruct (IH a b None) as (m & Hm & _); [lia | eauto].
  - apply uniq_NoDup.
  - reflexivity.
  - exists m. split; [exact E|]. intro key.
    destruct (in_dec string_dec key (uniq [] (keys l ++ keys r))) as [Hkey|Hkey];
      [now apply Hin|].
    rewrite (Hout key Hkey).
    assert (Hl : get l key = VUndefined).
    { apply get_absent. intro H. apply Hkey. apply uniq_In.
      split; [apply in_or_app; now left | intros []]. }
    assert (Hr : get r key = VUndefined).
    { apply get_absent. intro H. apply Hkey. apply uniq_In.
      split; [apply in_or_app; now right | intros []]. }
    unfold merged_value. rewrite Hl, Hr.
    destruct (includes _ key); [reflexivity|].
    destruct (includes _ key); reflexivity.
Qed.

(* ================================================================== *)
(** ** The claims about conflict resolution *)

(** The two lists of keys [mergeStates] takes from its options. *)
Lemma option_keys_fields (options : option MergeOptions) :
  option_keys options ignoreKeys
  = match options with
    | Some o => default [] (ignoreKeys o)
    | None => []
    end
  /\ option_keys options forceLWWKeys
     = match options with
       | Some o => default [] (forceLWWKeys o)
       | None => []
       end.
Proof. destruct options; split; reflexivity. Qed.





(** The same input, evaluated: under [a], [x] is 2 although [x] is to
    be ignored, and [p] is the merge of both sides although [p] is to be
    taken from the remote side. *)
Example nested_options_not_applied :
  mergeStates
    [("a", VObj [("x", VNum 1); ("p", VObj [("q", VNum 1)])])]%string
    [("a", VObj [("x", VNum 2); ("p", VObj [("r", VNum 2)])])]%string
    (Some {| strategy := Merge; ignoreKeys := Some ["x"%string];
             forceLWWKeys := Some ["p"%string]; timestampKey := None |})
  = Ok [("a", VObj [("x", VNum 2);
                    ("p", VObj [("q", VNum 1); ("r", VNum 2)])])]%string.
Proof. reflexivity. Qed.


Lemma timeOf_timestamp (Date_parse : string -> option Z)
  (o : obj) (key : string) (t : Z) :
  timestamp_is Date_parse o key t ->
  timeOf Date_parse (get o key) = Ok (Some t).
Proof.
  intros [E|n E Hn|s t' E Hs Hparse]; rewrite E; [reflexivity| |].
  - unfold timeOf, truthy.
    destruct (Z.eqb_spec n 0) as [->|Hne]; [reflexivity|]. cbn [negb].
    destruct (Z.leb_spec (Z.abs n) 8640000000000000); [reflexivity | lia].
  - unfold timeOf, truthy.
    destruct (String.eqb_spec s ""); [contradiction|]. cbn [negb].
    now rewrite Hparse.
Qed.



(** C5.  When the two states serialise to the same text, the resolver
    returns the local state with [hadConflict = false], whatever the
    strategy: no strategy and no handler runs, so the world is the one
    it was given and nothing is thrown.  In particular [resolve(x, x)]
    is [x]. *)
Theorem C5_equal_states_short_circuit :
  forall (W : Type) (now : W -> Z) (Date_parse : string -> option Z)
         (r : Resolver W) (localState remoteState : obj) (w : W),
    JSON_stringify (VObj localState) = JSON_stringify (VObj remoteState) ->
    resolveWithResult now Date_parse r localState remoteState w
    = Ok ({| state := localState; hadConflict := false;
             strategy_used := LastWriteWins; timestamp := now w |}, w)
    /\ resolve now Date_parse r localState remoteState w = Ok (localState, w)
    /\ resolve now Date_parse r localState localState w = Ok (localState, w).
Proof.
  intros W now Date_parse r l rm w H.
  assert (E : forall x y, JSON_stringify (VObj x) = JSON_stringify (VObj y) ->
              resolveWithResult now Date_parse r x y w
              = Ok ({| state := x; hadConflict := false;
                       strategy_used := LastWriteWins; timestamp := now w |}, w)).
  { intros x y Hxy. unfold resolveWithResult.
    rewrite Hxy, String.eqb_refl. reflexivity. }
  split; [now apply E|].
  unfold resolve. rewrite (E l rm H), (E l l eq_refl). split; reflexivity.
Qed.

(** A resolver whose custom handler and merge function throw: on two
    equal states neither is called. *)
Lemma C5_witness :
  let r := createConflictResolver
             {| fields := {| strategy := Custom; ignoreKeys := None;
                             forceLWWKeys := None; timestampKey := None |};
                onConflict := Some throwing_handler;
                mergeStrategy := Some throwing_handler |} in
  let x := [("a", VNum 1)]%string in
  let w := small_world [] in
  resolveWithResult sw_clock no_dates r x x w
  = Ok ({| state := x; hadConflict := false;
           strategy_used := LastWriteWins; timestamp := sw_clock w |}, w)
  /\ resolve sw_clock no_dates r x x w = Ok (x, w)
  /\ resolve sw_clock no_dates r x x w = Ok (x, w).
Proof.
  apply C5_equal_states_short_circuit. reflexivity.
Defined.

(** On two states that differ, the same resolver does call its
    handler. *)
Example custom_handler_runs_on_conflict :
  resolveWithResult sw_clock no_dates
    (createConflictResolver
       {| fields := {| strategy := Custom; ignoreKeys := None;
                       forceLWWKeys := None; timestampKey := None |};
          onConflict := Some throwing_handler;
          mergeStrategy := Some throwing_handler |})
    [("a", VNum 1)]%string [("a", VNum 2)]%string (small_world [])
  = Throw (JsError "handler called").
Proof. reflexivity. Qed.

(* ================================================================== *)
(** ** Facts about the stand-in libraries *)

Lemma strip_prefix_app (p s : list ascii) : strip_prefix p (p ++ s) = Some s.
Proof.
  induction p as [|c p IH]; simpl; [reflexivity|].
  now rewrite Ascii.eqb_refl.
Qed.

Lemma tag_cipher_inverts : cipher_inverts tag_cipher.
Proof.
  intros data key iv'. simpl.
  rewrite chars_text, app_assoc, strip_prefix_app. now rewrite text_chars.
Qed.

(* ================================================================== *)
(** ** The claims about encryption *)

Lemma envelope_parses (s i c a : string) :
  JSON_parse (JSON_stringify
                (VObj [("salt", VStr s); ("iv", VStr i);
                       ("ciphertext", VStr c); ("algorithm", VStr a)]%string))
  = Ok (VObj [("salt", VStr s); ("iv", VStr i);
              ("ciphertext", VStr c); ("algorithm", VStr a)]%string).
Proof. apply JSON_parse_stringify. reflexivity. Qed.

(** With the default options, [encrypt] returns an AES-GCM envelope
    around the ciphertext under the derived key. *)
Lemma encrypt_default (W : Type) (lib : CryptoJS W) (data secret' : string) (w : W) :
  secret' <> ""%string ->
  exists (s i : string) (w' : W),
    encrypt lib data secret' no_options w
    = Ok (JSON_stringify
            (VObj [("salt", VStr s); ("iv", VStr i);
                   ("ciphertext",
                    VStr (AES_encrypt lib data
                            (PBKDF2 lib secret' s
                               (DEFAULT_keyLength / 32) DEFAULT_iterations) i));
                   ("algorithm", VStr "AES-GCM")]%string), w').
Proof.
  intro Hs. unfold encrypt.
  destruct (String.eqb_spec secret' ""); [contradiction|].
  cbn [no_options algorithm salt iv iterations keyLength default].
  change (String.eqb "" "") with true. cbv iota.
  destruct (generateSalt lib w) as [s w1].
  destruct (generateIV lib w1) as [i w2].
  exists s, i, w2. reflexivity.
Qed.

Lemma decrypt_envelope (W : Type) (lib : CryptoJS W) (s i c secret' : string) :
  secret' <> ""%string ->
  decrypt lib (JSON_stringify
                 (VObj [("salt", VStr s); ("iv", VStr i);
                        ("ciphertext", VStr c);
                        ("algorithm", VStr "AES-GCM")]%string)) secret'
  = try_catch
      (do result <- AES_decrypt lib c
                      (PBKDF2 lib secret' s (DEFAULT_keyLength / 32)
                              DEFAULT_iterations) i ;
       if String.eqb result ""
       then Throw (JsError "Failed to decrypt data. Check your secret key.")
       else Ok result)
      (Throw (JsError "Failed to decrypt data. Check your secret key.")).
Proof.
  intro Hs. unfold decrypt, decrypt_body.
  destruct (String.eqb_spec secret' ""); [contradiction|].
  rewrite envelope_parses. reflexivity.
Qed.

(** C2, as amended.  For every non-empty plaintext and every non-empty
    secret, [decrypt(encrypt(s, k), k)] returns [s] and throws
    nothing. *)
Theorem C2_round_trip_nonempty :
  forall (W : Type) (lib : CryptoJS W) (data secret' : string) (w : W),
    cipher_inverts lib ->
    secret' <> ""%string -> data <> ""%string ->
    exists (blob : string) (w' : W),
      encrypt lib data secret' no_options w = Ok (blob, w')
      /\ decrypt lib blob secret' = Ok data.
Proof.
  intros W lib data secret' w Hlib Hs Hd.
  destruct (encrypt_default W lib data secret' w Hs) as (s & i & w' & E).
  eexists _, w'. split; [exact E|].
  rewrite decrypt_envelope by assumption. rewrite Hlib. cbn [bind].
  destruct (String.eqb_spec data ""); [contradiction | reflexivity].
Qed.

(** On the stand-in cipher, ["hello"] under the secret ["secret"]. *)
Lemma C2_witness :
  exists (blob : string) (w' : SmallWorld),
    encrypt tag_cipher "hello" "secret" no_options (small_world []) = Ok (blob, w')
    /\ decrypt tag_cipher blob "secret" = Ok "hello"%string.
Proof.
  apply C2_round_trip_nonempty;
    [exact tag_cipher_inverts | discriminate | discriminate].
Defined.

(** The empty plaintext does not come back: its decryption is the empty
    string, which [decrypt] takes for a failure. *)
Lemma decrypt_of_encrypted_empty (W : Type) (lib : CryptoJS W) (secret' : string) (w : W) :
  cipher_inverts lib -> secret' <> ""%string ->
  exists (blob : string) (w' : W),
    encrypt lib "" secret' no_options w = Ok (blob, w')
    /\ decrypt lib blob secret'
       = Throw (JsError "Failed to decrypt data. Check your secret key.").
Proof.
  intros Hlib Hs.
  destruct (encrypt_default W lib "" secret' w Hs) as (s & i & w' & E).
  eexists _, w'. split; [exact E|].
  rewrite decrypt_envelope by assumption. rewrite Hlib. reflexivity.
Qed.

(** The empty plaintext under the secret ["secret"], on the stand-in
    cipher: [decrypt] of what [encrypt] returned throws. *)
Lemma C2_counterexample :
  (do (blob, _) <- encrypt tag_cipher "" "secret" no_options (small_world []) ;
   decrypt tag_cipher blob "secret")
  = Throw (JsError "Failed to decrypt data. Check your secret key.").
Proof. vm_compute. reflexivity. Qed.

(** C8.  [encrypt] throws exactly when the secret is empty.  [decrypt]
    throws when the secret is empty, when the [algorithm] of the stored
    envelope is not ['AES-GCM'], and when the decrypted text is
    empty. *)
Theorem C8_encryption_errors :
  forall (W : Type) (lib : CryptoJS W),
    (forall (data secret' : string) (options : EncryptionOptions) (w : W),
       (exists e, encrypt lib data secret' options w = Throw e)
       <-> secret' = ""%string)
    /\ (forall blob : string, exists e, decrypt lib blob "" = Throw e)
    /\ (forall (blob secret' : string) (o : obj),
          JSON_parse blob = Ok (VObj o) ->
          get o "algorithm" <> VStr "AES-GCM" ->
          exists e, decrypt lib blob secret' = Throw e)
    /\ (forall (blob secret' : string) (o : obj) (s i c : string),
          JSON_parse blob = Ok (VObj o) ->
          get o "salt" = VStr s -> get o "iv" = VStr i ->
          get o "ciphertext" = VStr c ->
          get o "algorithm" = VStr "AES-GCM" ->
          AES_decrypt lib c
            (PBKDF2 lib secret' s (DEFAULT_keyLength / 32) DEFAULT_iterations) i
          = Ok ""%string ->
          exists e, decrypt lib blob secret' = Throw e).
Proof.
  intros W lib. repeat split.
  - intros [e H]. unfold encrypt in H.
    destruct (String.eqb_spec secret' ""); [assumption|]. exfalso.
    destruct (if String.eqb (default ""%string (salt options)) ""
              then generateSalt lib w
              else (default ""%string (salt options), w)) as [s w1].
    destruct (if String.eqb (default ""%string (iv options)) ""
              then generateIV lib w1
              else (default ""%string (iv options), w1)) as [i w2].
    unfold deriveKey in H. destruct (_ mod 32 =? 0); discriminate.
  - intros ->. eexists. reflexivity.
  - intro blob. eexists. reflexivity.
  - intros blob secret' o Hparse Halg. unfold decrypt.
    destruct (String.eqb secret' ""); [eexists; reflexivity|].
    unfold decrypt_body. rewrite Hparse. cbn [bind getProp].
    assert (E : is_AES_GCM (get o "algorithm") = false).
    { destruct (get o "algorithm") as [| | | |a| |]; try reflexivity.
      simpl. destruct (String.eqb_spec a "AES-GCM"); [congruence | reflexivity]. }
    rewrite E. eexists. reflexivity.
  - intros blob secret' o s i c Hparse Hs Hi Hc Ha Hempty. unfold decrypt.
    destruct (String.eqb secret' ""); [eexists; reflexivity|].
    unfold decrypt_body. rewrite Hparse. cbn [bind getProp].
    rewrite Hs, Hi, Hc, Ha. cbn [is_AES_GCM]. 
    change (String.eqb "AES-GCM" "AES-GCM") with true. cbn [negb].
    change (deriveKey lib secret' s DEFAULT_iterations DEFAULT_keyLength)
      with (Ok (PBKDF2 lib secret' s (DEFAULT_keyLength / 32) DEFAULT_iterations)).
    cbn [bind]. rewrite Hempty. eexists. reflexivity.
Qed.

(** On the stand-in cipher: an envelope that names another algorithm,
    and the envelope of the empty plaintext. *)
Lemma C8_witness :
  (exists e,
     decrypt tag_cipher
       (JSON_stringify (VObj [("salt", VStr "a1"); ("iv", VStr "b2");
                              ("ciphertext", VStr "c3");
                              ("algorithm", VStr "XSalsa20")]%string))
       "secret" = Throw e)
  /\ (exists e,
        decrypt tag_cipher
          (JSON_stringify (VObj [("salt", VStr "a1"); ("iv", VStr "b2");
                                 ("ciphertext", VStr "secreta1b2");
                                 ("algorithm", VStr "AES-GCM")]%string))
          "secret" = Throw e).
Proof.
  destruct (C8_encryption_errors SmallWorld tag_cipher) as (_ & _ & Halg & Hempty).
  split.
  - eapply Halg; [apply envelope_parses | discriminate].
  - eapply Hempty; [apply envelope_parses | reflexivity..].
Defined.

(* ================================================================== *)
(** ** The claims about the storage layers *)

(** C9.  With [encrypt: true] the storage is built with the empty
    secret, and every [setItem] throws. *)
Theorem C9_boolean_encrypt_option :
  forall (W : Type) (lib : CryptoJS W) (lz : LZString) (host : Host W)
         (options : PersistPlusOptions W) (key value' : string) (w : W),
    encrypt_option options = Some (inl true) ->
    setItem (createPersistPlus lib lz host options) key value' w
    = Throw (JsError "Encryption secret is required").
Proof.
  intros W lib lz host options key value' w H.
  unfold createPersistPlus. rewrite H. reflexivity.
Qed.

(** A storage over [localStorage] configured with [encrypt: true]. *)
Lemma C9_witness :
  setItem (createPersistPlus tag_cipher tag_lz small_host
             {| name := "app"; storage := None;
                encrypt_option := Some (inl true);
                compress_option := None; migrate_option := None |})
          "app" "{}" (small_world [])
  = Throw (JsError "Encryption secret is required").
Proof.
  apply C9_boolean_encrypt_option. reflexivity.
Defined.

(** C3.  When the inner read returns a stored blob and the inverse
    transform of a layer throws, the read of the layer returns that
    blob unchanged; no read of a layer throws; when the inner read
    returns nothing, so does the read of the layer. *)
Theorem C3_read_falls_back_to_stored :
  forall (W : Type) (lib : CryptoJS W) (lz : LZString)
         (storage : StateStorage W) (secret' : string)
         (eo : option (bool + EncryptionOptions))
         (co : option (bool + CompressionOptions))
         (mo : MigrationOptions) (key : string) (w : W),
    (forall stored : string,
       getItem storage key w = Ok (IString stored) ->
       (forall e, decrypt lib stored secret' = Throw e ->
                  getItem (createEncryptedStorage lib storage secret' eo) key w
                  = Ok (IString stored))
       /\ (forall e, decompress lz stored = Throw e ->
                     getItem (createCompressedStorage lz storage co) key w
                     = Ok (IString stored))
       /\ (forall e, migrate_on_read mo stored = Throw e ->
                     getItem (createMigratingStorage storage mo) key w
                     = Ok (IString stored))
       /\ (forall e,
             getItem (createEncryptedStorage lib storage secret' eo) key w
             <> Throw e)
       /\ (forall e,
             getItem (createCompressedStorage lz storage co) key w <> Throw e)
       /\ (forall e,
             getItem (createMigratingStorage storage mo) key w <> Throw e))
    /\ (getItem storage key w = Ok INull ->
        getItem (createEncryptedStorage lib storage secret' eo) key w = Ok INull
        /\ getItem (createCompressedStorage lz storage co) key w = Ok INull
        /\ getItem (createMigratingStorage storage mo) key w = Ok INull).
Proof.
  intros W lib lz storage secret' eo co mo key w. split.
  - intros stored Hread.
    unfold createEncryptedStorage, createCompressedStorage,
      createMigratingStorage. cbn [getItem]. rewrite Hread. cbn [bind].
    repeat split.
    + intros e ->. reflexivity.
    + intros e ->. reflexivity.
    + intros e ->. reflexivity.
    + intro e. destruct (decrypt lib stored secret'); discriminate.
    + intro e. destruct (decompress lz stored); discriminate.
    + intro e. destruct (migrate_on_read mo stored); discriminate.
  - intro Hread.
    unfold createEncryptedStorage, createCompressedStorage,
      createMigratingStorage. cbn [getItem]. rewrite Hread. repeat split.
Qed.

(** A stored blob that is no envelope, no compressed text and no JSON
    comes back as it is from each of the three layers. *)
Lemma C3_witness :
  let inner := localStorageAdapter small_host in
  let w := small_world [("app", "not json")]%string in
  getItem (createEncryptedStorage tag_cipher inner "secret" None) "app" w
  = Ok (IString "not json")
  /\ getItem (createCompressedStorage tag_lz inner None) "app" w
     = Ok (IString "not json")
  /\ getItem (createMigratingStorage inner scenario_migrations) "app" w
     = Ok (IString "not json").
Proof.
  intros inner w.
  destruct (C3_read_falls_back_to_stored SmallWorld tag_cipher tag_lz inner
              "secret" None None scenario_migrations "app" w) as [H _].
  destruct (H "not json"%string ltac:(vm_compute; reflexivity))
    as (H1 & H2 & H3 & _).
  split; [eapply H1; vm_compute; reflexivity|].
  split; [eapply H2; vm_compute; reflexivity|].
  eapply H3; vm_compute; reflexivity.
Defined.

Lemma storedVersionOf_present (o : obj) (v : Z) :
  get o "_version" = VNum v -> storedVersionOf (VObj o) = Ok v.
Proof.
  intro H. unfold storedVersionOf. cbn [getProp bind]. rewrite H.
  unfold truthy. destruct (Z.eqb_spec v 0) as [->|Hne]; reflexivity.
Qed.

Lemma storedVersionOf_falsy (o : obj) :
  truthy (get o "_version") = false -> storedVersionOf (VObj o) = Ok 0.
Proof.
  intro H. unfold storedVersionOf. cbn [getProp bind]. now rewrite H.
Qed.

(** The text of a stamped JSON object parses back to it, and carries
    the stamp. *)
Lemma stamped_blob (o : obj) (v : Z) :
  is_json (VObj o) = true ->
  JSON_parse (JSON_stringify (VObj (put o "_version" (VNum v))))
  = Ok (VObj (put o "_version" (VNum v)))
  /\ blobVersion (JSON_stringify (VObj (put o "_version" (VNum v)))) = Ok v.
Proof.
  intro Ho.
  assert (E : JSON_parse (JSON_stringify (VObj (put o "_version" (VNum v))))
              = Ok (VObj (put o "_version" (VNum v)))).
  { apply JSON_parse_stringify. apply is_json_put; auto. }
  split; [exact E|]. unfold blobVersion. rewrite E. cbn [bind].
  apply storedVersionOf_present, get_put_same.
Qed.

(** C1, as amended.  A write of a value that parses as a JSON object
    hands the inner storage that object stamped with the configured
    version, whatever version is stored (and the value as it is, should
    that inner write throw); so the version written is at least a stored
    version [v] when the configured version is. *)
Theorem C1_write_stamps_configured_version :
  forall (W : Type) (storage : StateStorage W) (options : MigrationOptions)
         (key value' : string) (w : W) (o : obj),
    JSON_parse value' = Ok (VObj o) ->
    let blob :=
      JSON_stringify (VObj (put o "_version" (VNum (version options)))) in
    setItem (createMigratingStorage storage options) key value' w
    = try_catch (setItem storage key blob w) (setItem storage key value' w)
    /\ blobVersion blob = Ok (version options)
    /\ forall v : Z, v <= version options ->
         exists written, blobVersion blob = Ok written /\ v <= written.
Proof.
  intros W storage options key value' w o Hparse blob.
  assert (Hv : blobVersion blob = Ok (version options)).
  { apply stamped_blob. now apply JSON_parse_is_json with (s := value'). }
  split; [|split; [exact Hv|]].
  - unfold createMigratingStorage. cbn [setItem]. rewrite Hparse. reflexivity.
  - intros v Hle. exists (version options). split; [exact Hv | exact Hle].
Qed.

(** A layer configured with version 2 writes [{count: 7}] as
    [{count: 7, _version: 2}]. *)
Lemma C1_witness :
  let blob := JSON_stringify (VObj [("count", VNum 7); ("_version", VNum 2)]%string) in
  let inner := localStorageAdapter small_host in
  let value' := JSON_stringify (VObj [("count", VNum 7)]%string) in
  let w := small_world [] in
  setItem (createMigratingStorage inner
             {| version := 2; migrations := ∅ |}) "app" value' w
  = try_catch (setItem inner "app" blob w) (setItem inner "app" value' w)
  /\ blobVersion blob = Ok 2
  /\ forall v : Z, v <= 2 ->
       exists written, blobVersion blob = Ok written /\ v <= written.
Proof.
  intros blob inner value' w.
  apply (C1_write_stamps_configured_version SmallWorld inner
           {| version := 2; migrations := ∅ |} "app" value' w
           [("count", VNum 7)]%string).
  vm_compute. reflexivity.
Defined.

(** A layer configured with version 2 writes over a blob stored with
    version 5: the version stored afterwards is 2. *)
Lemma C1_counterexample :
  let inner := localStorageAdapter small_host in
  let layer := createMigratingStorage inner {| version := 2; migrations := ∅ |} in
  let before :=
    JSON_stringify (VObj [("count", VNum 5); ("_version", VNum 5)]%string) in
  let w := small_world [("app"%string, before)] in
  blobVersion before = Ok 5
  /\ (do w' <- setItem layer "app"
                  (JSON_stringify (VObj [("count", VNum 7)]%string)) w ;
      do after <- getItem inner "app" w' ;
      match after with
      | IString s => blobVersion s
      | _ => Throw TypeError
      end) = Ok 2.
Proof. vm_compute. split; reflexivity. Qed.

(* ================================================================== *)
(** ** The migration loop against its description *)

Lemma versions_after_S (v : Z) (count : nat) :
  versions_after v (S count) = (v + 1) :: versions_after (v + 1) count.
Proof.
  unfold versions_after. cbn [seq map]. f_equal; [lia|].
  rewrite <- seq_shift, map_map. apply map_ext. intro i. lia.
Qed.

Lemma versions_after_In (count : nat) (v n : Z) :
  In n (versions_after v count) <-> v < n <= v + Z.of_nat count.
Proof.
  revert v. induction count as [|count IH]; intro v.
  - simpl. lia.
  - rewrite versions_after_S. simpl. rewrite IH. lia.
Qed.


Lemma migrate_loop_pending (ms : gmap Z migration) (count : nat) :
  forall (v : Z) (x : value),
    migrate_loop ms (v + 1) count x
    = apply_all (map snd (omap (registered ms) (versions_after v count))) x.
Proof.
  induction count as [|count IH]; intros v x; [reflexivity|].
  rewrite versions_after_S. cbn [migrate_loop omap list_omap].
  unfold registered at 1. destruct (ms !! (v + 1)) as [f|]; cbn [mbind option_bind].
  - cbn [map snd apply_all]. destruct (f x); cbn [bind]; [apply IH | reflexivity..].
  - cbn [bind]. apply IH.
Qed.

Lemma pending_increasing (ms : gmap Z migration) (count : nat) :
  forall v : Z,
    StronglySorted Z.lt (map fst (omap (registered ms) (versions_after v count)))
    /\ Forall (fun n => v < n)
              (map fst (omap (registered ms) (versions_after v count))).
Proof.
  induction count as [|count IH]; intro v.
  - split; constructor.
  - rewrite versions_after_S. cbn [omap list_omap].
    destruct (IH (v + 1)) as [Hs Hall].
    assert (Hall' : Forall (fun n => v < n)
              (map fst (omap (registered ms) (versions_after (v + 1) count)))).
    { eapply List.Forall_impl; [|exact Hall]. simpl. intros; lia. }
    destruct (registered ms (v + 1)) as [[n f]|] eqn:E.
    + assert (n = v + 1) as ->.
      { unfold registered in E. destruct (ms !! (v + 1)); simpl in E; congruence. }
      cbn [map fst]. split; constructor; auto; lia.
    + split; assumption.
Qed.

Lemma pending_In (ms : gmap Z migration) (v target n : Z) (f : migration) :
  v <= target ->
  In (n, f) (pending ms v target) <-> v < n <= target /\ ms !! n = Some f.
Proof.
  intro Hle. unfold pending. rewrite <- list_elem_of_In, list_elem_of_omap.
  split.
  - intros (m & Hm & Hreg). apply list_elem_of_In, versions_after_In in Hm.
    unfold registered in Hreg. destruct (ms !! m) as [g|] eqn:E; [|discriminate].
    simpl in Hreg. injection Hreg as -> ->. split; [lia | exact E].
  - intros [Hn E]. exists n. split.
    + apply list_elem_of_In, versions_after_In. lia.
    + unfold registered. now rewrite E.
Qed.

Lemma apply_all_objects (fs : list migration) :
  List.Forall keeps_objects fs ->
  forall o : obj, exists o' : obj, apply_all fs (VObj o) = Ok (VObj o').
Proof.
  induction 1 as [|f fs Hf _ IH]; intro o; [now exists o|].
  destruct (Hf o) as (y & E). cbn [apply_all]. rewrite E. cbn [bind].
  apply IH.
Qed.

Lemma pending_keep_objects (ms : gmap Z migration) (v target : Z) :
  (forall n f, ms !! n = Some f -> keeps_objects f) ->
  List.Forall keeps_objects (map snd (pending ms v target)).
Proof.
  intro H. apply List.Forall_forall. intros f Hf.
  apply in_map_iff in Hf as ([n g] & <- & Hin). simpl.
  unfold pending in Hin. apply list_elem_of_In, list_elem_of_omap in Hin.
  destruct Hin as (m & _ & Hreg). unfold registered in Hreg.
  destruct (ms !! m) as [g'|] eqn:E; [|discriminate]. simpl in Hreg.
  injection Hreg as -> ->. eapply H; exact E.
Qed.

(** C4.  A read through the migrating layer of a stored JSON object
    whose version [v] (0 when the field is absent or falsy) is below the
    configured one applies the migrations registered for the versions
    [v+1] to the target, in strictly increasing order of version, leaves
    out a version that has none, and returns the text of the result
    stamped with the target version; read back, that text carries the
    target version.  The migrations are taken to turn objects into
    objects.  On the stored [{count: 5}], target 2, with the migrations
    "add createdAt" and "rename count to total", the read returns
    [{total: 5, createdAt: ..., _version: 2}]. *)
Theorem C4_read_migrates_in_order :
  (forall (W : Type) (storage : StateStorage W) (options : MigrationOptions)
          (key : string) (w : W) (stored : string) (o : obj) (v : Z),
     getItem storage key w = Ok (IString stored) ->
     JSON_parse stored = Ok (VObj o) ->
     get o "_version" = VNum v
     \/ (truthy (get o "_version") = false /\ v = 0) ->
     v < version options ->
     (forall n f, migrations options !! n = Some f -> keeps_objects f) ->
     let todo := pending (migrations options) v (version options) in
     StronglySorted Z.lt (map fst todo)
     /\ (forall n f,
           In (n, f) todo
           <-> v < n <= version options /\ migrations options !! n = Some f)
     /\ exists o' : obj,
          let stamped := put o' "_version" (VNum (version options)) in
          apply_all (map snd todo) (VObj o) = Ok (VObj o')
          /\ getItem (createMigratingStorage storage options) key w
             = Ok (IString (JSON_stringify (VObj stamped)))
          /\ get stamped "_version" = VNum (version options)
          /\ (is_json (VObj o') = true ->
              blobVersion (JSON_stringify (VObj stamped))
              = Ok (version options)))
  /\ getItem (createMigratingStorage (localStorageAdapter small_host)
                                     scenario_migrations)
             "app"
             (small_world
                [("app"%string,
                  JSON_stringify (VObj [("count", VNum 5)]%string))])
     = Ok (IString
             (JSON_stringify
                (VObj [("total", VNum 5); ("createdAt", VNum 1700000000000);
                       ("_version", VNum 2)]%string))).
Proof.
  split; [|vm_compute; reflexivity].
  intros W storage options key w stored o v Hread Hparse Hversion Hlt Hms todo.
  split; [apply pending_increasing|].
  split; [intros n f; apply pending_In; lia|].
  destruct (apply_all_objects (map snd todo)
              (pending_keep_objects _ _ _ Hms) o) as (o' & Ey).
  exists o'. intro stamped. split; [exact Ey|].
  split; [|split; [apply get_put_same | intro Ho'; now apply stamped_blob]].
  assert (Hv : storedVersionOf (VObj o) = Ok v).
  { destruct Hversion as [H|[H ->]];
      [now apply storedVersionOf_present | now apply storedVersionOf_falsy]. }
  unfold createMigratingStorage. cbn [getItem]. rewrite Hread. cbn [bind].
  unfold migrate_on_read. rewrite Hparse. cbn [bind]. rewrite Hv. cbn [bind].
  destruct (Z.ltb_spec v (version options)); [|lia].
  rewrite migrate_loop_pending. fold (pending (migrations options) v (version options)).
  fold todo. rewrite Ey. reflexivity.
Qed.

Lemma add_field_keeps_objects (k : string) (x : value) :
  keeps_objects (add_field k x).
Proof. intro o. eexists. reflexivity. Qed.

(** With migrations for the versions 1 and 3 only, a blob without
    version is brought to version 3: the missing migration for version 2
    blocks nothing. *)
Lemma C4_witness :
  let inner := localStorageAdapter small_host in
  let w := small_world
             [("app"%string, JSON_stringify (VObj [("count", VNum 5)]%string))] in
  exists o' : obj,
    apply_all [add_createdAt; add_field "migrated" (VBool true)]
              (VObj [("count", VNum 5)]%string) = Ok (VObj o')
    /\ getItem (createMigratingStorage inner gap_migrations) "app" w
       = Ok (IString (JSON_stringify (VObj (put o' "_version" (VNum 3)))))
    /\ get (put o' "_version" (VNum 3)) "_version" = VNum 3.
Proof.
  intros inner w.
  destruct (proj1 C4_read_migrates_in_order SmallWorld inner gap_migrations
              "app" w (JSON_stringify (VObj [("count", VNum 5)]%string))
              [("count", VNum 5)]%string 0)
    as (_ & _ & o' & Happly & Hread & Hversion & _).
  - vm_compute. reflexivity.
  - vm_compute. reflexivity.
  - right. split; reflexivity.
  - reflexivity.
  - intros n f H. cbn [gap_migrations migrations] in H.
    apply lookup_insert_Some in H as [[_ <-]|[_ H]].
    + apply add_field_keeps_objects.
    + apply lookup_singleton_Some in H as [_ <-].
      apply add_field_keeps_objects.
  - exists o'. split; [exact Happly|]. split; [exact Hread | exact Hversion].
Defined.

(* ================================================================== *)
(** ** Two further properties *)

Lemma put_get (o : obj) (k : string) :
  In k (keys o) -> put o k (get o k) = o.
Proof.
  induction o as [|[k' v'] o IH]; simpl; intro H; [contradiction|].
  destruct (String.eqb_spec k k') as [->|Hne]; [reflexivity|].
  rewrite IH; [reflexivity|]. destruct H as [H|H]; [congruence | exact H].
Qed.

Lemma merge_key_self (x : obj) (ig fo : list string) (key : string) :
  In key (keys x) ->
  (forall a, get x key = VObj a -> mergeStates a a None = Ok a) ->
  merge_key (fun a b => mergeStates a b None) x x ig fo x key = Ok x.
Proof.
  intros Hin Hrec. unfold merge_key.
  destruct (includes ig key); [reflexivity|].
  destruct (includes fo key); [now rewrite put_get|].
  destruct (get x key) as [| | | | | |a] eqn:E; cbn [isUndefined negb];
    try reflexivity; try (rewrite <- E, put_get by assumption; reflexivity).
  rewrite (Hrec a eq_refl). cbn [bind].
  rewrite <- E, put_get by assumption. reflexivity.
Qed.

Lemma for_each_fixed {A : Type} (step : A -> string -> result A)
  (l : list string) (a : A) :
  (forall key, In key l -> step a key = Ok a) -> for_each step l a = Ok a.
Proof.
  induction l as [|key l IH]; intro H; simpl; [reflexivity|].
  rewrite (H key) by now left. cbn [bind]. apply IH.
  intros k Hk. apply H. now right.
Qed.

(** X1.  Merging a state with itself gives the state back, whatever the
    options. *)
Theorem mergeStates_idempotent :
  forall (x : obj) (options : option MergeOptions),
    mergeStates x x options = Ok x.
Proof.
  intro x. remember (depth (VObj x)) as n eqn:Hn.
  assert (Hle : (depth (VObj x) <= n)%nat) by lia. clear Hn.
  revert x Hle. induction n as [|n IH]; intros x Hle options;
    [simpl in Hle; lia|].
  rewrite mergeStates_unfold. apply for_each_fixed. intros key Hkey.
  apply merge_key_self.
  - apply uniq_In in Hkey as [Hkey _]. apply in_app_or in Hkey. tauto.
  - intros a Ha. apply IH. apply depth_get in Ha. lia.
Qed.

(** X2.  The migration loop over the versions from [v + 1] is the loop
    over the first [n] of them followed by the loop over the next [m]:
    migrating in one go is migrating in steps, in increasing order. *)
Theorem migrate_loop_stepwise :
  forall (ms : gmap Z migration) (n m : nat) (v : Z) (x : value),
    migrate_loop ms (v + 1) (n + m) x
    = (do y <- migrate_loop ms (v + 1) n x ;
       migrate_loop ms (v + Z.of_nat n + 1) m y).
Proof.
  intros ms n m. induction n as [|n IH]; intros v x.
  - cbn [Nat.add migrate_loop bind]. f_equal. lia.
  - cbn [Nat.add migrate_loop].
    destruct (match ms !! (v + 1) with
              | Some f => f x
              | None => Ok x
              end) as [y| |]; cbn [bind]; [|reflexivity..].
    rewrite IH. replace (v + 1 + Z.of_nat n + 1) with (v + Z.of_nat (S n) + 1) by lia.
    reflexivity.
Qed.

(* ================================================================== *)
(** ** Encryption with options *)

(** What [encrypt] returns when it returns: an envelope around the
    ciphertext under the key derived with the configured parameters. *)
Lemma encrypt_envelope (W : Type) (lib : CryptoJS W) (data secret' : string)
  (options : EncryptionOptions) (w w' : W) (blob : string) :
  encrypt lib data secret' options w = Ok (blob, w') ->
  secret' <> ""%string
  /\ exists s i : string,
       blob
       = JSON_stringify
           (VObj [("salt", VStr s); ("iv", VStr i);
                  ("ciphertext",
                   VStr (AES_encrypt lib data
                           (PBKDF2 lib secret' s
                              (or_number (default DEFAULT_keyLength
                                                  (keyLength options)) 256 / 32)
                              (or_number (default DEFAULT_iterations
                                                  (iterations options)) 10000))
                           i));
                  ("algorithm",
                   VStr (algorithm_name
                           (default AES_GCM (algorithm options))))]%string).
Proof.
  unfold encrypt. intro H.
  destruct (String.eqb_spec secret' ""); [discriminate|]. split; [assumption|].
  destruct (if String.eqb (default ""%string (salt options)) ""
            then generateSalt lib w
            else (default ""%string (salt options), w)) as [s w1].
  destruct (if String.eqb (default ""%string (iv options)) ""
            then generateIV lib w1
            else (default ""%string (iv options), w1)) as [i w2].
  unfold deriveKey in H. destruct (_ mod 32 =? 0); [|discriminate].
  cbn [bind] in H. injection H as <- _. exists s, i. reflexivity.
Qed.

(** With a non-empty secret and a key length that is a multiple of 32,
    [encrypt] returns. *)
Lemma encrypt_returns (W : Type) (lib : CryptoJS W) (data secret' : string)
  (options : EncryptionOptions) (w : W) :
  secret' <> ""%string ->
  or_number (default DEFAULT_keyLength (keyLength options)) 256 mod 32 = 0 ->
  exists (blob : string) (w' : W),
    encrypt lib data secret' options w = Ok (blob, w').
Proof.
  intros Hs Hk. unfold encrypt.
  destruct (String.eqb_spec secret' ""); [contradiction|].
  destruct (if String.eqb (default ""%string (salt options)) ""
            then generateSalt lib w
            else (default ""%string (salt options), w)) as [s w1].
  destruct (if String.eqb (default ""%string (iv options)) ""
            then generateIV lib w1
            else (default ""%string (iv options), w1)) as [i w2].
  unfold deriveKey. rewrite Hk. change (0 =? 0) with true. cbn [bind].
  eexists _, _. reflexivity.
Qed.

Lemma default_key_options_spec (options : EncryptionOptions) :
  default_key_options options = true ->
  algorithm_name (default AES_GCM (algorithm options)) = "AES-GCM"%string
  /\ or_number (default DEFAULT_iterations (iterations options)) 10000
     = DEFAULT_iterations
  /\ or_number (default DEFAULT_keyLength (keyLength options)) 256
     = DEFAULT_keyLength.
Proof.
  unfold default_key_options. intro H.
  apply andb_prop in H as [H Hk]. apply andb_prop in H as [Ha Hi].
  apply Z.eqb_eq in Hk, Hi. repeat split; try assumption.
  destruct (algorithm options) as [[]|]; try reflexivity; discriminate.
Qed.

(** Under the default key parameters, [decrypt] opens what [encrypt]
    returned. *)
Lemma decrypt_encrypted (W : Type) (lib : CryptoJS W) (data secret' : string)
  (options : EncryptionOptions) (w w' : W) (blob : string) :
  cipher_inverts lib -> data <> ""%string ->
  default_key_options options = true ->
  encrypt lib data secret' options w = Ok (blob, w') ->
  decrypt lib blob secret' = Ok data.
Proof.
  intros Hlib Hd Ho E.
  destruct (default_key_options_spec options Ho) as (Ha & Hi & Hk).
  apply encrypt_envelope in E as (Hs & s & i & ->).
  rewrite Ha, Hi, Hk, decrypt_envelope by assumption.
  rewrite Hlib. cbn [bind].
  destruct (String.eqb_spec data ""); [contradiction | reflexivity].
Qed.

(** X3.  The round trip with options: for a non-empty plaintext and a
    non-empty secret, [decrypt] returns what [encrypt] was given
    whenever the options leave the algorithm at ['AES-GCM'], the
    iterations at 10000 and the key length at 256 (each absent, zero or
    that value), whatever salt and vector they pin. *)
Theorem encrypt_decrypt_with_options :
  forall (W : Type) (lib : CryptoJS W) (data secret' : string)
         (options : EncryptionOptions) (w : W),
    cipher_inverts lib ->
    secret' <> ""%string -> data <> ""%string ->
    default_key_options options = true ->
    exists (blob : string) (w' : W),
      encrypt lib data secret' options w = Ok (blob, w')
      /\ decrypt lib blob secret' = Ok data.
Proof.
  intros W lib data secret' options w Hlib Hs Hd Ho.
  destruct (encrypt_returns W lib data secret' options w Hs) as (blob & w' & E).
  { now rewrite (proj2 (proj2 (default_key_options_spec options Ho))). }
  exists blob, w'. split; [exact E|].
  now apply (decrypt_encrypted W lib data secret' options w w').
Qed.

Lemma encrypt_decrypt_with_options_witness :
  exists (blob : string) (w' : SmallWorld),
    encrypt tag_cipher "hello" "secret"
      {| algorithm := Some AES_GCM; secret := "other"; iterations := Some 0;
         keyLength := Some 256; salt := Some "5a17"; iv := None |}
      (small_world []) = Ok (blob, w')
    /\ decrypt tag_cipher blob "secret" = Ok "hello"%string.
Proof.
  apply encrypt_decrypt_with_options;
    [exact tag_cipher_inverts | discriminate | discriminate | reflexivity].
Defined.

(** X4.  An envelope written with the option [algorithm: 'XSalsa20'] is
    never decrypted: [encrypt] records the configured algorithm,
    [decrypt] throws on every algorithm but ['AES-GCM'], under every
    secret; so a storage created with that option returns the envelope
    itself on a read. *)
Theorem encrypt_XSalsa20_is_not_decrypted :
  forall (W : Type) (lib : CryptoJS W) (data secret' : string)
         (options : EncryptionOptions) (w w' : W) (blob : string),
    algorithm options = Some XSalsa20 ->
    encrypt lib data secret' options w = Ok (blob, w') ->
    (forall secret'' : string, exists e, decrypt lib blob secret'' = Throw e)
    /\ forall (storage : StateStorage W) (key : string) (w2 : W),
         getItem storage key w2 = Ok (IString blob) ->
         getItem (createEncryptedStorage lib storage secret'
                                         (Some (inr options))) key w2
         = Ok (IString blob).
Proof.
  intros W lib data secret' options w w' blob Ha E.
  assert (H : forall secret'' : string,
            exists e, decrypt lib blob secret'' = Throw e).
  { intro secret''. apply encrypt_envelope in E as (_ & s & i & ->).
    rewrite Ha. unfold decrypt.
    destruct (String.eqb secret'' ""); [eexists; reflexivity|].
    unfold decrypt_body. cbn [default from_option id algorithm_name].
    rewrite envelope_parses. eexists. reflexivity. }
  split; [exact H|].
  intros storage key w2 Hread. unfold createEncryptedStorage. cbn [getItem].
  rewrite Hread. cbn [bind]. destruct (H secret') as (e & ->). reflexivity.
Qed.

Lemma encrypt_XSalsa20_is_not_decrypted_witness :
  let options := {| algorithm := Some XSalsa20; secret := "secret";
                    iterations := None; keyLength := None;
                    salt := Some "5a17"; iv := Some "1f00" |} in
  let blob := JSON_stringify
                (VObj [("salt", VStr "5a17"); ("iv", VStr "1f00");
                       ("ciphertext", VStr "secret5a171f00hello");
                       ("algorithm", VStr "XSalsa20")]%string) in
  (forall secret'' : string, exists e, decrypt tag_cipher blob secret'' = Throw e)
  /\ forall (storage : StateStorage SmallWorld) (key : string) (w2 : SmallWorld),
       getItem storage key w2 = Ok (IString blob) ->
       getItem (createEncryptedStorage tag_cipher storage "secret"
                                       (Some (inr options))) key w2
       = Ok (IString blob).
Proof.
  intros options blob.
  apply (encrypt_XSalsa20_is_not_decrypted SmallWorld tag_cipher "hello" "secret"
           options (small_world []) (small_world []) blob); reflexivity.
Defined.

Lemma isEncryptedData_envelope (s i c a : string) :
  isEncryptedData
    (JSON_stringify (VObj [("salt", VStr s); ("iv", VStr i);
                           ("ciphertext", VStr c); ("algorithm", VStr a)]%string))
  = Ok true.
Proof. unfold isEncryptedData. rewrite envelope_parses. reflexivity. Qed.

(** X5.  [isEncryptedData] recognises everything [encrypt] returns,
    whatever the options, and throws on no input; a text that is no
    JSON, and one that is JSON for something else than an object, are
    not taken for encrypted data. *)
Theorem isEncryptedData_of_encrypt :
  (forall (W : Type) (lib : CryptoJS W) (data secret' : string)
          (options : EncryptionOptions) (w w' : W) (blob : string),
     encrypt lib data secret' options w = Ok (blob, w') ->
     isEncryptedData blob = Ok true)
  /\ (forall (data : string) (e : exn), isEncryptedData data <> Throw e)
  /\ (forall (data : string) (e : exn),
        JSON_parse data = Throw e -> isEncryptedData data = Ok false)
  /\ (forall (data : string) (v : value),
        JSON_parse data = Ok v -> (forall o, v <> VObj o) ->
        isEncryptedData data = Ok false).
Proof.
  repeat split.
  - intros W lib data secret' options w w' blob E.
    apply encrypt_envelope in E as (_ & s & i & ->).
    apply isEncryptedData_envelope.
  - intros data e. unfold isEncryptedData.
    destruct (JSON_parse data); discriminate.
  - intros data e H. unfold isEncryptedData. now rewrite H.
  - intros data v H Hv. unfold isEncryptedData. rewrite H. cbn [bind try_catch].
    destruct v; try reflexivity. now destruct (Hv props).
Qed.

Lemma isEncryptedData_of_encrypt_witness :
  isEncryptedData
    (JSON_stringify (VObj [("salt", VStr "a1b2"); ("iv", VStr "c3d4");
                           ("ciphertext", VStr "secreta1b2c3d4test");
                           ("algorithm", VStr "AES-GCM")]%string)) = Ok true
  /\ isEncryptedData "plain text" = Ok false
  /\ isEncryptedData "[1,2]" = Ok false.
Proof.
  destruct isEncryptedData_of_encrypt as (H1 & _ & H3 & H4).
  split; [|split].
  - apply (H1 SmallWorld tag_cipher "test"%string "secret"%string no_options
              (small_world [])
              {| sw_localStorage := Some ∅;
                 sw_random := ["e5f6"; "0718"]%string;
                 sw_clock := 1700000000000 |}).
    vm_compute. reflexivity.
  - apply (H3 _ SyntaxError). vm_compute. reflexivity.
  - apply (H4 _ (VArr [VNum 1; VNum 2])); [vm_compute; reflexivity|].
    intros o. discriminate.
Defined.

(* ================================================================== *)
(** ** Reading back what was written through a layer *)

Lemma memory_storage_keeps_writes : keeps_writes memory_storage.
Proof.
  intros name value' w. eexists. split; [reflexivity|].
  cbn [memory_storage getItem sw_localStorage default from_option id].
  now rewrite lookup_insert_eq.
Qed.

Lemma tag_lz_inverts : lz_inverts tag_lz.
Proof. intro data. reflexivity. Qed.

(** X6.  Over a storage that keeps what is written, the encrypted layer
    keeps every non-empty value written under a non-empty secret: a read
    after a write returns the plaintext.  This holds for the options
    [true], absent, and every options object that leaves the key
    parameters at their defaults. *)
Theorem encrypted_storage_keeps_writes :
  forall (W : Type) (lib : CryptoJS W) (storage : StateStorage W)
         (secret' : string) (eo : option (bool + EncryptionOptions))
         (key value' : string) (w : W),
    keeps_writes storage -> cipher_inverts lib ->
    secret' <> ""%string -> value' <> ""%string ->
    (forall o, eo = Some (inr o) -> default_key_options o = true) ->
    exists w' : W,
      setItem (createEncryptedStorage lib storage secret' eo) key value' w
      = Ok w'
      /\ getItem (createEncryptedStorage lib storage secret' eo) key w'
         = Ok (IString value').
Proof.
  intros W lib storage secret' eo key value' w Hst Hlib Hs Hv Heo.
  set (options :=
         match eo with
         | Some (inr o) => o
         | _ => {| algorithm := Some AES_GCM; secret := ""; iterations := None;
                   keyLength := None; salt := None; iv := None |}
         end).
  assert (Ho : default_key_options options = true).
  { subst options. destruct eo as [[b|o]|]; try reflexivity. now apply Heo. }
  destruct (encrypt_returns W lib value' secret' options w Hs)
    as (blob & w1 & E).
  { now rewrite (proj2 (proj2 (default_key_options_spec options Ho))). }
  destruct (Hst key blob w1) as (w' & Hset & Hget).
  exists w'. unfold createEncryptedStorage. cbn [setItem getItem].
  fold options. rewrite E. cbn [bind]. split; [exact Hset|].
  rewrite Hget. cbn [bind].
  rewrite (decrypt_encrypted W lib value' secret' options w w1 blob);
    auto.
Qed.

Lemma encrypted_storage_keeps_writes_witness :
  exists w' : SmallWorld,
    setItem (createEncryptedStorage tag_cipher memory_storage "secret"
                                    (Some (inl true)))
            "app" "{}" (small_world []) = Ok w'
    /\ getItem (createEncryptedStorage tag_cipher memory_storage "secret"
                                       (Some (inl true))) "app" w'
       = Ok (IString "{}").
Proof.
  apply encrypted_storage_keeps_writes;
    [exact memory_storage_keeps_writes | exact tag_cipher_inverts
     | discriminate | discriminate | discriminate].
Defined.

(** X7.  Over a storage that keeps what is written, a write through the
    compressed layer followed by a read returns the value when it is at
    least [minSize] long (1024 by default) and the decompressor undoes
    the compressor.  A shorter value is stored as it is and still goes
    through the decompressor on the read: it comes back as whatever the
    decompressor makes of it, and unchanged only when the decompressor
    returns [null] on it. *)
Theorem compressed_storage_reads_back :
  forall (lz : LZString) (W : Type) (storage : StateStorage W)
         (co : option (bool + CompressionOptions))
         (key value' : string) (w : W),
    keeps_writes storage ->
    let layer := createCompressedStorage lz storage co in
    let minSize' := match co with
                    | Some (inr o) => minSize o
                    | _ => None
                    end in
    exists w' : W,
      setItem layer key value' w = Ok w'
      /\ (lz_inverts lz -> shouldCompress value' minSize' = true ->
          getItem layer key w' = Ok (IString value'))
      /\ (shouldCompress value' minSize' = false ->
          getItem storage key w' = Ok (IString value')
          /\ getItem layer key w'
             = Ok (IString (default value' (decompressFromUTF16 lz value')))).
Proof.
  intros lz W storage co key value' w Hst layer minSize'.
  assert (Hmin : (o ← match co with
                      | Some (inr o) => Some o
                      | _ => None
                      end; minSize o) = minSize').
  { subst minSize'. destruct co as [[b|o]|]; reflexivity. }
  subst layer. unfold createCompressedStorage. cbn [setItem getItem].
  rewrite Hmin. destruct (shouldCompress value' minSize') eqn:Hc.
  - destruct (Hst key (compress lz value') w) as (w' & Hset & Hget).
    exists w'. split; [exact Hset|]. split; [|discriminate].
    intros Hlz _. rewrite Hget. cbn [bind]. unfold decompress, compress.
    rewrite Hlz. reflexivity.
  - destruct (Hst key value' w) as (w' & Hset & Hget).
    exists w'. split; [exact Hset|]. split; [discriminate|].
    intros _. split; [exact Hget|]. rewrite Hget. cbn [bind].
    unfold decompress. destruct (decompressFromUTF16 lz value'); reflexivity.
Qed.

(** On the stand-in compressor, which takes a leading [z] for its mark:
    the short value ["zebra"] is stored as it is and read as ["ebra"]. *)
Lemma compressed_storage_reads_back_witness :
  exists w' : SmallWorld,
    setItem (createCompressedStorage tag_lz memory_storage None)
            "app" "zebra" (small_world []) = Ok w'
    /\ getItem memory_storage "app" w' = Ok (IString "zebra")
    /\ getItem (createCompressedStorage tag_lz memory_storage None) "app" w'
       = Ok (IString "ebra").
Proof.
  destruct (compressed_storage_reads_back tag_lz SmallWorld memory_storage None
              "app" "zebra" (small_world []) memory_storage_keeps_writes)
    as (w' & Hset & _ & Hshort).
  exists w'. split; [exact Hset|]. apply Hshort. reflexivity.
Defined.

(** X8.  Over a storage that keeps what is written, a write of a JSON
    object through the migrating layer followed by a read through the
    same layer returns the object stamped with the configured version:
    the read finds the version current and runs no migration, whatever
    migrations are registered. *)
Theorem migrating_storage_reads_back :
  forall (W : Type) (storage : StateStorage W) (options : MigrationOptions)
         (key value' : string) (o : obj) (w : W),
    keeps_writes storage ->
    JSON_parse value' = Ok (VObj o) ->
    let layer := createMigratingStorage storage options in
    let blob :=
      JSON_stringify (VObj (put o "_version" (VNum (version options)))) in
    exists w' : W,
      setItem layer key value' w = Ok w'
      /\ getItem storage key w' = Ok (IString blob)
      /\ getItem layer key w' = Ok (IString blob).
Proof.
  intros W storage options key value' o w Hst Hparse layer blob.
  destruct (Hst key blob w) as (w' & Hset & Hget).
  exists w'. subst layer. unfold createMigratingStorage. cbn [setItem getItem].
  rewrite Hparse. cbn [bind setProp]. fold blob. rewrite Hset.
  split; [reflexivity|]. split; [exact Hget|].
  rewrite Hget. cbn [bind]. unfold migrate_on_read.
  destruct (stamped_blob o (version options)) as [Eparse _].
  { now apply JSON_parse_is_json with (s := value'). }
  fold blob in Eparse. rewrite Eparse. cbn [bind].
  rewrite (storedVersionOf_present _ (version options)) by apply get_put_same.
  cbn [bind]. rewrite Z.ltb_irrefl. reflexivity.
Qed.

(** A layer whose only migration throws: the read after the write does
    not call it. *)
Lemma migrating_storage_reads_back_witness :
  let options := {| version := 1;
                    migrations := {[ 1 := fun _ => Throw TypeError ]} |} in
  let layer := createMigratingStorage memory_storage options in
  let blob := JSON_stringify (VObj [("count", VNum 7); ("_version", VNum 1)]%string) in
  exists w' : SmallWorld,
    setItem layer "app" (JSON_stringify (VObj [("count", VNum 7)]%string))
            (small_world []) = Ok w'
    /\ getItem memory_storage "app" w' = Ok (IString blob)
    /\ getItem layer "app" w' = Ok (IString blob).
Proof.
  intros options layer blob.
  apply (migrating_storage_reads_back SmallWorld memory_storage options "app"
           (JSON_stringify (VObj [("count", VNum 7)]%string))
           [("count", VNum 7)]%string (small_world [])
           memory_storage_keeps_writes).
  vm_compute. reflexivity.
Defined.

(* ================================================================== *)
(** ** The layers composed by [createPersistPlus] *)

(** [decrypt] on a text that parses to an object with the four fields
    of an envelope, whatever else the object holds. *)
Lemma decrypt_parsed (W : Type) (lib : CryptoJS W) (blob secret' : string)
  (o : obj) (s i c : string) :
  secret' <> ""%string ->
  JSON_parse blob = Ok (VObj o) ->
  get o "salt" = VStr s -> get o "iv" = VStr i ->
  get o "ciphertext" = VStr c -> get o "algorithm" = VStr "AES-GCM" ->
  decrypt lib blob secret'
  = try_catch
      (do result <- AES_decrypt lib c
                      (PBKDF2 lib secret' s (DEFAULT_keyLength / 32)
                              DEFAULT_iterations) i ;
       if String.eqb result ""
       then Throw (JsError "Failed to decrypt data. Check your secret key.")
       else Ok result)
      (Throw (JsError "Failed to decrypt data. Check your secret key.")).
Proof.
  intros Hs Hparse Hsalt Hiv Hc Ha. unfold decrypt, decrypt_body.
  destruct (String.eqb_spec secret' ""); [contradiction|].
  rewrite Hparse. cbn [bind getProp]. rewrite Hsalt, Hiv, Hc, Ha.
  reflexivity.
Qed.

(** X9.  With [encrypt] and [migrate] configured, [createPersistPlus]
    puts the encrypted layer outermost: a write encrypts the value
    first, and the migrating layer stamps [_version] on the encryption
    envelope.  What the base storage holds is an envelope that carries
    the configured version; a read returns the value as it was written,
    without a [_version] of its own. *)
Theorem persist_plus_stamps_the_envelope :
  forall (W : Type) (lib : CryptoJS W) (lz : LZString) (host : Host W)
         (adapter : StateStorage W) (eo : EncryptionOptions)
         (mo : MigrationOptions) (name' key value' : string) (w : W),
    keeps_writes adapter -> cipher_inverts lib ->
    secret eo <> ""%string -> value' <> ""%string ->
    default_key_options eo = true ->
    let store :=
      createPersistPlus lib lz host
        {| name := name'; storage := Some (inr adapter);
           encrypt_option := Some (inr eo); compress_option := None;
           migrate_option := Some mo |} in
    exists (w' : W) (stored : string),
      setItem store key value' w = Ok w'
      /\ getItem adapter key w' = Ok (IString stored)
      /\ isEncryptedData stored = Ok true
      /\ blobVersion stored = Ok (version mo)
      /\ getItem store key w' = Ok (IString value').
Proof.
  intros W lib lz host adapter eo mo name' key value' w Hst Hlib Hs Hv Ho store.
  destruct (default_key_options_spec eo Ho) as (Ha & Hi & Hk).
  destruct (encrypt_returns W lib value' (secret eo) eo w Hs)
    as (blob & w1 & E); [now rewrite Hk|].
  destruct (encrypt_envelope W lib _ _ _ _ _ _ E) as (_ & s & i & Hblob).
  rewrite Ha, Hi, Hk in Hblob.
  set (c := AES_encrypt lib value'
              (PBKDF2 lib (secret eo) s (DEFAULT_keyLength / 32)
                      DEFAULT_iterations) i) in Hblob.
  set (envelope := [("salt", VStr s); ("iv", VStr i); ("ciphertext", VStr c);
                    ("algorithm", VStr "AES-GCM")]%string) in Hblob.
  set (stamped := put envelope "_version" (VNum (version mo))).
  assert (Hparse : JSON_parse blob = Ok (VObj envelope)).
  { rewrite Hblob. apply envelope_parses. }
  destruct (stamped_blob envelope (version mo) eq_refl) as [Estamped Eversion].
  fold stamped in Estamped, Eversion.
  destruct (Hst key (JSON_stringify (VObj stamped)) w1) as (w' & Hset & Hget).
  exists w', (JSON_stringify (VObj stamped)).
  assert (Hwrite : setItem store key value' w = Ok w').
  { subst store. unfold createPersistPlus, createEncryptedStorage,
      createMigratingStorage.
    cbn [storage migrate_option compress_option encrypt_option setItem].
    rewrite E. cbn [bind]. rewrite Hparse. cbn [bind setProp].
    fold stamped. rewrite Hset. reflexivity. }
  split; [exact Hwrite|]. split; [exact Hget|].
  split; [|split; [exact Eversion|]].
  - unfold isEncryptedData. rewrite Estamped. reflexivity.
  - subst store. unfold createPersistPlus, createEncryptedStorage,
      createMigratingStorage.
    cbn [storage migrate_option compress_option encrypt_option getItem].
    rewrite Hget. cbn [bind]. unfold migrate_on_read.
    rewrite Estamped. cbn [bind].
    rewrite (storedVersionOf_present _ (version mo)) by apply get_put_same.
    cbn [bind]. rewrite Z.ltb_irrefl. cbn [try_catch bind].
    rewrite (decrypt_parsed W lib _ (secret eo) stamped s i c Hs Estamped)
      by reflexivity.
    subst c. rewrite Hlib. cbn [bind].
    destruct (String.eqb_spec value' ""); [contradiction | reflexivity].
Qed.

Lemma persist_plus_stamps_the_envelope_witness :
  let store :=
    createPersistPlus tag_cipher tag_lz small_host
      {| name := "app"; storage := Some (inr memory_storage);
         encrypt_option :=
           Some (inr {| algorithm := None; secret := "secret";
                        iterations := None; keyLength := None;
                        salt := None; iv := None |});
         compress_option := None;
         migrate_option := Some scenario_migrations |} in
  exists (w' : SmallWorld) (stored : string),
    setItem store "app" "{}" (small_world []) = Ok w'
    /\ getItem memory_storage "app" w' = Ok (IString stored)
    /\ isEncryptedData stored = Ok true
    /\ blobVersion stored = Ok 2
    /\ getItem store "app" w' = Ok (IString "{}").
Proof.
  apply (persist_plus_stamps_the_envelope SmallWorld tag_cipher tag_lz small_host
           memory_storage
           {| algorithm := None; secret := "secret"; iterations := None;
              keyLength := None; salt := None; iv := None |}
           scenario_migrations "app" "app" "{}" (small_world []));
    [exact memory_storage_keeps_writes | exact tag_cipher_inverts
     | discriminate | discriminate | reflexivity].
Defined.

(** X10.  Through every combination of layers, [createPersistPlus]
    forwards [removeItem] to the base storage as it is, and a name under
    which the base storage holds nothing reads as [null]; so does every
    name when the base is [localStorage] and there is none.  A base
    storage that answers with a promise reads as [null] as soon as one
    layer is configured. *)
Theorem persist_plus_passes_null_and_removal :
  forall (W : Type) (lib : CryptoJS W) (lz : LZString) (host : Host W)
         (options : PersistPlusOptions W) (key : string) (w : W),
    let store := createPersistPlus lib lz host options in
    let base := base_of host options in
    removeItem store key w = removeItem base key w
    /\ (getItem base key w = Ok INull -> getItem store key w = Ok INull)
    /\ (localStorage host w = None ->
        (forall adapter, storage options <> Some (inr adapter)) ->
        getItem store key w = Ok INull)
    /\ (getItem base key w = Ok IPromise ->
        migrate_option options <> None
        \/ (exists c, compress_option options = Some c /\ c <> inl false)
        \/ (exists e, encrypt_option options = Some e /\ e <> inl false) ->
        getItem store key w = Ok INull).
Proof.
  intros W lib lz host options key w store base.
  assert (Hnull : getItem base key w = Ok INull -> getItem store key w = Ok INull).
  { intro H. subst store base. unfold createPersistPlus, base_of in *.
    destruct (storage options) as [[n|adapter]|];
      destruct (migrate_option options) as [mo|];
      destruct (compress_option options) as [[[]|co]|];
      destruct (encrypt_option options) as [[[]|eo]|];
      cbn [createEncryptedStorage createCompressedStorage
           createMigratingStorage getItem] in *;
      repeat (rewrite H; cbn [bind]); reflexivity. }
  split; [|split; [exact Hnull|split]].
  - subst store base. unfold createPersistPlus, base_of.
    destruct (storage options) as [[n|adapter]|];
      destruct (migrate_option options) as [mo|];
      destruct (compress_option options) as [[[]|co]|];
      destruct (encrypt_option options) as [[[]|eo]|]; reflexivity.
  - intros Hls Hst. apply Hnull. subst base. unfold base_of.
    destruct (storage options) as [[n|adapter]|];
      [|now destruct (Hst adapter)|];
      cbn [localStorageAdapter getItem]; now rewrite Hls.
  - intros H Hlayer. subst store base. unfold createPersistPlus, base_of in *.
    destruct (storage options) as [[n|adapter]|];
      destruct (migrate_option options) as [mo|];
      destruct (compress_option options) as [[[]|co]|];
      destruct (encrypt_option options) as [[[]|eo]|];
      cbn [createEncryptedStorage createCompressedStorage
           createMigratingStorage getItem] in *;
      repeat (rewrite H; cbn [bind]); try reflexivity;
      exfalso;
      destruct Hlayer as [Hm|[(c & Hc & Hne)|(e & He & Hne)]];
      try congruence.
Qed.

(** A world without [localStorage] and all three layers configured. *)
Lemma persist_plus_passes_null_and_removal_witness :
  getItem (createPersistPlus tag_cipher tag_lz small_host
             {| name := "app"; storage := None;
                encrypt_option :=
                  Some (inr {| algorithm := None; secret := "secret";
                               iterations := None; keyLength := None;
                               salt := None; iv := None |});
                compress_option := Some (inl true);
                migrate_option := Some scenario_migrations |})
          "app"
          {| sw_localStorage := None; sw_random := []; sw_clock := 0 |}
  = Ok INull.
Proof.
  set (options := {| name := "app"%string; storage := None;
                     encrypt_option :=
                       Some (inr {| algorithm := None; secret := "secret";
                                    iterations := None; keyLength := None;
                                    salt := None; iv := None |});
                     compress_option := Some (inl true);
                     migrate_option := Some scenario_migrations |}).
  destruct (persist_plus_passes_null_and_removal SmallWorld tag_cipher tag_lz
              small_host options "app"
              {| sw_localStorage := None; sw_random := []; sw_clock := 0 |})
    as (_ & _ & H & _).
  apply H; [reflexivity | discriminate].
Defined.

(* ================================================================== *)
(** ** [migrateState] against the migrating layer *)

Lemma storedVersionOf_object (o : obj) (v : Z) :
  get o "_version" = VNum v \/ (truthy (get o "_version") = false /\ v = 0) ->
  storedVersionOf (VObj o) = Ok v.
Proof.
  intros [H|[H ->]];
    [now apply storedVersionOf_present | now apply storedVersionOf_falsy].
Qed.

(** X11.  [migrateState] reads the stored blob like the migrating layer
    does and runs the same migrations, those registered for the versions
    above the stored one up to [toVersion], in increasing order; but it
    returns the migrated state itself, with the [_version] the
    migrations left, where the layer stamps [toVersion] and returns
    text.  A state that is already at [toVersion] or above is returned
    as parsed; when nothing is stored the result is [null]; a stored
    text that is no JSON, and one on which a migration throws, is
    returned as it is. *)
Theorem migrateState_against_the_layer :
  forall (W : Type) (storage : StateStorage W) (key : string) (toVersion : Z)
         (ms : gmap Z migration) (w : W),
    (getItem storage key w = Ok INull ->
     migrateState storage key toVersion ms w = Ok MNull)
    /\ (forall (stored : string) (e : exn),
          getItem storage key w = Ok (IString stored) ->
          JSON_parse stored = Throw e ->
          migrateState storage key toVersion ms w = Ok (MStored stored))
    /\ (forall (stored : string) (o : obj) (v : Z),
          getItem storage key w = Ok (IString stored) ->
          JSON_parse stored = Ok (VObj o) ->
          get o "_version" = VNum v
          \/ (truthy (get o "_version") = false /\ v = 0) ->
          (toVersion <= v ->
           migrateState storage key toVersion ms w = Ok (MState (VObj o)))
          /\ (v < toVersion ->
              let todo := map snd (pending ms v toVersion) in
              migrateState storage key toVersion ms w
              = try_catch (do m <- apply_all todo (VObj o) ; Ok (MState m))
                          (Ok (MStored stored))
              /\ getItem (createMigratingStorage storage
                            {| version := toVersion; migrations := ms |}) key w
                 = try_catch
                     (do m <- apply_all todo (VObj o) ;
                      do stamped <- setProp m "_version" (VNum toVersion) ;
                      Ok (IString (JSON_stringify stamped)))
                     (Ok (IString stored)))).
Proof.
  intros W storage key toVersion ms w. split; [|split].
  - intro H. unfold migrateState. now rewrite H.
  - intros stored e H Hparse. unfold migrateState. rewrite H. cbn [bind].
    now rewrite Hparse.
  - intros stored o v H Hparse Hv. apply storedVersionOf_object in Hv.
    split.
    + intro Hle. unfold migrateState. rewrite H. cbn [bind].
      rewrite Hparse. cbn [bind]. rewrite Hv. cbn [bind].
      destruct (Z.ltb_spec v toVersion); [lia | reflexivity].
    + intros Hlt todo. split.
      * unfold migrateState. rewrite H. cbn [bind].
        rewrite Hparse. cbn [bind]. rewrite Hv. cbn [bind].
        destruct (Z.ltb_spec v toVersion); [|lia].
        rewrite migrate_loop_pending. fold (pending ms v toVersion).
        reflexivity.
      * unfold createMigratingStorage. cbn [getItem]. rewrite H. cbn [bind].
        unfold migrate_on_read. cbn [version migrations].
        rewrite Hparse. cbn [bind]. rewrite Hv. cbn [bind].
        destruct (Z.ltb_spec v toVersion); [|lia].
        rewrite migrate_loop_pending. fold (pending ms v toVersion).
        fold todo. destruct (apply_all todo (VObj o)) as [m| |];
          cbn [bind]; try reflexivity.
        destruct (setProp m "_version" (VNum toVersion)); reflexivity.
Qed.

(** The stored [{count: 5}] and the migrations for the versions 1 and
    3: [migrateState] returns the migrated object without [_version],
    the layer its text with [_version: 3]. *)
Lemma migrateState_against_the_layer_witness :
  let w := small_world
             [("app"%string, JSON_stringify (VObj [("count", VNum 5)]%string))] in
  let m := [("count", VNum 5); ("createdAt", VNum 1700000000000);
            ("migrated", VBool true)]%string in
  migrateState memory_storage "app" 3 (migrations gap_migrations) w
  = Ok (MState (VObj m))
  /\ getItem (createMigratingStorage memory_storage gap_migrations) "app" w
     = Ok (IString (JSON_stringify (VObj (m ++ [("_version"%string, VNum 3)])))).
Proof.
  intros w m.
  destruct (migrateState_against_the_layer SmallWorld memory_storage "app" 3
              (migrations gap_migrations) w) as (_ & _ & H).
  destruct (H (JSON_stringify (VObj [("count", VNum 5)]%string))
              [("count", VNum 5)]%string 0) as [_ H3].
  - vm_compute. reflexivity.
  - vm_compute. reflexivity.
  - right. split; reflexivity.
  - destruct (H3 ltac:(reflexivity)) as [E1 E2]. split.
    + rewrite E1. vm_compute. reflexivity.
    + change gap_migrations
        with {| version := 3; migrations := migrations gap_migrations |}.
      rewrite E2. vm_compute. reflexivity.
Defined.

(* ================================================================== *)
(** ** The helpers of the compression module *)

(** X12.  [decompressObject] undoes [compressObject] on every JSON
    value, when the decompressor undoes the compressor. *)
Theorem decompressObject_compressObject :
  forall (lz : LZString) (v : value),
    lz_inverts lz -> is_json v = true ->
    exists c : string,
      compressObject lz v = Ok c /\ decompressObject lz c = Ok v.
Proof.
  intros lz v Hlz Hv. exists (compress lz (JSON_stringify v)). split.
  - unfold compressObject. destruct v; try reflexivity. discriminate.
  - unfold decompressObject, decompress, compress. rewrite Hlz. cbn [bind].
    now apply JSON_parse_stringify.
Qed.

(** The object of the test suite. *)
Lemma decompressObject_compressObject_witness :
  let v := VObj [("name", VStr "John"); ("age", VNum 30);
                 ("active", VBool true);
                 ("tags", VArr [VStr "a"; VStr "b"; VStr "c"])]%string in
  exists c : string,
    compressObject tag_lz v = Ok c /\ decompressObject tag_lz c = Ok v.
Proof.
  intro v. apply decompressObject_compressObject;
    [exact tag_lz_inverts | reflexivity].
Defined.

Lemma smartCompress_cases (lz : LZString) (data : string)
  (options : CompressionOptions) :
  smartCompress lz data options = data
  \/ (smartCompress lz data options = compress lz data
      /\ (String.length (compress lz data) < String.length data)%nat).
Proof.
  unfold smartCompress.
  destruct (shouldCompress data (minSize options)); [|now left]. cbn [negb].
  destruct (Nat.ltb_spec (String.length (compress lz data))
                         (String.length data)) as [Hs|Hs];
    [right; split; [reflexivity | exact Hs] | now left].
Qed.

(** X13.  [smartCompress] never returns a text longer than its input:
    it returns the input or its compressed form, the latter only when
    that is strictly shorter; an input below [minSize] (1024 by
    default) is returned as it is. *)
Theorem smartCompress_never_longer :
  forall (lz : LZString) (data : string) (options : CompressionOptions),
    (String.length (smartCompress lz data options) <= String.length data)%nat
    /\ (smartCompress lz data options = data
        \/ (smartCompress lz data options = compress lz data
            /\ (String.length (compress lz data) < String.length data)%nat))
    /\ (Z.of_nat (String.length data) < default 1024 (minSize options) ->
        smartCompress lz data options = data).
Proof.
  intros lz data options. split; [|split].
  - destruct (smartCompress_cases lz data options) as [->|[-> H]]; lia.
  - apply smartCompress_cases.
  - intro Hlt. unfold smartCompress, shouldCompress.
    destruct (Z.leb_spec (default 1024 (minSize options))
                         (Z.of_nat (String.length data))); [lia | reflexivity].
Qed.

Lemma smartCompress_never_longer_witness :
  smartCompress tag_lz "short" {| minSize := None |} = "short"%string.
Proof.
  apply smartCompress_never_longer. vm_compute. reflexivity.
Defined.

Lemma str_includes_head (data pattern : string) (a : ascii) :
  str_includes data (String a pattern) = true -> In a (chars data).
Proof.
  induction data as [|c data IH]; cbn [str_includes String.prefix].
  - discriminate.
  - intro H. apply orb_prop in H as [H|H].
    + destruct (ascii_dec a c) as [->|]; [now left | discriminate].
    + right. now apply IH.
Qed.

(** The test for the gzip mark adds nothing: a text that holds the mark
    holds a control character, and is either longer than 20 or shorter
    than 100. *)
Lemma isCompressed_spec (data : string) :
  isCompressed data
  = ((20 <? String.length data)%nat && has_control data)
    || (String.length data <? 100)%nat.
Proof.
  unfold isCompressed.
  destruct (str_includes data gzip_magic) eqn:E; [|reflexivity].
  apply str_includes_head in E.
  assert (Hc : has_control data = true).
  { unfold has_control. apply existsb_exists. eexists. split; [exact E|].
    reflexivity. }
  rewrite Hc, andb_true_r. cbn [orb].
  destruct (Nat.ltb_spec 20 (String.length data)); [reflexivity|].
  destruct (Nat.ltb_spec (String.length data) 100); [reflexivity | lia].
Qed.

(** X14.  [smartDecompress] does not always undo [smartCompress]: it
    decompresses only a text that is shorter than 100 characters or
    holds a control character (and is longer than 20).  When
    [smartCompress] has chosen the compressed form [c] of [data],
    [smartDecompress(c)] is [data] in those cases, and [c] itself,
    still compressed, when [c] has 100 characters or more and no
    control character. *)
Theorem smartDecompress_after_smartCompress :
  forall (lz : LZString) (data : string) (options : CompressionOptions),
    lz_inverts lz ->
    let c := smartCompress lz data options in
    c <> data ->
    ((String.length c < 100)%nat -> smartDecompress lz c = Ok data)
    /\ ((20 < String.length c)%nat -> has_control c = true ->
        smartDecompress lz c = Ok data)
    /\ ((100 <= String.length c)%nat -> has_control c = false ->
        smartDecompress lz c = Ok c).
Proof.
  intros lz data options Hlz c Hne.
  assert (Hc : c = compress lz data).
  { destruct (smartCompress_cases lz data options) as [H|[H _]];
      [contradiction | exact H]. }
  assert (Hd : decompress lz c = Ok data).
  { rewrite Hc. unfold decompress, compress. now rewrite Hlz. }
  unfold smartDecompress. rewrite isCompressed_spec, Hd.
  split; [|split].
  - intro H. destruct (Nat.ltb_spec (String.length c) 100); [|lia].
    now rewrite orb_true_r.
  - intros H Hctl. rewrite Hctl.
    destruct (Nat.ltb_spec 20 (String.length c)); [reflexivity | lia].
  - intros H Hctl. rewrite Hctl, andb_false_r.
    destruct (Nat.ltb_spec (String.length c) 100); [lia | reflexivity].
Qed.

Lemma word_lz_inverts (word short : string) : lz_inverts (word_lz word short).
Proof.
  intro data. cbn [word_lz compressToUTF16 decompressFromUTF16].
  destruct (String.eqb_spec data word) as [->|Hne]; reflexivity.
Qed.

(** A text of 200 characters whose compressed form has 121 characters,
    none of them a control character: [smartCompress] returns the
    compressed form, and [smartDecompress] returns that form as it
    is. *)
Lemma smartDecompress_after_smartCompress_witness :
  let lz := word_lz (replicate_char 200 "a") (replicate_char 120 "b") in
  let data := replicate_char 200 "a" in
  let c := smartCompress lz data {| minSize := Some 100 |} in
  c = String "w" (replicate_char 120 "b")
  /\ smartDecompress lz c = Ok c.
Proof.
  intros lz data c. split; [vm_compute; reflexivity|].
  apply (smartDecompress_after_smartCompress lz data {| minSize := Some 100 |}).
  - apply word_lz_inverts.
  - vm_compute. discriminate.
  - vm_compute. lia.
  - vm_compute. reflexivity.
Defined.

(* ================================================================== *)
(** ** Equality of states and the resolver *)

(** Two JSON values with the same text are the same value. *)
Lemma JSON_stringify_injective (a b : value) :
  is_json a = true -> is_json b = true ->
  JSON_stringify a = JSON_stringify b -> a = b.
Proof.
  intros Ha Hb E. apply JSON_parse_stringify in Ha, Hb.
  rewrite E in Ha. congruence.
Qed.

(** X15.  On JSON states, [statesEqual] holds exactly of a state and
    itself, the order of the properties included: two states with the
    same properties in another order are not equal.  A property whose
    value is [undefined] does not count. *)
Theorem statesEqual_exact :
  (forall x y : obj,
     is_json (VObj x) = true -> is_json (VObj y) = true ->
     (statesEqual x y = true <-> x = y))
  /\ statesEqual [("a", VNum 1); ("b", VNum 2)]%string
                 [("b", VNum 2); ("a", VNum 1)]%string = false
  /\ (forall (x : obj) (k : string),
        statesEqual ((k, VUndefined) :: x) x = true).
Proof.
  split; [|split].
  - intros x y Hx Hy. unfold statesEqual. rewrite String.eqb_eq. split.
    + intro E. apply JSON_stringify_injective in E; congruence.
    + now intros ->.
  - reflexivity.
  - intros x k. unfold statesEqual. apply String.eqb_eq. reflexivity.
Qed.

Lemma statesEqual_exact_witness :
  statesEqual [("a", VNum 1); ("b", VArr [VNull])]%string
              [("a", VNum 1); ("b", VArr [VNull])]%string = true.
Proof.
  apply (proj1 statesEqual_exact); reflexivity.
Defined.

(** X16.  Whenever [resolveWithResult] returns, its [hadConflict] is the
    negation of [statesEqual] on the two states, its [timestamp] is the
    time at which it returns, and, when the states are not equal, its
    [strategy] is the current strategy of the resolver. *)
Theorem resolveWithResult_flags :
  forall (W : Type) (now : W -> Z) (Date_parse : string -> option Z)
         (r : Resolver W) (localState remoteState : obj) (w w' : W)
         (res : SyncResult),
    resolveWithResult now Date_parse r localState remoteState w = Ok (res, w') ->
    hadConflict res = negb (statesEqual localState remoteState)
    /\ timestamp res = now w'
    /\ (statesEqual localState remoteState = false ->
        strategy_used res = currentStrategy r).
Proof.
  intros W now Date_parse r l rm w w' res. unfold resolveWithResult, statesEqual.
  destruct (String.eqb (JSON_stringify (VObj l)) (JSON_stringify (VObj rm))).
  - intro H. injection H as <- <-. repeat split. discriminate.
  - match goal with
    | |- bind ?m _ = _ -> _ => destruct m as [[resolved w1]| |]
    end; cbn [bind]; try discriminate.
    intro H. injection H as <- <-. repeat split.
Qed.

Lemma resolveWithResult_flags_witness :
  let r : Resolver SmallWorld := createConflictResolver
             {| fields := {| strategy := ServerWins; ignoreKeys := None;
                             forceLWWKeys := None; timestampKey := None |};
                onConflict := None; mergeStrategy := None |} in
  let w := small_world [] in
  let res := {| state := [("a", VNum 2)]%string; hadConflict := true;
                strategy_used := ServerWins; timestamp := sw_clock w |} in
  hadConflict res
  = negb (statesEqual [("a", VNum 1)]%string [("a", VNum 2)]%string)
  /\ timestamp res = sw_clock w
  /\ (statesEqual [("a", VNum 1)]%string [("a", VNum 2)]%string = false ->
      strategy_used res = currentStrategy r).
Proof.
  intros r w res.
  apply (resolveWithResult_flags SmallWorld sw_clock no_dates r
           [("a", VNum 1)]%string [("a", VNum 2)]%string w w res).
  reflexivity.
Defined.

(** X17.  The strategies that run no caller's code.  Under
    ['client-wins'] the resolver returns the local state on every
    input, under ['server-wins'] the remote state whenever the two
    states are not equal, both without touching the world.  Under
    ['custom'] without a handler it resolves as under
    ['last-write-wins']. *)
Theorem resolve_fixed_strategies :
  forall (W : Type) (now : W -> Z) (Date_parse : string -> option Z)
         (r : Resolver W) (localState remoteState : obj) (w : W),
    (currentStrategy r = ClientWins ->
     resolve now Date_parse r localState remoteState w = Ok (localState, w))
    /\ (currentStrategy r = ServerWins ->
        statesEqual localState remoteState = false ->
        resolve now Date_parse r localState remoteState w
        = Ok (remoteState, w))
    /\ (currentStrategy r = Custom -> customHandler r = None ->
        resolve now Date_parse r localState remoteState w
        = resolve now Date_parse (setStrategy r LastWriteWins)
                  localState remoteState w).
Proof.
  intros W now Date_parse r l rm w.
  unfold resolve, resolveWithResult, statesEqual. split; [|split].
  - intro Hs. rewrite Hs.
    destruct (String.eqb (JSON_stringify (VObj l)) (JSON_stringify (VObj rm)));
      reflexivity.
  - intros Hs Hne. rewrite Hs, Hne. reflexivity.
  - intros Hs Hh. cbn [setStrategy currentStrategy customHandler options_of].
    rewrite Hs, Hh.
    destruct (String.eqb (JSON_stringify (VObj l)) (JSON_stringify (VObj rm)));
      [reflexivity|].
    destruct (lastWriteWins Date_parse l rm _); reflexivity.
Qed.

Lemma resolve_fixed_strategies_witness :
  let r : Resolver SmallWorld := createConflictResolver
             {| fields := {| strategy := Custom; ignoreKeys := None;
                             forceLWWKeys := None; timestampKey := None |};
                onConflict := None; mergeStrategy := None |} in
  let l := [("a", VNum 1); ("_updatedAt", VNum 100)]%string in
  let rm := [("a", VNum 2); ("_updatedAt", VNum 200)]%string in
  resolve sw_clock no_dates r l rm (small_world [])
  = resolve sw_clock no_dates (setStrategy r LastWriteWins) l rm (small_world []).
Proof.
  intros r l rm.
  apply (resolve_fixed_strategies SmallWorld sw_clock no_dates r l rm
           (small_world [])); reflexivity.
Defined.

(** X18.  A timestamp that is a string the host does not read as a date
    has the time [NaN], and no comparison with [NaN] holds: when either
    side has such a timestamp, last-write-wins returns the local state,
    also against a remote state with a valid, later timestamp. *)
Theorem lastWriteWins_invalid_date_keeps_local :
  forall (Date_parse : string -> option Z) (localState remoteState : obj)
         (timestampKey' : option string) (s : string) (t : Z),
    let key := default "_updatedAt"%string timestampKey' in
    s <> ""%string -> Date_parse s = None ->
    (get localState key = VStr s -> timestamp_is Date_parse remoteState key t ->
     lastWriteWins Date_parse localState remoteState timestampKey'
     = Ok localState)
    /\ (get remoteState key = VStr s ->
        timestamp_is Date_parse localState key t ->
        lastWriteWins Date_parse localState remoteState timestampKey'
        = Ok localState).
Proof.
  intros Date_parse l r key' s t key Hs Hparse.
  assert (E : timeOf Date_parse (VStr s) = Ok None).
  { unfold timeOf, truthy. destruct (String.eqb_spec s ""); [contradiction|].
    cbn [negb]. now rewrite Hparse. }
  split; intros Hstr Hother; unfold lastWriteWins; fold key;
    rewrite Hstr, E, (timeOf_timestamp _ _ _ _ Hother); reflexivity.
Qed.

(** Local [{_updatedAt: "yesterday"}] against remote
    [{_updatedAt: 200}]. *)
Lemma lastWriteWins_invalid_date_keeps_local_witness :
  lastWriteWins no_dates [("_updatedAt", VStr "yesterday")]%string
                [("_updatedAt", VNum 200)]%string None
  = Ok [("_updatedAt", VStr "yesterday")]%string.
Proof.
  apply (proj1 (lastWriteWins_invalid_date_keeps_local no_dates
                  [("_updatedAt", VStr "yesterday")]%string
                  [("_updatedAt", VNum 200)]%string None "yesterday" 200
                  ltac:(discriminate) eq_refl)).
  - reflexivity.
  - apply timestamp_number; [reflexivity | vm_compute; discriminate].
Defined.

(* ================================================================== *)
(** ** The keys of a merge *)

Lemma keys_put_eq (o : obj) (k : string) (v : value) :
  keys (put o k v) = if includes (keys o) k then keys o else keys o ++ [k].
Proof.
  induction o as [|[k' v'] o IH]; [reflexivity|].
  cbn [put keys map fst includes existsb].
  destruct (String.eqb_spec k k') as [->|Hne]; [reflexivity|].
  cbn [orb keys map fst]. fold (keys (put o k v)). rewrite IH.
  fold (keys o). fold (includes (keys o) k).
  destruct (includes (keys o) k); reflexivity.
Qed.

Lemma nested_merges_return (l : obj) :
  forall (key : string) (a b : obj),
    get l key = VObj a -> exists m, mergeStates a b None = Ok m.
Proof.
  intros key a b _.
  destruct (mergeStates_spec (depth (VObj a)) a b None (Nat.le_refl _))
    as (m & E & _).
  now exists m.
Qed.

(** One round of the loop leaves the keys as they are, or adds the key
    of the round at the end. *)
Lemma merge_key_keys (l r : obj) (ig fo : list string) (acc : obj)
  (key : string) :
  (forall k, In k (keys l) -> In k (keys acc)) ->
  exists acc',
    merge_key (fun a b => mergeStates a b None) l r ig fo acc key = Ok acc'
    /\ keys acc'
       = if negb (includes (keys acc) key) && added_key r ig fo key
         then keys acc ++ [key]
         else keys acc.
Proof.
  intro Hsub. unfold merge_key, added_key.
  destruct (includes ig key); cbn [negb andb].
  { exists acc. now rewrite andb_false_r. }
  destruct (includes fo key); cbn [orb].
  { eexists. split; [reflexivity|]. rewrite keys_put_eq, andb_true_r.
    destruct (includes (keys acc) key); reflexivity. }
  destruct (includes (keys acc) key) eqn:Hin; cbn [negb andb].
  - destruct (get l key) as [| | | | | |a] eqn:El;
      try (destruct (isUndefined (get r key)); cbn [negb];
           eexists; (split; [reflexivity|]);
           rewrite ?keys_put_eq, ?Hin; reflexivity).
    destruct (get r key) as [| | | | | |b] eqn:Er; cbn [isUndefined negb];
      try (eexists; (split; [reflexivity|]);
           rewrite ?keys_put_eq, ?Hin; reflexivity).
    destruct (nested_merges_return l key a b El) as (m & ->). cbn [bind].
    eexists. split; [reflexivity|]. now rewrite keys_put_eq, Hin.
  - assert (El : get l key = VUndefined).
    { apply get_absent. intro H. apply Hsub in H.
      apply includes_true in H. congruence. }
    rewrite El. destruct (isUndefined (get r key)); cbn [negb];
      eexists; (split; [reflexivity|]); rewrite ?keys_put_eq, ?Hin; reflexivity.
Qed.

Lemma filter_fresh (seen extra ks : list string) (P : string -> bool) :
  (forall k, In k extra -> ~ In k ks) ->
  List.filter (fun k => negb (includes (seen ++ extra) k) && P k) ks
  = List.filter (fun k => negb (includes seen k) && P k) ks.
Proof.
  intro H. apply filter_ext_in. intros k Hk. f_equal. f_equal.
  destruct (includes seen k) eqn:E.
  - apply includes_true. apply in_or_app. left. now apply includes_true.
  - apply includes_false. intro Hin. apply in_app_or in Hin as [Hin|Hin].
    + apply includes_false in E. contradiction.
    + now apply (H k).
Qed.

Lemma for_each_merge_keys (l r : obj) (ig fo : list string) (ks : list string) :
  List.NoDup ks ->
  forall acc,
    (forall k, In k (keys l) -> In k (keys acc)) ->
    exists m,
      for_each (merge_key (fun a b => mergeStates a b None) l r ig fo) ks acc
      = Ok m
      /\ keys m
         = keys acc
           ++ List.filter (fun k => negb (includes (keys acc) k) && added_key r ig fo k)
                     ks.
Proof.
  induction 1 as [|key ks Hnotin Hnodup IH]; intros acc Hsub.
  - exists acc. split; [reflexivity|]. cbn [List.filter]. now rewrite app_nil_r.
  - destruct (merge_key_keys l r ig fo acc key Hsub) as (acc' & E & Hkeys).
    cbn [for_each]. rewrite E. cbn [bind].
    destruct (IH acc') as (m & Em & Hm).
    { intros k Hk. apply Hsub in Hk. rewrite Hkeys.
      destruct (_ && _); [apply in_or_app; now left | exact Hk]. }
    exists m. split; [exact Em|]. rewrite Hm, Hkeys. cbn [List.filter].
    destruct (negb (includes (keys acc) key) && added_key r ig fo key);
      [|reflexivity].
    rewrite <- app_assoc. f_equal. cbn [app]. f_equal.
    apply filter_fresh. intros k [<-|[]]. exact Hnotin.
Qed.

Lemma plain_object (m : obj) :
  plain (VObj m) = true
  <-> forall k v, In (k, v) m -> plain_key k = true /\ plain v = true.
Proof.
  cbn [plain]. rewrite forallb_forall. split.
  - intros H k v Hin. specialize (H (k, v) Hin). cbn [fst snd] in H.
    now apply andb_prop in H.
  - intros H [k v] Hin. destruct (H k v Hin) as [H1 H2]. cbn [fst snd].
    now rewrite H1, H2.
Qed.

Lemma plain_get (o : obj) (k : string) :
  plain (VObj o) = true -> plain (get o k) = true.
Proof.
  intro Ho. induction o as [|[k' v'] o IH]; [reflexivity|].
  cbn [plain forallb fst snd] in Ho. apply andb_prop in Ho as [Hkv Ho].
  apply andb_prop in Hkv as [_ Hv]. cbn [get].
  destruct (String.eqb k k'); [exact Hv | now apply IH].
Qed.

Lemma plain_key_of (o : obj) (k : string) :
  plain (VObj o) = true -> In k (keys o) -> plain_key k = true.
Proof.
  intros Ho Hk. apply in_map_iff in Hk as ([k' v] & <- & Hin).
  now apply (proj1 (plain_object o) Ho k' v).
Qed.

Lemma plain_put (o : obj) (k : string) (v : value) :
  plain (VObj o) = true -> plain_key k = true -> plain v = true ->
  plain (VObj (put o k v)) = true.
Proof.
  intros Ho Hk Hv. induction o as [|[k' v'] o IH]; cbn [put].
  - cbn [plain forallb fst snd]. now rewrite Hk, Hv.
  - cbn [plain forallb fst snd] in Ho. apply andb_prop in Ho as [Hkv Ho].
    destruct (String.eqb k k').
    + cbn [plain forallb fst snd]. rewrite Hk, Hv. exact Ho.
    + cbn [plain forallb fst snd]. rewrite Hkv. now apply IH.
Qed.

(** The merge of two plain states is a plain state. *)
Lemma mergeStates_plain (n : nat) :
  forall (l r : obj) (options : option MergeOptions) (m : obj),
    (depth (VObj l) <= n)%nat ->
    plain (VObj l) = true -> plain (VObj r) = true ->
    mergeStates l r options = Ok m -> plain (VObj m) = true.
Proof.
  induction n as [|n IH]; intros l r options m Hdepth Hl Hr;
    [simpl in Hdepth; lia|].
  rewrite mergeStates_unfold.
  set (ig := option_keys options ignoreKeys).
  set (fo := option_keys options forceLWWKeys).
  assert (Hks : forall k, In k (uniq [] (keys l ++ keys r)) ->
                          plain_key k = true).
  { intros k Hk. apply uniq_In in Hk as [Hk _].
    apply in_app_or in Hk as [Hk|Hk];
      [now apply (plain_key_of l) | now apply (plain_key_of r)]. }
  assert (Hloop : forall ks : list string,
            (forall k, In k ks -> plain_key k = true) ->
            forall acc m' : obj,
              plain (VObj acc) = true ->
              for_each (merge_key (fun a b => mergeStates a b None) l r ig fo)
                       ks acc = Ok m' ->
              plain (VObj m') = true).
  { induction ks as [|key ks IHks]; intros Hplain acc m' Hacc; cbn [for_each].
    - intro E. now injection E as <-.
    - destruct (merge_key _ l r ig fo acc key) as [acc'| |] eqn:Estep;
        cbn [bind]; try discriminate.
      apply IHks; [intros k Hk; apply Hplain; now right|].
      assert (Hkey : plain_key key = true) by (apply Hplain; now left).
      unfold merge_key in Estep.
      destruct (includes ig key); [now injection Estep as <-|].
      destruct (includes fo key).
      { injection Estep as <-. apply plain_put; auto. now apply plain_get. }
      assert (Hleaf : (if negb (isUndefined (get r key))
                       then Ok (put acc key (get r key)) else Ok acc)
                      = Ok acc' ->
                      plain (VObj acc') = true).
      { destruct (negb (isUndefined (get r key))); intro E; injection E as <-;
          [apply plain_put; auto; now apply plain_get | exact Hacc]. }
      destruct (get l key) as [| | | | | |a] eqn:El; try (now apply Hleaf).
      destruct (get r key) as [| | | | | |b] eqn:Er; try (now apply Hleaf).
      destruct (mergeStates a b None) as [nested| |] eqn:En;
        cbn [bind] in Estep; try discriminate.
      injection Estep as <-. apply plain_put; auto.
      apply (IH a b None nested); [| | |exact En].
      + apply depth_get in El. lia.
      + rewrite <- El. now apply plain_get.
      + rewrite <- Er. now apply plain_get. }
  intro E. exact (Hloop _ Hks l m Hl E).
Qed.

(** X19.  The merge of two states with plain keys drops no key and
    invents none: the keys of the merged state are the keys of the local
    state, in their order, followed by the keys that only the remote
    state has, except the ignored ones and those whose remote value is
    [undefined] (unless forced); the merged state has plain keys again.
    [ignored] and [forced] are the lists [ignoreKeys] and
    [forceLWWKeys] of the options, empty when absent. *)
Theorem mergeStates_keys :
  forall (localState remoteState : obj) (options : option MergeOptions)
         (ignored forced : list string),
    plain (VObj localState) = true -> plain (VObj remoteState) = true ->
    ignored = match options with
              | Some o => default [] (ignoreKeys o)
              | None => []
              end ->
    forced = match options with
             | Some o => default [] (forceLWWKeys o)
             | None => []
             end ->
    exists (merged : obj) (added : list string),
      mergeStates localState remoteState options = Ok merged
      /\ keys merged = keys localState ++ added
      /\ List.NoDup added
      /\ (forall k,
            In k added
            <-> In k (keys remoteState) /\ ~ In k (keys localState)
                /\ includes ignored k = false
                /\ (includes forced k = true
                    \/ get remoteState k <> VUndefined))
      /\ plain (VObj merged) = true.
Proof.
  intros l r options ig fo Hl Hr Hig Hfo.
  destruct (option_keys_fields options) as [Eig Efo].
  rewrite <- Hig in Eig. rewrite <- Hfo in Efo.
  destruct (for_each_merge_keys l r ig fo (uniq [] (keys l ++ keys r))
              (uniq_NoDup _ _) l (fun k H => H)) as (m & E & Hkeys).
  assert (Em : mergeStates l r options = Ok m).
  { rewrite mergeStates_unfold, Eig, Efo. exact E. }
  eexists m, _. split; [exact Em|]. split; [exact Hkeys|]. split; [|split].
  - apply List.NoDup_filter, uniq_NoDup.
  - intro k. rewrite filter_In, uniq_In, in_app_iff.
    unfold added_key. rewrite !andb_true_iff, !negb_true_iff, orb_true_iff,
      negb_true_iff, includes_false.
    assert (Hu : isUndefined (get r k) = false <-> get r k <> VUndefined).
    { destruct (get r k); cbn [isUndefined]; split; intro H;
        try reflexivity; try discriminate; try congruence. }
    rewrite Hu. tauto.
  - now apply (mergeStates_plain (depth (VObj l)) l r options m).
Qed.

(** Local [{theme: "dark", session: "s1"}] against remote
    [{session: "s2", lang: "en", draft: undefined, cache: 1}] with
    [cache] ignored: only [lang] is added. *)
Lemma mergeStates_keys_witness :
  exists (merged : obj) (added : list string),
    mergeStates
      [("theme", VStr "dark"); ("session", VStr "s1")]%string
      [("session", VStr "s2"); ("lang", VStr "en"); ("draft", VUndefined);
       ("cache", VNum 1)]%string
      (Some {| strategy := Merge; ignoreKeys := Some ["cache"%string];
               forceLWWKeys := None; timestampKey := None |})
    = Ok merged
    /\ keys merged = ["theme"; "session"]%string ++ added
    /\ List.NoDup added
    /\ (forall k,
          In k added
          <-> In k ["session"; "lang"; "draft"; "cache"]%string
              /\ ~ In k ["theme"; "session"]%string
              /\ includes ["cache"%string] k = false
              /\ (includes [] k = true
                  \/ get [("session", VStr "s2"); ("lang", VStr "en");
                          ("draft", VUndefined); ("cache", VNum 1)]%string k
                     <> VUndefined))
    /\ plain (VObj merged) = true.
Proof.
  apply (mergeStates_keys
           [("theme", VStr "dark"); ("session", VStr "s1")]%string
           [("session", VStr "s2"); ("lang", VStr "en"); ("draft", VUndefined);
            ("cache", VNum 1)]%string
           (Some {| strategy := Merge; ignoreKeys := Some ["cache"%string];
                    forceLWWKeys := None; timestampKey := None |})
           ["cache"%string] []); reflexivity.
Defined.

(* ================================================================== *)
(** ** Merging with an empty state *)

Lemma uniq_distinct (l seen : list string) :
  distinct l = true -> (forall k, In k l -> ~ In k seen) -> uniq seen l = l.
Proof.
  revert seen. induction l as [|x l IH]; intros seen Hd Hs; [reflexivity|].
  cbn [distinct] in Hd. apply andb_prop in Hd as [Hx Hd].
  cbn [uniq]. rewrite (proj2 (includes_false seen x)) by (apply Hs; now left).
  f_equal. apply IH; [exact Hd|].
  intros k Hk [Heq|Hin]; [|now apply (Hs k); [right|]].
  subst k. apply negb_true_iff in Hx. fold (includes l x) in Hx.
  apply includes_false in Hx. contradiction.
Qed.

Lemma get_middle (pre post : obj) (k : string) (v : value) :
  ~ In k (keys pre) -> get (pre ++ (k, v) :: post) k = v.
Proof.
  induction pre as [|[k' v'] pre IH]; cbn [app get keys map fst]; intro H.
  - now rewrite String.eqb_refl.
  - destruct (String.eqb_spec k k') as [->|Hne]; [destruct H; now left|].
    apply IH. intro Hin. apply H. now right.
Qed.

Lemma distinct_app_cons (pre post : list string) (k : string) :
  distinct (pre ++ k :: post) = true -> ~ In k pre.
Proof.
  induction pre as [|x pre IH]; cbn [app distinct]; intro H; [intros []|].
  apply andb_prop in H as [Hx H]. intros [->|Hin]; [|now apply IH].
  apply negb_true_iff in Hx. fold (includes (pre ++ k :: post) k) in Hx.
  apply includes_false in Hx. apply Hx, in_or_app. right. now left.
Qed.

Lemma for_each_merge_into_empty (r : obj) (ig fo : list string) :
  distinct (keys r) = true ->
  (forall k, In k (keys r) ->
             includes ig k = false /\ get r k <> VUndefined) ->
  forall pre post : obj,
    r = pre ++ post ->
    for_each (merge_key (fun a b => mergeStates a b None) [] r ig fo)
             (keys post) pre
    = Ok r.
Proof.
  intros Hd Hr pre post. revert pre.
  induction post as [|[k v] post IH]; intros pre E.
  - rewrite app_nil_r in E. now subst.
  - cbn [keys map fst for_each]. fold (keys post).
    assert (Hk : ~ In k (keys pre)).
    { apply (distinct_app_cons _ (keys post)).
      rewrite E in Hd. unfold keys in *. now rewrite map_app in Hd. }
    assert (Hget : get r k = v) by (rewrite E; now apply get_middle).
    destruct (Hr k) as [Hig Hdef].
    { rewrite E. unfold keys. rewrite map_app. apply in_or_app. right. now left. }
    assert (Hstep : merge_key (fun a b => mergeStates a b None) [] r ig fo pre k
                    = Ok (pre ++ [(k, v)])).
    { unfold merge_key. rewrite Hig, Hget. cbn [get].
      rewrite put_fresh by assumption.
      destruct (includes fo k); [reflexivity|].
      rewrite Hget in Hdef. destruct v; try reflexivity. contradiction. }
    rewrite Hstep. cbn [bind]. apply IH. rewrite E, <- app_assoc. reflexivity.
Qed.

(** X20.  Merging a state with plain keys with an empty state.  An
    empty remote state changes nothing, except that a forced key of the
    local state that is not ignored loses its value: it is set to the
    [undefined] that the remote state holds.  Merging a remote state
    into an empty local one gives the remote state, when that has no
    ignored key and no property that is [undefined].  [ignored] and
    [forced] are the lists [ignoreKeys] and [forceLWWKeys] of the
    options, empty when absent. *)
Theorem mergeStates_with_empty :
  forall (state' : obj) (options : option MergeOptions)
         (ignored forced : list string),
    plain (VObj state') = true ->
    ignored = match options with
              | Some o => default [] (ignoreKeys o)
              | None => []
              end ->
    forced = match options with
             | Some o => default [] (forceLWWKeys o)
             | None => []
             end ->
    ((forall k, In k (keys state') -> includes forced k = true ->
                includes ignored k = true) ->
     mergeStates state' [] options = Ok state')
    /\ (forall k, In k (keys state') ->
                  includes forced k = true -> includes ignored k = false ->
                  exists merged,
                    mergeStates state' [] options = Ok merged
                    /\ get merged k = VUndefined)
    /\ (distinct (keys state') = true ->
        (forall k, In k (keys state') ->
                   includes ignored k = false /\ get state' k <> VUndefined) ->
        mergeStates [] state' options = Ok state').
Proof.
  intros x options ig fo _ Hig Hfo.
  destruct (option_keys_fields options) as [Eig Efo].
  rewrite <- Hig in Eig. rewrite <- Hfo in Efo. clear Hig Hfo.
  split; [|split].
  - intro H. rewrite mergeStates_unfold, Eig, Efo.
    apply for_each_fixed. intros key Hkey.
    apply uniq_In in Hkey as [Hkey _]. rewrite app_nil_r in Hkey.
    unfold merge_key. destruct (includes ig key) eqn:Hig; [reflexivity|].
    destruct (includes fo key) eqn:Hfo.
    { rewrite (H key Hkey Hfo) in Hig. discriminate. }
    cbn [get]. destruct (get x key); reflexivity.
  - intros k Hk Hfo Hig.
    destruct (mergeStates_spec (depth (VObj x)) x [] options (Nat.le_refl _))
      as (m & E & Hm).
    exists m. split; [exact E|]. specialize (Hm k). unfold merged_value in Hm.
    rewrite Eig, Efo in Hm. now rewrite Hig, Hfo in Hm.
  - intros Hd Hx. rewrite mergeStates_unfold, Eig, Efo.
    cbn [keys map app]. fold (keys x).
    rewrite uniq_distinct by (assumption || (intros ? _ [])).
    now apply (for_each_merge_into_empty x ig fo Hd Hx [] x).
Qed.

(** The local state [{token: "t", theme: "dark"}] with [token] forced
    and nothing on the remote side: [token] is lost. *)
Lemma mergeStates_with_empty_witness :
  let options := Some {| strategy := Merge; ignoreKeys := None;
                         forceLWWKeys := Some ["token"%string];
                         timestampKey := None |} in
  let local := [("token", VStr "t"); ("theme", VStr "dark")]%string in
  (exists merged,
     mergeStates local [] options = Ok merged
     /\ get merged "token" = VUndefined)
  /\ mergeStates [] local options = Ok local
  /\ mergeStates [("theme", VStr "dark")]%string [] options
     = Ok [("theme", VStr "dark")]%string.
Proof.
  intros options local.
  destruct (mergeStates_with_empty local options [] ["token"%string]
              eq_refl eq_refl eq_refl) as (_ & H2 & H3).
  split; [|split].
  - apply H2; [now left | reflexivity | reflexivity].
  - apply H3; [reflexivity|].
    intros k [<-|[<-|[]]]; split; (reflexivity || discriminate).
  - destruct (mergeStates_with_empty [("theme", VStr "dark")]%string options
                [] ["token"%string] eq_refl eq_refl eq_refl) as (H1 & _ & _).
    apply H1. intros k [<-|[]]. discriminate.
Defined.

(* ================================================================== *)
(** ** The difference between two states *)

Lemma is_json_get (o : obj) (k : string) :
  is_json (VObj o) = true ->
  get o k = VUndefined \/ is_json (get o k) = true.
Proof.
  cbn [is_json]. intro H. apply andb_prop in H as [_ H].
  induction o as [|[k' v'] o IH]; [now left|].
  cbn [forallb fst snd] in H. apply andb_prop in H as [Hv H].
  apply andb_prop in Hv as [_ Hv]. cbn [get].
  destruct (String.eqb k k'); [now right | now apply IH].
Qed.

(** On the values a JSON state holds under its keys, the texts differ
    exactly when the values do. *)
Lemma text_differs_spec (a b : value) :
  a = VUndefined \/ is_json a = true ->
  b = VUndefined \/ is_json b = true ->
  text_differs (stringify_any a) (stringify_any b) = false <-> a = b.
Proof.
  intros Ha Hb. unfold stringify_any.
  destruct (isUndefined a) eqn:Ea, (isUndefined b) eqn:Eb; cbn [text_differs].
  - destruct a, b; try discriminate. tauto.
  - split; [discriminate|]. intros ->. congruence.
  - split; [discriminate|]. intros ->. congruence.
  - rewrite negb_false_iff, String.eqb_eq.
    destruct Ha as [->|Ha]; [discriminate|].
    destruct Hb as [->|Hb]; [discriminate|].
    split; [now apply JSON_stringify_injective | now intros ->].
Qed.

Lemma getStateDiff_loop (from to : obj) (ks : list string) :
  List.NoDup ks ->
  (forall k, In k ks -> plain_key k = true) ->
  forall diff : obj,
    (forall k, In k ks -> ~ In k (keys diff)) ->
    for_each
      (fun diff key =>
         if negb (plain_key key) then Outside
         else if text_differs (stringify_any (get from key))
                              (stringify_any (get to key))
              then Ok (put diff key (get to key))
              else Ok diff)
      ks diff
    = Ok (diff
          ++ map (fun k => (k, get to k))
                 (List.filter
                    (fun k => text_differs (stringify_any (get from k))
                                           (stringify_any (get to k)))
                    ks)).
Proof.
  induction 1 as [|key ks Hnotin Hnodup IH]; intros Hplain diff Hfresh.
  - cbn. now rewrite app_nil_r.
  - cbn [for_each List.filter]. rewrite (Hplain key) by now left.
    cbn [negb].
    assert (Hrest : forall k, In k ks -> plain_key k = true)
      by (intros k Hk; apply Hplain; now right).
    destruct (text_differs _ _); cbn [bind].
    + rewrite IH; [|exact Hrest|].
      * rewrite put_fresh by (apply Hfresh; now left).
        now rewrite <- app_assoc.
      * intros k Hk Hin. apply keys_put in Hin as [Hin| ->].
        -- apply (Hfresh k); [now right | exact Hin].
        -- contradiction.
    + apply IH; [exact Hrest|]. intros k Hk. apply Hfresh. now right.
Qed.

Lemma plain_keys_all (from to : obj) :
  forallb plain_key (keys from) = true -> forallb plain_key (keys to) = true ->
  forall k, In k (uniq [] (keys from ++ keys to)) -> plain_key k = true.
Proof.
  intros Hf Ht k Hk. apply uniq_In in Hk as [Hk _].
  rewrite forallb_forall in Hf, Ht.
  apply in_app_or in Hk as [Hk|Hk]; [now apply Hf | now apply Ht].
Qed.

(** X21.  [getStateDiff(from, to)] on two JSON states with plain keys
    holds exactly the keys under which the two states differ, each with
    the value of [to]; a key that [to] no longer has is in the
    difference with the value [undefined].  The difference of a state
    with itself is empty.  On [{a:1, b:2, c:3}] and [{a:1, b:5, c:3}]
    it is [{b:5}]. *)
Theorem getStateDiff_spec :
  (forall (from to : obj),
     is_json (VObj from) = true -> is_json (VObj to) = true ->
     forallb plain_key (keys from) = true ->
     forallb plain_key (keys to) = true ->
     exists diff : obj,
       getStateDiff from to = Ok diff
       /\ forall k : string,
            (In k (keys diff) <-> get from k <> get to k)
            /\ (In k (keys diff) -> get diff k = get to k))
  /\ (forall x : obj,
        forallb plain_key (keys x) = true -> getStateDiff x x = Ok [])
  /\ getStateDiff [("a", VNum 1); ("b", VNum 2); ("c", VNum 3)]%string
                  [("a", VNum 1); ("b", VNum 5); ("c", VNum 3)]%string
     = Ok [("b", VNum 5)]%string.
Proof.
  split; [|split; [|reflexivity]].
  - intros from to Hfrom Hto Hpf Hpt. unfold getStateDiff.
    rewrite (getStateDiff_loop from to _ (uniq_NoDup _ _)
               (plain_keys_all from to Hpf Hpt) [])
      by (intros ? _ []).
    eexists. split; [reflexivity|]. intro k. cbn [app].
    set (differs := fun k => text_differs (stringify_any (get from k))
                                          (stringify_any (get to k))).
    set (ks := List.filter differs (uniq [] (keys from ++ keys to))).
    assert (Hkeys : keys (map (fun k => (k, get to k)) ks) = ks).
    { unfold keys. rewrite map_map. cbn [fst]. apply map_id. }
    assert (Hiff : In k ks <-> get from k <> get to k).
    { subst ks. rewrite filter_In, uniq_In, in_app_iff. subst differs.
      cbv beta.
      pose proof (text_differs_spec (get from k) (get to k)
                    (is_json_get from k Hfrom) (is_json_get to k Hto)) as Hd.
      destruct (text_differs _ _).
      - split; [intros _ E; now apply Hd in E|].
        intro Hne. split; [|reflexivity]. split; [|intros []].
        destruct (in_dec string_dec k (keys from)) as [|Hf]; [now left|].
        destruct (in_dec string_dec k (keys to)) as [|Ht]; [now right|].
        rewrite !get_absent in Hne by assumption. contradiction.
      - split; [intros [_ H]; discriminate|].
        intro Hne. destruct Hne. now apply Hd. }
    rewrite Hkeys. split; [exact Hiff|]. intro Hin.
    assert (Hnd : List.NoDup ks) by apply List.NoDup_filter, uniq_NoDup.
    clear Hiff Hkeys. induction ks as [|x ks IHks]; [destruct Hin|].
    cbn [map get]. destruct (String.eqb_spec k x) as [->|Hne]; [reflexivity|].
    apply IHks; [|now inversion Hnd]. destruct Hin as [->|Hin];
      [contradiction | exact Hin].
  - intros x Hx. unfold getStateDiff.
    rewrite (getStateDiff_loop x x _ (uniq_NoDup _ _)
               (plain_keys_all x x Hx Hx) [])
      by (intros ? _ []).
    cbn [app].
    assert (H : forall l, List.filter
                (fun k => text_differs (stringify_any (get x k))
                                       (stringify_any (get x k))) l = []).
    { induction l as [|y l IHl]; [reflexivity|]. cbn [List.filter].
      assert (E : forall a, text_differs a a = false).
      { intros [s|]; cbn; [|reflexivity]. now rewrite String.eqb_refl. }
      now rewrite E. }
    now rewrite H.
Qed.

(** A key that only [from] has is in the difference, with no value. *)
Lemma getStateDiff_spec_witness :
  let from := [("a", VNum 1); ("gone", VBool true)]%string in
  let to := [("a", VNum 1)]%string in
  exists diff : obj,
    getStateDiff from to = Ok diff
    /\ forall k : string,
         (In k (keys diff) <-> get from k <> get to k)
         /\ (In k (keys diff) -> get diff k = get to k).
Proof.
  intros from to.
  apply (proj1 getStateDiff_spec from to); reflexivity.
Defined.

(* ================================================================== *)
(** ** The resolver under ['merge'] *)

Lemma mergeStates_same (x : obj) (options : option MergeOptions) :
  mergeStates x x options = Ok x.
Proof.
  remember (depth (VObj x)) as n eqn:Hn.
  assert (Hle : (depth (VObj x) <= n)%nat) by lia. clear Hn.
  revert x Hle options. induction n as [|n IH]; intros x Hle options;
    [simpl in Hle; lia|].
  rewrite mergeStates_unfold. apply for_each_fixed. intros key Hkey.
  apply merge_key_self.
  - apply uniq_In in Hkey as [Hkey _]. apply in_app_or in Hkey. tauto.
  - intros a Ha. apply IH. apply depth_get in Ha. lia.
Qed.

(** X22.  A resolver created without a merge function of its own
    resolves two JSON states under ['merge'] to
    [mergeStates(local, remote, options)], with the [ignoreKeys] and
    [forceLWWKeys] of its options, and leaves the world alone; the test
    for equal states changes nothing about it, a state merged with
    itself being that state. *)
Theorem resolve_merge_is_mergeStates :
  forall (W : Type) (now : W -> Z) (Date_parse : string -> option Z)
         (options : SyncConflictOptions W) (localState remoteState : obj)
         (w : W),
    strategy (fields options) = Merge -> mergeStrategy options = None ->
    is_json (VObj localState) = true -> is_json (VObj remoteState) = true ->
    exists merged : obj,
      mergeStates localState remoteState (Some (fields options)) = Ok merged
      /\ resolve now Date_parse (createConflictResolver options)
                 localState remoteState w
         = Ok (merged, w).
Proof.
  intros W now Date_parse options l rm w Hs Hm Hl Hr.
  destruct (mergeStates_spec (depth (VObj l)) l rm (Some (fields options))
              (Nat.le_refl _)) as (merged & E & _).
  exists merged. split; [exact E|].
  unfold resolve, resolveWithResult, createConflictResolver.
  cbn [currentStrategy mergeFn options_of customHandler]. rewrite Hs, Hm.
  cbn [default from_option id].
  destruct (String.eqb_spec (JSON_stringify (VObj l)) (JSON_stringify (VObj rm)))
    as [Heq|Hne].
  - apply JSON_stringify_injective in Heq; [|assumption..].
    injection Heq as <-. rewrite mergeStates_same in E. injection E as <-.
    reflexivity.
  - rewrite E. reflexivity.
Qed.

Lemma resolve_merge_is_mergeStates_witness :
  let options : SyncConflictOptions SmallWorld :=
    {| fields := {| strategy := Merge; ignoreKeys := Some ["session"%string];
                    forceLWWKeys := None; timestampKey := None |};
       onConflict := None; mergeStrategy := None |} in
  let l := [("session", VStr "s1"); ("count", VNum 1)]%string in
  let rm := [("session", VStr "s2"); ("count", VNum 2)]%string in
  exists merged : obj,
    mergeStates l rm (Some (fields options)) = Ok merged
    /\ resolve sw_clock no_dates (createConflictResolver options) l rm
               (small_world [])
       = Ok (merged, small_world []).
Proof.
  intros options l rm.
  apply resolve_merge_is_mergeStates; reflexivity.
Defined.

(* ================================================================== *)
(** ** The tracked storage *)

(** X23.  The tracked storage parses the values only after the inner
    operation.  When the inner write succeeds and the new value, or a
    non-empty value stored before, is no JSON text, [setItem] throws
    with the inner storage in the world the write has produced, the
    value written, and with its two maps unchanged.  Otherwise it
    records the parsed old value ([null] when nothing or the empty
    string was stored) with the parsed new value, and the time of the
    write.  [removeItem] throws after the removal when the old value is
    no JSON text; otherwise it records the old value with [null] and
    leaves the times as they are, as does [clearChanges]. *)
Theorem tracked_storage_records :
  forall (W : Type) (now : W -> Z) (storage : StateStorage W)
         (key value' : string) (t : Tracker) (w w' : W) (prev : item),
    getItem storage key w = Ok prev -> prev <> IPromise ->
    (setItem storage key value' w = Ok w' ->
     (forall e : exn,
        parse_old prev = Throw e
        \/ ((exists old, parse_old prev = Ok old)
            /\ JSON_parse value' = Throw e) ->
        tracked_setItem now storage key value' t w = Rejected e t w')
     /\ (forall old new : value,
           parse_old prev = Ok old -> JSON_parse value' = Ok new ->
           exists t' : Tracker,
             tracked_setItem now storage key value' t w = Settled t' w'
             /\ getChanges t' !! key = Some (old, new)
             /\ lastModified t' key = Some (now w')))
    /\ (removeItem storage key w = Ok w' ->
        (forall e : exn,
           parse_old prev = Throw e ->
           tracked_removeItem storage key t w = Rejected e t w')
        /\ (forall old : value,
              parse_old prev = Ok old ->
              exists t' : Tracker,
                tracked_removeItem storage key t w = Settled t' w'
                /\ getChanges t' !! key = Some (old, VNull)
                /\ forall k, lastModified t' k = lastModified t k))
    /\ getChanges (clearChanges t) = ∅
    /\ forall k, lastModified (clearChanges t) k = lastModified t k.
Proof.
  intros W now storage key value' t w w' prev Hget Hprev.
  assert (Hold : tracked_getItem storage key w = Ok prev).
  { unfold tracked_getItem. rewrite Hget. cbn [bind].
    destruct prev; [reflexivity.. | contradiction]. }
  split; [|split; [|split; [reflexivity | reflexivity]]].
  - intro Hset. split.
    + intros e [He|[[old Ho] He]]; unfold tracked_setItem;
        rewrite Hold, Hset.
      * now rewrite He.
      * rewrite Ho. cbn [bind]. now rewrite He.
    + intros old new Ho Hn. eexists. unfold tracked_setItem.
      rewrite Hold, Hset, Ho. cbn [bind]. rewrite Hn. cbn [bind].
      split; [reflexivity|].
      unfold getChanges, lastModified. cbn [changes lastModifiedMap].
      split; apply lookup_insert_eq.
  - intros Hrm. split.
    + intros e He. unfold tracked_removeItem. now rewrite Hold, Hrm, He.
    + intros old Ho. eexists. unfold tracked_removeItem.
      rewrite Hold, Hrm, Ho. split; [reflexivity|].
      unfold getChanges, lastModified. cbn [changes lastModifiedMap].
      split; [apply lookup_insert_eq | reflexivity].
Qed.

(** A write of a text that is no JSON over a storage that takes it: the
    write throws, and the storage holds the text. *)
Lemma tracked_storage_records_witness :
  let w' := {| sw_localStorage := Some {[ "app"%string := "not json"%string ]};
               sw_random := sw_random (small_world []);
               sw_clock := sw_clock (small_world []) |} in
  tracked_setItem sw_clock memory_storage "app" "not json" new_tracker
                  (small_world [])
  = Rejected SyntaxError new_tracker w'
  /\ getItem memory_storage "app" w' = Ok (IString "not json").
Proof.
  intro w'. split; [|vm_compute; reflexivity].
  destruct (tracked_storage_records SmallWorld sw_clock memory_storage "app"
              "not json" new_tracker (small_world []) w' INull)
    as [H _]; [reflexivity | discriminate |].
  destruct H as [H _]; [vm_compute; reflexivity|].
  apply H. right. split; [now exists VNull | vm_compute; reflexivity].
Defined.

(* ================================================================== *)
(** ** The three layers together *)

(** X24.  With all three layers configured, a write encrypts the value
    and then looks at the length of the envelope.  A short envelope is
    stamped by the migrating layer and stored uncompressed; the read
    still passes it through the decompressor: the value comes back when
    the decompressor returns [null] on the stamped envelope, and when
    it returns a text the read returns what [decrypt] makes of that
    text, or the text itself when [decrypt] throws.  An envelope of
    [minSize] characters or more is stored compressed, and the read
    returns the value when the decompressor undoes the compressor and
    the compressed text is no JSON. *)
Theorem persist_plus_full_stack :
  forall (W : Type) (lib : CryptoJS W) (lz : LZString) (host : Host W)
         (adapter : StateStorage W) (eo : EncryptionOptions)
         (co : bool + CompressionOptions) (mo : MigrationOptions)
         (name' key value' : string) (w : W),
    keeps_writes adapter -> cipher_inverts lib ->
    secret eo <> ""%string -> value' <> ""%string ->
    default_key_options eo = true -> co <> inl false ->
    let store :=
      createPersistPlus lib lz host
        {| name := name'; storage := Some (inr adapter);
           encrypt_option := Some (inr eo); compress_option := Some co;
           migrate_option := Some mo |} in
    let minSize' := match co with
                    | inr o => minSize o
                    | inl _ => None
                    end in
    exists (blob : string) (envelope : obj) (w1 : W),
      encrypt lib value' (secret eo) eo w = Ok (blob, w1)
      /\ JSON_parse blob = Ok (VObj envelope)
      /\ (shouldCompress blob minSize' = false ->
          let stamped :=
            JSON_stringify
              (VObj (put envelope "_version" (VNum (version mo)))) in
          exists w' : W,
            setItem store key value' w = Ok w'
            /\ getItem adapter key w' = Ok (IString stamped)
            /\ getItem store key w'
               = match decompressFromUTF16 lz stamped with
                 | None => Ok (IString value')
                 | Some d =>
                     try_catch (do p <- decrypt lib d (secret eo) ;
                                Ok (IString p))
                               (Ok (IString d))
                 end)
      /\ (shouldCompress blob minSize' = true ->
          lz_inverts lz ->
          (exists e, JSON_parse (compress lz blob) = Throw e) ->
          exists w' : W,
            setItem store key value' w = Ok w'
            /\ getItem adapter key w' = Ok (IString (compress lz blob))
            /\ getItem store key w' = Ok (IString value')).
Proof.
  intros W lib lz host adapter eo co mo name' key value' w
         Hst Hlib Hs Hv Ho Hco store minSize'.
  destruct (default_key_options_spec eo Ho) as (Ha & Hi & Hk).
  destruct (encrypt_returns W lib value' (secret eo) eo w Hs)
    as (blob & w1 & E); [now rewrite Hk|].
  pose proof (decrypt_encrypted W lib value' (secret eo) eo w w1 blob
                Hlib Hv Ho E) as Hdec.
  destruct (encrypt_envelope W lib _ _ _ _ _ _ E) as (_ & s & i & Hblob).
  rewrite Ha, Hi, Hk in Hblob.
  set (c := AES_encrypt lib value'
              (PBKDF2 lib (secret eo) s (DEFAULT_keyLength / 32)
                      DEFAULT_iterations) i) in Hblob.
  set (envelope := [("salt", VStr s); ("iv", VStr i); ("ciphertext", VStr c);
                    ("algorithm", VStr "AES-GCM")]%string) in Hblob.
  assert (Hparse : JSON_parse blob = Ok (VObj envelope)).
  { rewrite Hblob. apply envelope_parses. }
  exists blob, envelope, w1. split; [exact E|]. split; [exact Hparse|].
  set (stamped := put envelope "_version" (VNum (version mo))).
  destruct (stamped_blob envelope (version mo) eq_refl) as [Estamped _].
  fold stamped in Estamped.
  assert (Hstore : store
                   = createEncryptedStorage lib
                       (createCompressedStorage lz
                          (createMigratingStorage adapter mo) (Some co))
                       (secret eo) (Some (inr eo))).
  { subst store. unfold createPersistPlus.
    cbn [storage migrate_option compress_option encrypt_option].
    destruct co as [[]|o]; [reflexivity | now destruct Hco | reflexivity]. }
  assert (Hmin : (o ← match Some co with
                      | Some (inr o) => Some o
                      | _ => None
                      end; minSize o) = minSize').
  { subst minSize'. destruct co as [b|o]; reflexivity. }
  rewrite Hstore. unfold createEncryptedStorage, createCompressedStorage,
    createMigratingStorage. cbn [setItem getItem]. rewrite E. cbn [bind].
  rewrite Hmin. split.
  - intros Hshort. rewrite Hshort, Hparse. cbn [bind setProp]. fold stamped.
    destruct (Hst key (JSON_stringify (VObj stamped)) w1)
      as (w' & Hset & Hget).
    exists w'. rewrite Hset. split; [reflexivity|]. split; [exact Hget|].
    rewrite Hget. cbn [bind]. unfold migrate_on_read.
    rewrite Estamped. cbn [bind].
    rewrite (storedVersionOf_present _ (version mo)) by apply get_put_same.
    cbn [bind]. rewrite Z.ltb_irrefl. cbn [try_catch bind].
    unfold decompress.
    destruct (decompressFromUTF16 lz (JSON_stringify (VObj stamped)));
      cbn [bind try_catch]; [reflexivity|].
    rewrite (decrypt_parsed W lib _ (secret eo) stamped s i c Hs Estamped)
      by reflexivity.
    subst c. rewrite Hlib. cbn [bind].
    destruct (String.eqb_spec value' ""); [contradiction | reflexivity].
  - intros Hlong Hlz (e & Hthrow). rewrite Hlong. unfold compress in *.
    rewrite Hthrow. cbn [bind try_catch].
    destruct (Hst key (compressToUTF16 lz blob) w1) as (w' & Hset & Hget).
    exists w'. split; [exact Hset|]. split; [exact Hget|].
    rewrite Hget. cbn [bind]. unfold migrate_on_read.
    rewrite Hthrow. cbn [bind try_catch]. unfold decompress. rewrite Hlz.
    cbn [bind try_catch]. now rewrite Hdec.
Qed.

(** The three layers with [compress: true] over a decompressor that
    returns a text of its own on what was not compressed: the value
    ["{}"] is stored in a stamped envelope, and is read as that text. *)
Lemma persist_plus_full_stack_witness :
  let store :=
    createPersistPlus tag_cipher garbling_lz small_host
      {| name := "app"; storage := Some (inr memory_storage);
         encrypt_option :=
           Some (inr {| algorithm := None; secret := "secret";
                        iterations := None; keyLength := None;
                        salt := None; iv := None |});
         compress_option := Some (inl true);
         migrate_option := Some scenario_migrations |} in
  exists w' : SmallWorld,
    setItem store "app" "{}" (small_world []) = Ok w'
    /\ getItem store "app" w' = Ok (IString "@@@").
Proof.
  intro store.
  destruct (persist_plus_full_stack SmallWorld tag_cipher garbling_lz
              small_host memory_storage
              {| algorithm := None; secret := "secret"; iterations := None;
                 keyLength := None; salt := None; iv := None |}
              (inl true) scenario_migrations "app" "app" "{}" (small_world [])
              memory_storage_keeps_writes tag_cipher_inverts
              ltac:(discriminate) ltac:(discriminate) eq_refl
              ltac:(discriminate))
    as (blob & envelope & w1 & E & Hparse & Hshort & _).
  vm_compute in E. injection E as <- <-.
  vm_compute in Hparse. injection Hparse as <-.
  destruct (Hshort eq_refl) as (w' & Hset & _ & Hget).
  exists w'. subst store. split; [exact Hset|].
  etransitivity; [exact Hget|]. vm_compute. reflexivity.
Defined.

(* ================================================================== *)
(** ** The merge of JSON states *)

Lemma distinct_NoDup (l : list string) : distinct l = true <-> List.NoDup l.
Proof.
  induction l as [|x l IH]; cbn [distinct].
  - split; [constructor | reflexivity].
  - rewrite andb_true_iff, negb_true_iff, IH. fold (includes l x).
    rewrite includes_false. split.
    + intros [H1 H2]. now constructor.
    + intro H. inversion H. now split.
Qed.

Lemma is_json_object (m : obj) :
  is_json (VObj m) = true
  <-> distinct (keys m) = true
      /\ forall k v, In (k, v) m ->
                     is_index_key (chars k) = false /\ is_json v = true.
Proof.
  cbn [is_json]. fold (keys m). rewrite andb_true_iff, forallb_forall.
  split; intros [Hd H]; (split; [exact Hd|]).
  - intros k v Hin. specialize (H (k, v) Hin). cbn [fst snd] in H.
    apply andb_prop in H as [H1 H2]. now apply negb_true_iff in H1.
  - intros [k v] Hin. destruct (H k v Hin) as [H1 H2]. cbn [fst snd].
    now rewrite H1, H2.
Qed.

Lemma get_member (o : obj) (k : string) :
  In k (keys o) -> In (k, get o k) o.
Proof.
  induction o as [|[k' v'] o IH]; cbn [keys map fst get]; [intros []|].
  destruct (String.eqb_spec k k') as [->|Hne]; [now left|].
  intros [H|H]; [congruence | right; now apply IH].
Qed.

Lemma get_of_member (o : obj) (k : string) (v : value) :
  List.NoDup (keys o) -> In (k, v) o -> get o k = v.
Proof.
  induction o as [|[k' v'] o IH]; cbn [keys map fst get]; [intros _ []|].
  intros Hnd [H|H].
  - injection H as -> ->. now rewrite String.eqb_refl.
  - inversion Hnd as [|? ? Hk' Hnd']. subst.
    destruct (String.eqb_spec k k') as [->|Hne]; [|now apply IH].
    destruct Hk'. change k' with (fst (k', v)). now apply in_map.
Qed.

Lemma is_json_get_key (o : obj) (k : string) :
  is_json (VObj o) = true -> In k (keys o) ->
  is_index_key (chars k) = false /\ is_json (get o k) = true.
Proof.
  intros Ho Hk. apply is_json_object in Ho as [_ Ho].
  apply (Ho k (get o k)). now apply get_member.
Qed.

Lemma get_defined_key (o : obj) (k : string) :
  get o k <> VUndefined -> In k (keys o).
Proof.
  intro H. destruct (in_dec string_dec k (keys o)) as [|Hn]; [assumption|].
  now rewrite get_absent in H.
Qed.

(** The merge of two JSON states is a JSON state, as long as no forced
    key that is not ignored is missing on the remote side. *)
Lemma mergeStates_json (n : nat) :
  forall (l r : obj) (options : option MergeOptions),
    (depth (VObj l) <= n)%nat ->
    is_json (VObj l) = true -> is_json (VObj r) = true ->
    (forall k, In k (keys l) ->
               includes (option_keys options forceLWWKeys) k = true ->
               includes (option_keys options ignoreKeys) k = false ->
               In k (keys r)) ->
    exists m, mergeStates l r options = Ok m /\ is_json (VObj m) = true.
Proof.
  induction n as [|n IH]; intros l r options Hdepth Hl Hr Hforced;
    [simpl in Hdepth; lia|].
  destruct (mergeStates_spec (S n) l r options Hdepth) as (m & E & Hvalues).
  exists m. split; [exact E|].
  destruct (for_each_merge_keys l r (option_keys options ignoreKeys)
              (option_keys options forceLWWKeys) (uniq [] (keys l ++ keys r))
              (uniq_NoDup _ _) l (fun k H => H)) as (m' & E' & Hkeys).
  rewrite <- mergeStates_unfold, E in E'. injection E' as <-.
  set (ig := option_keys options ignoreKeys) in *.
  set (fo := option_keys options forceLWWKeys) in *.
  set (added := List.filter
                  (fun k => negb (includes (keys l) k) && added_key r ig fo k)
                  (uniq [] (keys l ++ keys r))) in Hkeys.
  assert (Hadded : forall k, In k added ->
            In k (keys r) /\ ~ In k (keys l) /\ includes ig k = false
            /\ (includes fo k = true \/ get r k <> VUndefined)).
  { intros k Hk. subst added. apply filter_In in Hk as [Hin Hk].
    apply uniq_In in Hin as [Hin _]. apply in_app_or in Hin.
    apply andb_prop in Hk as [Hnl Hk]. apply negb_true_iff in Hnl.
    apply includes_false in Hnl. unfold added_key in Hk.
    apply andb_prop in Hk as [Hig Hk]. apply negb_true_iff in Hig.
    split; [tauto|]. split; [exact Hnl|]. split; [exact Hig|].
    apply orb_prop in Hk as [Hk|Hk]; [now left|]. right.
    intro Hu. rewrite Hu in Hk. discriminate. }
  pose proof (proj1 (is_json_object l) Hl) as [Hdl _].
  assert (Hnd : List.NoDup (keys m)).
  { rewrite Hkeys. apply List.NoDup_app.
    - now apply distinct_NoDup.
    - apply List.NoDup_filter, uniq_NoDup.
    - intros k Hk Hk'. apply Hadded in Hk'. tauto. }
  apply is_json_object. split; [now apply distinct_NoDup|].
  intros k v Hin.
  assert (Hk : In k (keys l) \/ In k added).
  { apply in_app_or. rewrite <- Hkeys. change k with (fst (k, v)).
    now apply in_map. }
  assert (Hindex : is_index_key (chars k) = false).
  { destruct Hk as [Hk|Hk]; [now apply (is_json_get_key l)|].
    apply Hadded in Hk. now apply (is_json_get_key r). }
  split; [exact Hindex|].
  rewrite <- (get_of_member m k v Hnd Hin). specialize (Hvalues k).
  unfold merged_value in Hvalues.
  assert (Hlocal : In k (keys l) -> is_json (get l k) = true)
    by (intro H; now apply (is_json_get_key l)).
  assert (Hremote : get r k <> VUndefined -> is_json (get r k) = true).
  { intro H. apply (is_json_get_key r); [exact Hr|]. now apply get_defined_key. }
  destruct (includes ig k) eqn:Hig.
  { rewrite Hvalues. destruct Hk as [Hk|Hk]; [now apply Hlocal|].
    apply Hadded in Hk. destruct Hk as (_ & _ & Hk & _). congruence. }
  destruct (includes fo k) eqn:Hfo.
  { rewrite Hvalues. apply (is_json_get_key r); [exact Hr|].
    destruct Hk as [Hk|Hk]; [now apply Hforced | now apply Hadded in Hk]. }
  assert (Hleaf : get m k = (if isUndefined (get r k) then get l k else get r k)
                  -> is_json (get m k) = true).
  { intros ->. destruct (get r k) eqn:Er; cbn [isUndefined];
      try (apply Hremote; discriminate).
    destruct Hk as [Hk|Hk]; [now apply Hlocal|].
    apply Hadded in Hk. destruct Hk as (_ & _ & _ & [Hk|Hk]); congruence. }
  destruct (get l k) as [| | | | | |a] eqn:El; try (now apply Hleaf).
  destruct (get r k) as [| | | | | |b] eqn:Er;
    try (apply Hleaf; exact Hvalues).
  destruct Hvalues as (nested & En & ->).
  destruct (IH a b None) as (nested' & En' & Hjson).
  - apply depth_get in El. lia.
  - apply Hlocal. apply get_defined_key. rewrite El. discriminate.
  - apply Hremote. discriminate.
  - intros ? _ H. discriminate H.
  - rewrite En in En'. now injection En' as <-.
Qed.

(** X25.  The merge keeps states serialisable: the merge of two JSON
    states with plain keys is a JSON state with plain keys, which
    [JSON.stringify] followed by [JSON.parse] gives back unchanged,
    provided every forced key of the local state that is not ignored is
    a key of the remote state (a forced key that the remote state lacks
    is set to [undefined]).  [ignored] and [forced] are the lists
    [ignoreKeys] and [forceLWWKeys] of the options, empty when
    absent. *)
Theorem mergeStates_keeps_json :
  forall (localState remoteState : obj) (options : option MergeOptions)
         (ignored forced : list string),
    is_json (VObj localState) = true -> is_json (VObj remoteState) = true ->
    plain (VObj localState) = true -> plain (VObj remoteState) = true ->
    ignored = match options with
              | Some o => default [] (ignoreKeys o)
              | None => []
              end ->
    forced = match options with
             | Some o => default [] (forceLWWKeys o)
             | None => []
             end ->
    (forall k, In k (keys localState) ->
               includes forced k = true -> includes ignored k = false ->
               In k (keys remoteState)) ->
    exists merged,
      mergeStates localState remoteState options = Ok merged
      /\ is_json (VObj merged) = true
      /\ plain (VObj merged) = true
      /\ JSON_parse (JSON_stringify (VObj merged)) = Ok (VObj merged).
Proof.
  intros l r options ig fo Hl Hr Hpl Hpr Hig Hfo Hforced.
  destruct (option_keys_fields options) as [Eig Efo].
  rewrite <- Hig in Eig. rewrite <- Hfo in Efo.
  destruct (mergeStates_json (depth (VObj l)) l r options (Nat.le_refl _)
              Hl Hr) as (m & E & Hm).
  { rewrite Eig, Efo. exact Hforced. }
  exists m. split; [exact E|]. split; [exact Hm|]. split.
  - now apply (mergeStates_plain (depth (VObj l)) l r options m).
  - now apply JSON_parse_stringify.
Qed.

(** The states of the example in the source, with [a] forced. *)
Lemma mergeStates_keeps_json_witness :
  exists merged,
    mergeStates
      [("a", VNum 1); ("b", VObj [("c", VNum 2)])]%string
      [("a", VNum 2); ("b", VObj [("d", VNum 3)]); ("e", VNum 4)]%string
      (Some {| strategy := Merge; ignoreKeys := None;
               forceLWWKeys := Some ["a"%string]; timestampKey := None |})
    = Ok merged
    /\ is_json (VObj merged) = true
    /\ plain (VObj merged) = true
    /\ JSON_parse (JSON_stringify (VObj merged)) = Ok (VObj merged).
Proof.
  apply (mergeStates_keeps_json
           [("a", VNum 1); ("b", VObj [("c", VNum 2)])]%string
           [("a", VNum 2); ("b", VObj [("d", VNum 3)]); ("e", VNum 4)]%string
           (Some {| strategy := Merge; ignoreKeys := None;
                    forceLWWKeys := Some ["a"%string]; timestampKey := None |})
           [] ["a"%string]); try reflexivity.
  intros k _ Hfo _. cbn in Hfo. rewrite orb_false_r in Hfo.
  apply String.eqb_eq in Hfo as ->. now left.
Defined.

(* ================================================================== *)
(** ** Two devices under last-write-wins *)


